(** * Actuarial factors: the [LifeTable] engine of [factors/models.py]

    A shallow embedding of the valuation engine: survival probabilities over
    life tables, the cash-flow generators of the seven products, the
    single-slot lookup cache of the undefined-partner product, present values
    and the factor matrix with its cache.

    Conventions of the embedding.
    - A float64 is a [num]: a real number, or [None] for NaN, the marker
      pandas uses for a missing value.  Arithmetic is real arithmetic;
      overflow and the infinities of a division by zero are not represented:
      a quotient with divisor 0 is the real number 0 of the total division
      of the reals, where float64 has an infinity or NaN and where Python's
      own float division raises ZeroDivisionError.
    - Ages, year offsets, age corrections and rounding precisions are [Z].
    - An interest assumption is a [rate]: one flat percentage or a Python
      list of percentages, both over [Q] so that [==] is decidable; a pandas
      Series as interest is outside the embedding.
    - A pandas Series is a list of labelled values; binary operators align
      on the labels, [shift] moves values by position.
    - Exceptions are values of [exn]; code that can raise returns a
      [result].  Methods that assign to attributes of [self], print or
      allocate a DataFrame run in the monad [M] over [state]. *)

From Stdlib Require Import ZArith List String Bool Lia.
From Stdlib Require Import QArith Qreals Reals Lra.
Import ListNotations.

Open Scope string_scope.
Open Scope list_scope.
Open Scope Z_scope.

(** ** Exceptions and results *)

(** The key of a failed lookup: a string, an age or year, or the name of a
    missing column or keyword. *)
Inductive key : Type :=
| KStr (s : string)
| KInt (z : Z).

Inductive exn : Type :=
| AssertionError (msg : string)
| KeyError (k : key)
| ValueError (msg : string)
| TypeError (msg : string)
| AttributeError (msg : string)
| NameError (name : string).

Inductive result (A : Type) : Type :=
| Ok (a : A)
| Raise (e : exn).

Arguments Ok {A} a.
Arguments Raise {A} e.

Definition rbind {A B : Type} (r : result A) (k : A -> result B) : result B :=
  match r with
  | Ok a => k a
  | Raise e => Raise e
  end.

Declare Scope result_scope.
Delimit Scope result_scope with result.
Notation "x <- r ;; k" := (rbind r (fun x => k))
  (at level 61, r at next level, right associativity) : result_scope.
Notation "'assert!' c 'else' m ;; k" :=
  (if c then k else Raise (AssertionError m))
  (at level 61, c at next level, m at next level, right associativity)
  : result_scope.

Fixpoint rmapM {A B : Type} (f : A -> result B) (l : list A) : result (list B) :=
  match l with
  | [] => Ok []
  | x :: tl =>
      match f x with
      | Ok y =>
          match rmapM f tl with
          | Ok ys => Ok (y :: ys)
          | Raise e => Raise e
          end
      | Raise e => Raise e
      end
  end.

(** ** Numbers *)

Definition num : Type := option R.

Definition NaN : num := None.
Definition fin (x : R) : num := Some x.
Definition of_Z (z : Z) : num := Some (IZR z).
Definition of_Q (q : Q) : num := Some (Q2R q).

Definition lift2 (f : R -> R -> R) (a b : num) : num :=
  match a, b with
  | Some x, Some y => Some (f x y)
  | _, _ => None
  end.

Definition nadd : num -> num -> num := lift2 Rplus.
Definition nsub : num -> num -> num := lift2 Rminus.
Definition nmul : num -> num -> num := lift2 Rmult.
Definition ndiv : num -> num -> num := lift2 Rdiv.
(** [x ** y] of numpy, read as the real power function. *)
Definition npow : num -> num -> num := lift2 Rpower.

Definition isnan (a : num) : bool :=
  match a with
  | Some _ => false
  | None => true
  end.

(** ** Interest assumptions *)

Inductive rate : Type :=
| Flat (q : Q)
| Curve (l : list Q).

Fixpoint Qlist_eqb (a b : list Q) : bool :=
  match a, b with
  | [], [] => true
  | x :: a', y :: b' => Qeq_bool x y && Qlist_eqb a' b'
  | _, _ => false
  end.

(** Python's [==] on two interest assumptions. *)
Definition rate_eqb (a b : rate) : bool :=
  match a, b with
  | Flat x, Flat y => Qeq_bool x y
  | Curve x, Curve y => Qlist_eqb x y
  | _, _ => false
  end.

(** [intrest == self.intrest], where the attribute starts as [None]. *)
Definition rate_eq_attr (a : rate) (cached : option rate) : bool :=
  match cached with
  | Some b => rate_eqb a b
  | None => false
  end.

(** ** pandas Series *)

Definition series : Type := list (Z * num).

Definition labels (s : series) : list Z := map fst s.
Definition values (s : series) : list num := map snd s.

Fixpoint zrange_from (start : Z) (n : nat) : list Z :=
  match n with
  | O => []
  | S k => start :: zrange_from (start + 1) k
  end.

(** [range(a, b)] of Python 2. *)
Definition range (a b : Z) : list Z := zrange_from a (Z.to_nat (b - a)).

(** [pd.Series(l)]: the default index 0, 1, ... *)
Definition Series (l : list num) : series :=
  combine (zrange_from 0 (List.length l)) l.

Fixpoint lookup_label (s : series) (l : Z) : option num :=
  match s with
  | [] => None
  | (k, v) :: tl => if Z.eqb k l then Some v else lookup_label tl l
  end.

(** [s.ix[l]] on an integer index: selection by label. *)
Definition ix (s : series) (l : Z) : result num :=
  match lookup_label s l with
  | Some v => Ok v
  | None => Raise (KeyError (KInt l))
  end.

(** [s.shift(k)]: values move [k] positions down (up when [k] is
    negative); the index stays and the vacated positions hold NaN. *)
Definition shift (k : Z) (s : series) : series :=
  let vs := values s in
  let n := List.length vs in
  let moved :=
    if 0 <=? k
    then firstn n (repeat NaN (Z.to_nat k) ++ vs)
    else skipn (Z.to_nat (- k)) vs ++ repeat NaN (Nat.min n (Z.to_nat (- k))) in
  combine (labels s) moved.

Fixpoint insert_label (l : Z) (ls : list Z) : list Z :=
  match ls with
  | [] => [l]
  | k :: tl =>
      if Z.ltb l k then l :: ls
      else if Z.eqb l k then ls
      else k :: insert_label l tl
  end.

(** The sorted union of two indexes. *)
Definition union_labels (a b : list Z) : list Z :=
  fold_right insert_label [] (a ++ b).

Definition get_or_nan (s : series) (l : Z) : num :=
  match lookup_label s l with
  | Some v => v
  | None => NaN
  end.

Fixpoint zip_with (f : num -> num -> num) (a b : series) : series :=
  match a, b with
  | (l, x) :: a', (_, y) :: b' => (l, f x y) :: zip_with f a' b'
  | _, _ => []
  end.

(** A binary operator on two Series: element by element when the indexes
    are equal, otherwise over the sorted union of the labels with NaN where
    either side has no value. *)
Definition binop (f : num -> num -> num) (a b : series) : series :=
  if list_eq_dec Z.eq_dec (labels a) (labels b)
  then zip_with f a b
  else map (fun l => (l, f (get_or_nan a l) (get_or_nan b l)))
           (union_labels (labels a) (labels b)).

(** A Series and a scalar. *)
Definition smap (f : num -> num) (s : series) : series :=
  map (fun p => (fst p, f (snd p))) s.

Definition fillna (v : num) (s : series) : series :=
  smap (fun x => if isnan x then v else x) s.

(** The builtin [sum] over the values of a Series. *)
Definition pysum (s : series) : num :=
  fold_left nadd (values s) (of_Z 0).

(** ** The loaded tables *)

(** Modelled from the spec: [MALE] and [FEMALE] of [settings], which is not
    among the sources; the docstrings of the methods give the two values. *)
Definition MALE : string := "M".
Definition FEMALE : string := "F".

(** A dict built by a comprehension over [(MALE, FEMALE)]. *)
Record by_sex (A : Type) : Type := BySex { for_male : A; for_female : A }.
Arguments BySex {A} _ _.
Arguments for_male {A} _.
Arguments for_female {A} _.

Definition sex_in_MF (sex : string) : bool :=
  String.eqb sex MALE || String.eqb sex FEMALE.

Definition by_sex_get {A : Type} (d : by_sex A) (sex : string) : result A :=
  if String.eqb sex MALE then Ok (for_male d)
  else if String.eqb sex FEMALE then Ok (for_female d)
  else Raise (KeyError (KStr sex)).

Record adjustment : Type := Adjustment {
  CX1 : Z; CX2 : Z; CX3 : Z;
  fnett : num; fcorr : num; fOTS : num
}.

Fixpoint dict_get {A : Type} (d : list (string * A)) (k : string) : result A :=
  match d with
  | [] => Raise (KeyError (KStr k))
  | (k', v) :: tl => if String.eqb k' k then Ok v else dict_get tl k
  end.

(** The attributes of a [LifeTable] that [__init__] loads and no method
    assigns afterwards. *)
Record LifeTable : Type := {
  delta : Z;                                         (* params['delta'] *)
  rounding : Z;                                      (* params['round'] *)
  lx : by_sex series;                                (* age -> lx *)
  hx : by_sex series;                                (* age -> hx *)
  adjust : list (string * list (string * adjustment));
  ukv : option (list ((string * Z * Q) * num))
}.

(** ** Keyword options and cash-flow records *)

(** The [**kwargs] of the generators.  [None] is an absent keyword; the
    inner option of [kw_intrest] and [kw_hx_pd] is a keyword passed as
    Python's [None]. *)
Record kwargs : Type := {
  kw_intrest : option (option rate);
  kw_hx_pd : option (option string);
  kw_postnumerando : option bool;
  kw_insurance_type : option string
}.

Definition no_kwargs : kwargs :=
  {| kw_intrest := None; kw_hx_pd := None;
     kw_postnumerando := None; kw_insurance_type := None |}.

(** A value passed in the third position of a generator. *)
Inductive pyval : Type :=
| PNone
| PInt (z : Z)
| PStr (s : string).

(** The dict a generator returns; an absent key is [None]. *)
Record cashflow : Type := {
  cf_insurance_id : option string;
  cf_payments : series;
  cf_age : option Z;
  cf_pension_age : option Z
}.

Definition payments_only (p : series) : cashflow :=
  {| cf_insurance_id := None; cf_payments := p;
     cf_age := None; cf_pension_age := None |}.

Definition adjust_get (t : LifeTable) (sex type : string) : result adjustment :=
  rbind (dict_get (adjust t) sex) (fun d => dict_get d type).

Definition Z_of_bool (b : bool) : Z := if b then 1 else 0.

(** ** DataFrames, the lookup table and the mutable attributes *)

Inductive cell : Type :=
| CStr (s : string)
| CInt (z : Z)
| CNum (x : num)
| CCf (c : cashflow).

(** A DataFrame of the factor pipeline: the names of the index levels, the
    names of the columns, and per row the cell under each name. *)
Record frame : Type := {
  findex : list string;
  fcolumns : list string;
  frows : list (list (string * cell))
}.

(** One row of the undefined-partner lookup table, indexed by
    [(gender, age)]. *)
Record lookup_row : Type := {
  lr_gender : string;
  lr_age : Z;
  lr_ay_avg : num;
  lr_hx_avg : num;
  lr_alpha1 : Z;
  lr_factor : num;
  lr_cf : num
}.

Definition lookup_table : Type := list lookup_row.

(** What an observer of a run sees: lines printed, and the calls that a
    call-count instrumentation of the two expensive methods would record. *)
Inductive event : Type :=
| Printed (line : string)
| Called_create_lookup_table (intrest : rate)
| Called_cf (insurance_id : string) (age_insured : Z) (sex_insured : string).

(** The attributes that methods assign, the DataFrame objects they share by
    reference, and the events so far (oldest first). *)
Record state : Type := {
  self_pension_age : option Z;
  self_intrest : option rate;
  self_lookup : option lookup_table;
  self_cfs : option nat;
  self_factors : option nat;
  self_yield_curve : option series;
  heap : list frame;
  trace : list event
}.

(** The attributes as [__init__] leaves them. *)
Definition fresh : state :=
  {| self_pension_age := None; self_intrest := None; self_lookup := None;
     self_cfs := None; self_factors := None; self_yield_curve := None;
     heap := []; trace := [] |}.

Definition M (A : Type) : Type := state -> result A * state.

Definition ret {A : Type} (a : A) : M A := fun st => (Ok a, st).
Definition raise {A : Type} (e : exn) : M A := fun st => (Raise e, st).
Definition lift {A : Type} (r : result A) : M A := fun st => (r, st).

Definition bind {A B : Type} (m : M A) (k : A -> M B) : M B :=
  fun st =>
    match m st with
    | (Ok a, st') => k a st'
    | (Raise e, st') => (Raise e, st')
    end.

Declare Scope M_scope.
Delimit Scope M_scope with M.
Notation "x <- m ;; k" := (bind m (fun x => k))
  (at level 61, m at next level, right associativity) : M_scope.
Notation "m ;;; k" := (bind m (fun _ => k))
  (at level 61, right associativity) : M_scope.

Definition get {A : Type} (f : state -> A) : M A := fun st => (Ok (f st), st).
Definition modify (f : state -> state) : M unit := fun st => (Ok tt, f st).

Fixpoint mapM {A B : Type} (f : A -> M B) (l : list A) : M (list B) :=
  match l with
  | [] => ret []
  | x :: tl =>
      bind (f x) (fun y => bind (mapM f tl) (fun ys => ret (y :: ys)))
  end.

Definition emit (e : event) : M unit :=
  modify (fun st =>
    {| self_pension_age := self_pension_age st; self_intrest := self_intrest st;
       self_lookup := self_lookup st; self_cfs := self_cfs st;
       self_factors := self_factors st; self_yield_curve := self_yield_curve st;
       heap := heap st; trace := trace st ++ [e] |}).

Definition print (line : string) : M unit := emit (Printed line).

Definition set_yield_curve (s : series) : M unit :=
  modify (fun st =>
    {| self_pension_age := self_pension_age st; self_intrest := self_intrest st;
       self_lookup := self_lookup st; self_cfs := self_cfs st;
       self_factors := self_factors st; self_yield_curve := Some s;
       heap := heap st; trace := trace st |}).

Definition set_lookup (l : lookup_table) : M unit :=
  modify (fun st =>
    {| self_pension_age := self_pension_age st; self_intrest := self_intrest st;
       self_lookup := Some l; self_cfs := self_cfs st;
       self_factors := self_factors st; self_yield_curve := self_yield_curve st;
       heap := heap st; trace := trace st |}).

Definition set_intrest (r : rate) : M unit :=
  modify (fun st =>
    {| self_pension_age := self_pension_age st; self_intrest := Some r;
       self_lookup := self_lookup st; self_cfs := self_cfs st;
       self_factors := self_factors st; self_yield_curve := self_yield_curve st;
       heap := heap st; trace := trace st |}).

Definition set_pension_age (a : Z) : M unit :=
  modify (fun st =>
    {| self_pension_age := Some a; self_intrest := self_intrest st;
       self_lookup := self_lookup st; self_cfs := self_cfs st;
       self_factors := self_factors st; self_yield_curve := self_yield_curve st;
       heap := heap st; trace := trace st |}).

Definition set_cfs (r : nat) : M unit :=
  modify (fun st =>
    {| self_pension_age := self_pension_age st; self_intrest := self_intrest st;
       self_lookup := self_lookup st; self_cfs := Some r;
       self_factors := self_factors st; self_yield_curve := self_yield_curve st;
       heap := heap st; trace := trace st |}).

Definition set_factors (r : nat) : M unit :=
  modify (fun st =>
    {| self_pension_age := self_pension_age st; self_intrest := self_intrest st;
       self_lookup := self_lookup st; self_cfs := self_cfs st;
       self_factors := Some r; self_yield_curve := self_yield_curve st;
       heap := heap st; trace := trace st |}).

Definition set_heap (h : list frame) (st : state) : state :=
  {| self_pension_age := self_pension_age st; self_intrest := self_intrest st;
     self_lookup := self_lookup st; self_cfs := self_cfs st;
     self_factors := self_factors st; self_yield_curve := self_yield_curve st;
     heap := h; trace := trace st |}.

(** A new DataFrame object; the result is its reference. *)
Definition alloc (f : frame) : M nat :=
  fun st => (Ok (List.length (heap st)), set_heap (heap st ++ [f]) st).

Definition deref (r : nat) : M frame :=
  fun st =>
    match nth_error (heap st) r with
    | Some f => (Ok f, st)
    | None => (Raise (AttributeError "dangling reference"), st)
    end.

Fixpoint list_set {A : Type} (l : list A) (n : nat) (x : A) : list A :=
  match l, n with
  | [], _ => []
  | _ :: tl, O => x :: tl
  | y :: tl, S k => y :: list_set tl k x
  end.

(** An operation with [inplace=True]: every holder of the reference sees
    the change. *)
Definition store (r : nat) (f : frame) : M unit :=
  modify (fun st => set_heap (list_set (heap st) r f) st).

Fixpoint row_get (r : list (string * cell)) (k : string) : option cell :=
  match r with
  | [] => None
  | (k', v) :: tl => if String.eqb k' k then Some v else row_get tl k
  end.

Fixpoint mem_string (k : string) (l : list string) : bool :=
  match l with
  | [] => false
  | x :: tl => String.eqb x k || mem_string k tl
  end.

Definition remove_string (k : string) (l : list string) : list string :=
  filter (fun x => negb (String.eqb x k)) l.

(** [row[k]] inside [apply(..., axis=1)]: only columns are visible. *)
Definition row_ix (f : frame) (r : list (string * cell)) (k : string)
  : result cell :=
  if mem_string k (fcolumns f) then
    match row_get r k with
    | Some c => Ok c
    | None => Raise (KeyError (KStr k))
    end
  else Raise (KeyError (KStr k)).

(** [f[k] = col]: a new last column, or new values of an existing one. *)
Definition set_column (k : string) (col : list cell) (f : frame) : frame :=
  {| findex := findex f;
     fcolumns := if mem_string k (fcolumns f) then fcolumns f
                 else fcolumns f ++ [k];
     frows := map (fun rc => filter (fun kv => negb (String.eqb (fst kv) k))
                                    (fst rc) ++ [(k, snd rc)])
                  (combine (frows f) col) |}.

(** [f.set_index(keys)]: the keys leave the columns and become the index. *)
Definition set_index (keys : list string) (f : frame) : result frame :=
  match find (fun k => negb (mem_string k (fcolumns f))) keys with
  | Some k => Raise (KeyError (KStr k))
  | None =>
      Ok {| findex := keys;
            fcolumns := filter (fun c => negb (mem_string c keys)) (fcolumns f);
            frows := frows f |}
  end.

(** [f.drop(k, axis=1)]. *)
Definition drop_column (k : string) (f : frame) : result frame :=
  if mem_string k (fcolumns f) then
    Ok {| findex := findex f;
          fcolumns := remove_string k (fcolumns f);
          frows := map (filter (fun kv => negb (String.eqb (fst kv) k)))
                       (frows f) |}
  else Raise (ValueError "labels ['cf'] not contained in axis").

Section Engine.

(** Modelled from the spec: the constants of [settings] and the helpers of
    [utils] that the methods use; neither module is among the sources. *)
Variable MAXAGE : Z.
Variable LOWAGE : Z.
Variable UPAGE : Z.
Variable INSURANCE_IDS : list string.
Variable prae_to_continuous : series -> series.
(** The builtin [round(x, ndigits)]. *)
Variable round : num -> Z -> num.

Variable self : LifeTable.

Open Scope result_scope.

(** ** Mortality *)

Definition npx (age : Z) (sex : string) (nyears : Z) : result num :=
  let future_age := Z.min (age + nyears) MAXAGE in
  let current_age := Z.min age MAXAGE in
  tbl <- by_sex_get (lx self) sex ;;
  a <- ix tbl future_age ;;
  tbl' <- by_sex_get (lx self) sex ;;
  b <- ix tbl' current_age ;;
  Ok (ndiv a b).

Definition qx (age : Z) (sex : string) : result num :=
  p <- npx age sex 1 ;;
  Ok (nsub (of_Z 1) p).

Definition nqx (age : Z) (sex : string) (nyears : Z) : result num :=
  p <- npx age sex (nyears - 1) ;;
  q <- npx age sex nyears ;;
  Ok (nsub p q).

(** ** Cash-flow generators without side effects *)

Definition cf_annuity (age : Z) (tbl : series) (defer : Z) : result series :=
  let nrows := Z.of_nat (List.length tbl) in
  assert! (defer <? nrows)
    else "Error: deferral period exceeds number of table rows." ;;
  let payments := Series (repeat (of_Z 0) (Z.to_nat defer) ++
                          repeat (of_Z 1) (Z.to_nat (nrows - defer))) in
  let prod := binop nmul payments (shift (- age) tbl) in
  d <- ix tbl age ;;
  Ok (fillna (of_Z 0) (smap (fun x => ndiv x d) prod)).

Definition sex_msg : string := "sex insured should be either M of F!".

Definition cf_ay_avg (age_insured : Z) (sex_insured : string)
    (pension_age : pyval) (kw : kwargs) : result cashflow :=
  let insurance_type :=
    match kw_insurance_type kw with
    | Some t => t
    | None => "partner"
    end in
  assert! (sex_in_MF sex_insured) else sex_msg ;;
  let sex_beneficiary := if String.eqb sex_insured MALE then FEMALE else MALE in
  let sign := if String.eqb sex_insured MALE then 1 else -1 in
  adj <- adjust_get self sex_beneficiary insurance_type ;;
  let gamma3 := CX3 adj in
  let tbl_beneficiary :=
    if String.eqb sex_insured MALE then for_female (lx self)
    else for_male (lx self) in
  a <- cf_annuity (age_insured - sign * delta self + gamma3) tbl_beneficiary 0 ;;
  b <- cf_annuity (age_insured + 1 - sign * delta self + gamma3)
         tbl_beneficiary 0 ;;
  let avg := smap (fun x => ndiv x (of_Z 2)) (binop nadd a b) in
  Ok (payments_only (prae_to_continuous avg)).

Definition cf_retirement_pension (age_insured : Z) (sex_insured : string)
    (pension_age : Z) (kw : kwargs) : result cashflow :=
  let postnumerando :=
    match kw_postnumerando kw with
    | Some b => b
    | None => false
    end in
  tbl_insured <- by_sex_get (lx self) sex_insured ;;
  adj <- adjust_get self sex_insured "retire" ;;
  let alpha1 := CX1 adj in
  let alpha2 := CX2 adj in
  cf <- cf_annuity (age_insured + alpha2) tbl_insured
          (pension_age - age_insured + Z_of_bool postnumerando) ;;
  p1 <- npx (age_insured + alpha1) sex_insured (pension_age - age_insured) ;;
  let cf := smap (fun x => nmul x p1) cf in
  p2 <- npx (age_insured + alpha2) sex_insured (pension_age - age_insured) ;;
  let cf := smap (fun x => ndiv x p2) cf in
  let cf := prae_to_continuous cf in
  Ok (payments_only
        (smap (fun x => nmul (nmul (nmul x (fnett adj)) (fcorr adj)) (fOTS adj))
              cf)).

Definition cf_defined_partner (age_insured : Z) (sex_insured : string)
    (pension_age : Z) (kw : kwargs) : result cashflow :=
  assert! (sex_in_MF sex_insured) else sex_msg ;;
  let sex_beneficiary := if String.eqb sex_insured MALE then FEMALE else MALE in
  tbl_insured <- by_sex_get (lx self) sex_insured ;;
  tbl_beneficiary <- by_sex_get (lx self) sex_beneficiary ;;
  adj <- adjust_get self sex_insured "partner" ;;
  let alpha1 := CX1 adj in
  let alpha2 := CX2 adj in
  adjb <- adjust_get self sex_beneficiary "partner" ;;
  let gamma3 := CX3 adjb in
  let sign := if String.eqb sex_insured MALE then 1 else -1 in
  let age_b := age_insured - sign * delta self + gamma3 in
  ay <- cf_annuity age_b tbl_beneficiary 0 ;;
  ax <- cf_annuity (age_insured + alpha1) tbl_insured 0 ;;
  let axy := binop nmul ax ay in
  f1 <- cf_annuity (age_insured + alpha1) tbl_insured
          (pension_age - age_insured) ;;
  f1b <- cf_annuity age_b tbl_beneficiary (pension_age - age_insured) ;;
  let f1 := binop nmul f1 f1b in
  f2 <- cf_annuity (age_insured + alpha2) tbl_insured
          (pension_age - age_insured) ;;
  f2b <- cf_annuity age_b tbl_beneficiary (pension_age - age_insured) ;;
  let f2 := binop nmul f2 f2b in
  t1n <- ix tbl_insured (pension_age + alpha1) ;;
  t1d <- ix tbl_insured (age_insured + alpha1) ;;
  let temp1 := ndiv t1n t1d in
  t2n <- ix tbl_insured (age_insured + alpha2) ;;
  t2d <- ix tbl_insured (pension_age + alpha2) ;;
  let temp2 := ndiv t2n t2d in
  let f2 := smap (fun x => nmul (nmul x temp1) temp2) f2 in
  let scale := nmul (nmul (fnett adj) (fcorr adj)) (fOTS adj) in
  Ok (payments_only
        (smap (fun x => nmul scale x)
              (binop nadd (binop nsub ay axy) (binop nsub f1 f2)))).

Definition cf_defined_one_year_risk (age_insured : Z) (sex_insured : string)
    (pension_age : Z) (kw : kwargs) : result cashflow :=
  adj <- adjust_get self sex_insured "partner" ;;
  let alpha1 := CX1 adj in
  assert! (sex_in_MF sex_insured) else sex_msg ;;
  cf <- cf_ay_avg age_insured sex_insured PNone
          {| kw_intrest := None; kw_hx_pd := None; kw_postnumerando := None;
             kw_insurance_type := Some "partner" |} ;;
  q <- qx (age_insured + alpha1) sex_insured ;;
  Ok {| cf_insurance_id := Some "NPTL-B";
        cf_payments :=
          smap (fun x => nmul (nmul (nmul (nmul x q) (fnett adj)) (fcorr adj))
                              (fOTS adj))
               (cf_payments cf);
        cf_age := None; cf_pension_age := None |}.

(** The mean of the hazard at an age and at the next age. *)
Definition hx_avg_at (sex : string) (age : Z) : result num :=
  tbl <- by_sex_get (hx self) sex ;;
  h0 <- ix tbl age ;;
  tbl' <- by_sex_get (hx self) sex ;;
  h1 <- ix tbl' (age + 1) ;;
  Ok (ndiv (nadd h0 h1) (of_Z 2)).

Definition cf_undefined_one_year_risk (age_insured : Z) (sex_insured : string)
    (pension_age : Z) (kw : kwargs) : result cashflow :=
  hx_avg <- hx_avg_at sex_insured age_insured ;;
  cf <- cf_defined_one_year_risk age_insured sex_insured pension_age kw ;;
  Ok {| cf_insurance_id := Some "NPTL-O";
        cf_payments := smap (fun x => nmul hx_avg x) (cf_payments cf);
        cf_age := None; cf_pension_age := None |}.

Close Scope result_scope.
Open Scope M_scope.

(** ** Present values *)

(** Modelled from the spec: [x_to_series] of [utils], which is not among
    the sources: a single flat rate broadcast to all years, or the explicit
    per-year sequence the caller supplied. *)
Definition x_to_series (intrest : rate) (n : nat) : series :=
  match intrest with
  | Flat q => Series (repeat (of_Q q) n)
  | Curve l => Series (map of_Q l)
  end.

(** [lambda r: 1. / (1 + r / 100.)] *)
Definition discount_base (r : num) : num :=
  ndiv (of_Z 1) (nadd (of_Z 1) (ndiv r (of_Z 100))).

Definition half : num := fin (1 / 2).

Definition require {A : Type} (k : string) (o : option A) : M A :=
  match o with
  | Some a => ret a
  | None => raise (KeyError (KStr k))
  end.

Definition pv (cf : cashflow) (intrest : rate) : M num :=
  let cfs := cf_payments cf in
  insurance_id <- require "insurance_id" (cf_insurance_id cf) ;;
  let year := labels cfs in
  set_yield_curve (x_to_series intrest (List.length cfs)) ;;;
  let base := smap discount_base (x_to_series intrest (List.length cfs)) in
  pv_factors <-
    (if mem_string insurance_id ["OPLL"; "NPLL-B"; "ay_avg"] then
       ret (binop npow base (Series (map of_Z year)))
     else if mem_string insurance_id ["NPTL-B"; "NPTL-O"] then
       ret (binop npow base (Series (map (fun y => nadd (of_Z y) half) year)))
     else if mem_string insurance_id ["NPLL-O"; "NPLLRS"; "NPLLRU"] then
       pa <- require "pension_age" (cf_pension_age cf) ;;
       ag <- require "age" (cf_age cf) ;;
       let nyears_till_pension_age := pa - ag in
       ret (binop npow base
              (Series (map (fun y =>
                              nadd (of_Z y)
                                (nmul half
                                   (of_Z (Z_of_bool
                                            (y <=? nyears_till_pension_age)))))
                           year)))
     else
       print ("---ERROR: cannot process insurance_id: " ++ insurance_id)%string ;;;
       raise (NameError "pv_factors")) ;;
  let present_value := pysum (binop nmul cfs pv_factors) in
  ret (round present_value (rounding self)).

Definition ay_avg (age_insured : Z) (sex_insured : string) (intrest : rate)
    (insurance_type : string) : M num :=
  cf_ay_avg <- lift (cf_ay_avg age_insured sex_insured (PStr insurance_type)
                       no_kwargs) ;;
  pv {| cf_insurance_id := Some "OPLL"; cf_payments := cf_payments cf_ay_avg;
        cf_age := None; cf_pension_age := None |} intrest.

(** ** The lookup table of the undefined-partner product *)

Definition partner_factor (gender : string) : result num :=
  rbind (adjust_get self gender "partner") (fun adj =>
    Ok (nmul (nmul (fnett adj) (fcorr adj)) (fOTS adj))).

Definition partner_alpha1 (gender : string) : result Z :=
  rbind (adjust_get self gender "partner") (fun adj => Ok (CX1 adj)).

Fixpoint zip_rows (keys : list (string * Z)) (ay hxa : list num)
    (a1 : list Z) (fac : list num) : lookup_table :=
  match keys, ay, hxa, a1, fac with
  | (g, a) :: keys', y :: ay', h :: hxa', c :: a1', f :: fac' =>
      {| lr_gender := g; lr_age := a; lr_ay_avg := y; lr_hx_avg := h;
         lr_alpha1 := c; lr_factor := f; lr_cf := nmul (nmul y h) f |}
      :: zip_rows keys' ay' hxa' a1' fac'
  | _, _, _, _, _ => []
  end.

(** The columns are filled one after the other, each over all rows. *)
Definition create_lookup_table (intrest : rate) : M lookup_table :=
  emit (Called_create_lookup_table intrest) ;;;
  let n := Z.to_nat (UPAGE - LOWAGE) in
  let keys := combine (repeat MALE n ++ repeat FEMALE n)
                      (range LOWAGE UPAGE ++ range LOWAGE UPAGE) in
  ay <- mapM (fun k => ay_avg (snd k) (fst k) intrest "partner") keys ;;
  hxa <- lift (rmapM (fun k => hx_avg_at (fst k) (snd k)) keys) ;;
  a1 <- lift (rmapM (fun k => partner_alpha1 (fst k)) keys) ;;
  fac <- lift (rmapM (fun k => partner_factor (fst k)) keys) ;;
  ret (zip_rows keys ay hxa a1 fac).

(** [lookup.ix[sex]]: the rows of one gender. *)
Definition lookup_ix_sex (l : lookup_table) (sex : string) : result lookup_table :=
  match filter (fun r => String.eqb (lr_gender r) sex) l with
  | [] => Raise (KeyError (KStr sex))
  | rows => Ok rows
  end.

(** [.ix[a:b]]: a label slice, both ends included. *)
Definition lookup_slice (l : lookup_table) (a b : Z) : lookup_table :=
  filter (fun r => (a <=? lr_age r) && (lr_age r <=? b)) l.

(** [lookup['alpha1'].loc[(sex, age)]] *)
Definition lookup_alpha1 (l : lookup_table) (sex : string) (age : Z) : result Z :=
  match find (fun r => String.eqb (lr_gender r) sex && Z.eqb (lr_age r) age) l with
  | Some r => Ok (lr_alpha1 r)
  | None => Raise (KeyError (KInt age))
  end.

(** ** The undefined-partner product *)

Definition msg_default_intrest : string :=
  "Undefined partner cashflows require intrest -- defaults intrest = 3pct".
Definition msg_default_ukv : string :=
  "Undefined partner cashflows require UKV -- defaults hx_pd = 1".

(** [self.ukv.ix[(sex_insured, pension_age, kwargs['intrest'])].values[0]] *)
Definition ukv_lookup (sex_insured : string) (pension_age : Z) (kw : kwargs)
  : result num :=
  match ukv self with
  | None => Raise (AttributeError "'NoneType' object has no attribute 'ix'")
  | Some tbl =>
      match kw_intrest kw with
      | None => Raise (KeyError (KStr "intrest"))
      | Some None => Raise (KeyError (KStr "None"))
      | Some (Some (Curve _)) => Raise (TypeError "unhashable type: 'list'")
      | Some (Some (Flat q)) =>
          match find (fun e => String.eqb (fst (fst (fst e))) sex_insured &&
                               Z.eqb (snd (fst (fst e))) pension_age &&
                               Qeq_bool (snd (fst e)) q) tbl with
          | Some e => Ok (snd e)
          | None => Raise (KeyError (KInt pension_age))
          end
      end
  end.

(** Lines 280-285: the interest assumption, 3 per cent when the keyword is
    absent or [None]. *)
Definition intrest_or_default (kw : kwargs) : M rate :=
  match kw_intrest kw with
  | Some (Some r) => ret r
  | _ => print msg_default_intrest ;;; ret (Flat (3 # 1))
  end.

(** Lines 287-299: the exchange factor at the pension age. *)
Definition hx_at_pensionage (sex_insured : string) (pension_age : Z)
    (kw : kwargs) : M num :=
  let hx_pd := match kw_hx_pd kw with Some v => v | None => None end in
  match hx_pd with
  | None => ret (of_Z 1)
  | Some h =>
      if String.eqb h "one" then ret (of_Z 1)
      else if String.eqb h "ukv" then
        match ukv_lookup sex_insured pension_age kw with
        | Ok v => ret v
        | Raise _ => print msg_default_ukv ;;; ret (of_Z 1)
        end
      else
        lift (rbind (by_sex_get (hx self) sex_insured)
                    (fun tbl => ix tbl pension_age))
  end.

(** Lines 304-310: the single-slot cache of the lookup table. *)
Definition cached_lookup (intrest : rate) : M lookup_table :=
  cached <- get self_intrest ;;
  if rate_eq_attr intrest cached then
    l <- get self_lookup ;;
    match l with
    | Some l => ret l
    | None => raise (AttributeError "'NoneType' object has no attribute 'ix'")
    end
  else
    l <- create_lookup_table intrest ;;
    set_lookup l ;;;
    set_intrest intrest ;;;
    ret l.

(** Lines 312-336: the payments up to the pension age from the lookup
    table, the payments after it from the defined-partner product, one
    after the other on the index 0, 1, ... *)
Definition undefined_partner_payments (lookup : lookup_table)
    (hx_at_pensionage : num) (age_insured : Z) (sex_insured : string)
    (pension_age : Z) : result cashflow :=
  (rows <- lookup_ix_sex lookup sex_insured ;;
   let cf_till_pension_age := lookup_slice rows age_insured (pension_age - 1) in
   let current_age := age_insured in
   nq_current_age <-
     rmapM (fun r => nqx (current_age + lr_alpha1 r) sex_insured
                         (lr_age r - current_age + 1))
           cf_till_pension_age ;;
   let cf_till_pension_age :=
     map (fun p => nmul (lr_cf (fst p)) (snd p))
         (combine cf_till_pension_age nq_current_age) in
   a1 <- lookup_alpha1 lookup sex_insured age_insured ;;
   prob <- npx (age_insured + a1) sex_insured (pension_age - age_insured) ;;
   cf_defined_partner <-
     cf_defined_partner pension_age sex_insured pension_age no_kwargs ;;
   let cf_after_pension_age :=
     map (fun x => nmul (nmul hx_at_pensionage prob) x)
         (values (cf_payments cf_defined_partner)) in
   Ok {| cf_insurance_id := None;
         cf_payments := Series (cf_till_pension_age ++ cf_after_pension_age);
         cf_age := Some age_insured;
         cf_pension_age := Some pension_age |})%result.

Definition cf_undefined_partner (age_insured : Z) (sex_insured : string)
    (pension_age : Z) (kw : kwargs) : M cashflow :=
  (if sex_in_MF sex_insured then ret tt else raise (AssertionError sex_msg)) ;;;
  intrest <- intrest_or_default kw ;;
  hx_at <- hx_at_pensionage sex_insured pension_age kw ;;
  adj <- lift (adjust_get self sex_insured "partner") ;;
  lookup <- cached_lookup intrest ;;
  lift (undefined_partner_payments lookup hx_at age_insured sex_insured
          pension_age).

(** ** Dispatch on the product identifier *)

(** Modelled from the spec: [merge_two_dicts] of [utils], which is not
    among the sources: the keys of the second dict are added to a copy of
    the first and win where both have one. *)
Definition merge_two_dicts (insurance_id : string) (out : cashflow) : cashflow :=
  {| cf_insurance_id :=
       match cf_insurance_id out with
       | Some i => Some i
       | None => Some insurance_id
       end;
     cf_payments := cf_payments out;
     cf_age := cf_age out;
     cf_pension_age := cf_pension_age out |}.

Definition with_hx_pd (kw : kwargs) (h : option string) : kwargs :=
  {| kw_intrest := kw_intrest kw; kw_hx_pd := Some h;
     kw_postnumerando := kw_postnumerando kw;
     kw_insurance_type := kw_insurance_type kw |}.

Definition switcher (insurance_id : string)
  : option ((Z -> string -> Z -> kwargs -> M cashflow) * option string) :=
  if String.eqb insurance_id "OPLL" then
    Some (fun a s p k => lift (cf_retirement_pension a s p k), None)
  else if String.eqb insurance_id "NPLL-B" then
    Some (fun a s p k => lift (cf_defined_partner a s p k), None)
  else if String.eqb insurance_id "NPLL-O" then
    Some (cf_undefined_partner, Some "non-exchangable")
  else if String.eqb insurance_id "NPLLRS" then
    Some (cf_undefined_partner, Some "one")
  else if String.eqb insurance_id "NPLLRU" then
    Some (cf_undefined_partner, Some "ukv")
  else if String.eqb insurance_id "NPTL-B" then
    Some (fun a s p k => lift (cf_defined_one_year_risk a s p k), None)
  else if String.eqb insurance_id "NPTL-O" then
    Some (fun a s p k => lift (cf_undefined_one_year_risk a s p k), None)
  else if String.eqb insurance_id "ay_avg" then
    Some (fun a s p k => lift (cf_ay_avg a s (PInt p) k), None)
  else None.

Definition cf (insurance_id : string) (age_insured : Z) (sex_insured : string)
    (pension_age : Z) (kw : kwargs) : M cashflow :=
  match switcher insurance_id with
  | None => raise (KeyError (KStr insurance_id))
  | Some (call, hx_pd) =>
      match kw_hx_pd kw with
      | Some _ =>
          raise (TypeError "got multiple values for keyword argument 'hx_pd'")
      | None =>
          emit (Called_cf insurance_id age_insured sex_insured) ;;;
          out <- call age_insured sex_insured pension_age (with_hx_pd kw hx_pd) ;;
          ret (merge_two_dicts insurance_id out)
      end
  end.

(** ** The factor pipeline *)

(** Modelled from the spec: [cartesian] of [utils], which is not among the
    sources: the full cross-product of all product identifiers, both sexes
    and the supported age range, one row per combination. *)
Definition cartesian : list (list (string * cell)) :=
  flat_map (fun id =>
    flat_map (fun sex =>
      map (fun a => [("insurance_id", CStr id); ("sex_insured", CStr sex);
                     ("age_insured", CInt a)])
          (range LOWAGE UPAGE))
      [MALE; FEMALE])
    INSURANCE_IDS.

Definition intrest_kwargs (intrest : rate) : kwargs :=
  {| kw_intrest := Some (Some intrest); kw_hx_pd := None;
     kw_postnumerando := None; kw_insurance_type := None |}.

Definition map_to_cf (pension_age : Z) (intrest : rate)
    (row : list (string * cell)) : M cell :=
  match row_get row "insurance_id", row_get row "age_insured",
        row_get row "sex_insured" with
  | Some (CStr id), Some (CInt a), Some (CStr sex) =>
      c <- cf id a sex pension_age (intrest_kwargs intrest) ;;
      ret (CCf c)
  | _, _, _ => raise (KeyError (KStr "insurance_id"))
  end.

Definition calculate_cashflows (pension_age : Z) (intrest : rate) : M nat :=
  let frame0 := {| findex := [];
                   fcolumns := ["insurance_id"; "sex_insured"; "age_insured"];
                   frows := cartesian |} in
  df <- alloc frame0 ;;
  col <- mapM (map_to_cf pension_age intrest) (frows frame0) ;;
  store df (set_column "cf" col frame0) ;;;
  set_intrest intrest ;;;
  set_pension_age pension_age ;;;
  set_cfs df ;;;
  ret df.

(** [pension_age == self.pension_age], where the attribute starts as [None]. *)
Definition Z_eq_attr (a : Z) (cached : option Z) : bool :=
  match cached with
  | Some b => Z.eqb a b
  | None => false
  end.

Definition row_pv (f : frame) (intrest : rate) (row : list (string * cell))
  : M cell :=
  c <- lift (row_ix f row "cf") ;;
  match c with
  | CCf c => x <- pv c intrest ;; ret (CNum x)
  | _ => raise (TypeError "'cf' is not a cash-flow record")
  end.

(** Lines 519-523: the cached table of cash flows itself on a cache hit, a
    deep copy of a freshly computed one otherwise. *)
Definition cashflows_for_factors (intrest : rate) (pension_age : Z) : M nat :=
  cached_intrest <- get self_intrest ;;
  cached_pension_age <- get self_pension_age ;;
  if rate_eq_attr intrest cached_intrest &&
     Z_eq_attr pension_age cached_pension_age
  then
    c <- get self_cfs ;;
    match c with
    | Some r => ret r
    | None =>
        raise (AttributeError "'NoneType' object has no attribute 'apply'")
    end
  else
    r <- calculate_cashflows pension_age intrest ;;
    set_cfs r ;;;
    f <- deref r ;;
    alloc f.

(** Lines 524-528: the present value per row, then the index and the drop
    of the cash flows, all on the object [factors] refers to. *)
Definition value_in_place (factors : nat) (intrest : rate) : M nat :=
  f <- deref factors ;;
  tar <- mapM (row_pv f intrest) (frows f) ;;
  store factors (set_column "tar" tar f) ;;;
  f <- deref factors ;;
  f <- lift (set_index ["insurance_id"; "sex_insured"; "age_insured"] f) ;;
  store factors f ;;;
  f <- lift (drop_column "cf" f) ;;
  store factors f ;;;
  set_factors factors ;;;
  ret factors.

Definition calculate_factors (intrest : rate) (pension_age : Z) : M nat :=
  factors <- cashflows_for_factors intrest pension_age ;;
  value_in_place factors intrest.

End Engine.

(** ** Vocabulary of the properties *)

Definition is_Ok {A : Type} (r : result A) : bool :=
  match r with
  | Ok _ => true
  | Raise _ => false
  end.

(** The error the spec calls InvalidSexError: the assertion on the sex. *)
Definition InvalidSexError : exn := AssertionError sex_msg.

Definition is_print (e : event) : bool :=
  match e with
  | Printed _ => true
  | _ => false
  end.

Definition is_rebuild (e : event) : bool :=
  match e with
  | Called_create_lookup_table _ => true
  | _ => false
  end.

Definition is_cf_call (e : event) : bool :=
  match e with
  | Called_cf _ _ _ => true
  | _ => false
  end.

(** How often [create_lookup_table] has been entered. *)
Definition rebuilds (st : state) : nat :=
  List.length (filter is_rebuild (trace st)).

(** The generator invocations so far. *)
Definition cf_calls (st : state) : list event :=
  filter is_cf_call (trace st).

(** [st'] differs from [st] at most in [self.yield_curve] and in lines
    printed. *)
Record quiet (st st' : state) : Prop := {
  q_pension_age : self_pension_age st' = self_pension_age st;
  q_intrest : self_intrest st' = self_intrest st;
  q_lookup : self_lookup st' = self_lookup st;
  q_cfs : self_cfs st' = self_cfs st;
  q_factors : self_factors st' = self_factors st;
  q_heap : heap st' = heap st;
  q_trace : exists tr, trace st' = trace st ++ tr /\ forallb is_print tr = true
}.

(** A computation is tame when its result does not depend on the state and
    its effect is quiet. *)
Definition tame {A : Type} (m : M A) : Prop :=
  forall st, fst (m st) = fst (m fresh) /\ quiet st (snd (m st)).

(** A computation that leaves every DataFrame object as it is. *)
Definition keeps_heap {A : Type} (m : M A) : Prop :=
  forall st, heap (snd (m st)) = heap st.

(** The interest assumption a call of [cf_undefined_partner] works with. *)
Definition used_intrest (kw : kwargs) : rate :=
  match kw_intrest kw with
  | Some (Some r) => r
  | _ => Flat (3 # 1)
  end.

Definition emitted (e : event) (st : state) : state := snd (emit e st).

Definition with_intrest (kw : kwargs) (r : rate) : kwargs :=
  {| kw_intrest := Some (Some r); kw_hx_pd := kw_hx_pd kw;
     kw_postnumerando := kw_postnumerando kw;
     kw_insurance_type := kw_insurance_type kw |}.

(** [n] interests that alternate between [a] and [b], starting with [a]. *)
Fixpoint alternate (a b : rate) (n : nat) : list rate :=
  match n with
  | O => []
  | S k => a :: alternate b a k
  end.

(** The number of calls in a sequence whose interest differs from the key
    the single slot holds when the call is made. *)
Fixpoint misses (cached : option rate) (rs : list rate) : nat :=
  match rs with
  | [] => O
  | r :: tl =>
      if rate_eq_attr r cached then misses cached tl
      else S (misses (Some r) tl)
  end.

Fixpoint map2 (f : num -> num -> num) (xs ys : list num) : list num :=
  match xs, ys with
  | x :: xs', y :: ys' => f x y :: map2 f xs' ys'
  | _, _ => []
  end.

Open Scope R_scope.

(** The timing of the payment of year [t] when [N] years remain until the
    pension age: half a year late up to and including year [N]. *)
Definition payment_time (N t : Z) : R :=
  if (t <=? N)%Z then IZR t + 1 / 2 else IZR t.

(** [(1 + r/100) ^ (- y)] for a rate of [r] per cent. *)
Definition discount_factor (r : Q) (y : R) : R :=
  Rpower (1 + Q2R r / 100) (- y).

(** The sum of the payments of the years [t], [t+1], ..., each times its
    discount factor. *)
Fixpoint discounted_sum (r : Q) (N t : Z) (xs : list R) : R :=
  match xs with
  | [] => 0
  | x :: tl =>
      x * discount_factor r (payment_time N t) + discounted_sum r N (t + 1) tl
  end.

Close Scope R_scope.

Definition is_undefined_partner_id (id : string) : bool :=
  mem_string id ["NPLL-O"; "NPLLRS"; "NPLLRU"].

Definition factor_keys : list string :=
  ["insurance_id"; "sex_insured"; "age_insured"].

(** What lines 524 to 526 make of a frame, given its column of present
    values. *)
Definition valued (f : frame) (tar : list cell) : result frame :=
  rbind (set_index factor_keys (set_column "tar" tar f)) (drop_column "cf").

Definition cache_hit (intrest : rate) (pension_age : Z) (st : state) : bool :=
  rate_eq_attr intrest (self_intrest st) &&
  Z_eq_attr pension_age (self_pension_age st).

(** The index of the lookup table: both sexes, every lookup age. *)
Definition lookup_keys (LOWAGE UPAGE : Z) : list (string * Z) :=
  combine (repeat MALE (Z.to_nat (UPAGE - LOWAGE)) ++
           repeat FEMALE (Z.to_nat (UPAGE - LOWAGE)))
          (range LOWAGE UPAGE ++ range LOWAGE UPAGE).

Definition other_sex (sex : string) : string :=
  if String.eqb sex MALE then FEMALE else MALE.

Definition sign_of (sex : string) : Z :=
  if String.eqb sex MALE then 1 else -1.

Section Vocabulary.

Variable MAXAGE : Z.
Variable LOWAGE : Z.
Variable UPAGE : Z.
Variable prae_to_continuous : series -> series.
Variable round : num -> Z -> num.
Variable self : LifeTable.

(** The lowest age of the tables and the partner adjustments of the two
    sexes. *)
Variable lo : Z.
Variable adj_m : adjustment.
Variable adj_f : adjustment.

(** The life table of one sex. *)
Definition lx_of (sex : string) : series :=
  if String.eqb sex MALE then for_male (lx self) else for_female (lx self).

Definition hx_of (sex : string) : series :=
  if String.eqb sex MALE then for_male (hx self) else for_female (hx self).

Definition partner_adj (sex : string) : adjustment :=
  if String.eqb sex MALE then adj_m else adj_f.

(** The age of the beneficiary of an insured person. *)
Definition beneficiary_age (sex : string) (age : Z) : Z :=
  age - sign_of sex * delta self + CX3 (partner_adj (other_sex sex)).

(** The tariff fits its tables: the life and hazard tables hold every age
    from [lo] to [MAXAGE], both sexes have partner adjustments, and for
    every lookup age the ages read by [create_lookup_table] are in the
    tables. *)
Record tariff_fits : Prop := {
  fits_lo : lo <= MAXAGE;
  fits_lx : forall sex a, sex_in_MF sex = true -> lo <= a <= MAXAGE ->
                          In a (labels (lx_of sex));
  fits_hx : forall sex a, sex_in_MF sex = true -> lo <= a <= MAXAGE ->
                          In a (labels (hx_of sex));
  fits_adj : forall sex, sex_in_MF sex = true ->
                         adjust_get self sex "partner" = Ok (partner_adj sex);
  fits_low : lo <= LOWAGE;
  fits_up : UPAGE <= MAXAGE;
  fits_beneficiary : forall sex a, sex_in_MF sex = true ->
                       LOWAGE <= a < UPAGE ->
                       lo <= beneficiary_age sex a /\
                       beneficiary_age sex a + 1 <= MAXAGE
}.

(** The call fits the tariff: a lookup age, and the ages that the call
    reads at the pension age are in the tables. *)
Record call_fits (age : Z) (sex : string) (pension_age : Z) : Prop := {
  fits_sex : sex_in_MF sex = true;
  fits_age : LOWAGE <= age < UPAGE;
  fits_age_cx1 : lo <= age + CX1 (partner_adj sex);
  fits_pension_age : lo <= pension_age <= MAXAGE;
  fits_pension_cx1 : lo <= pension_age + CX1 (partner_adj sex) <= MAXAGE;
  fits_pension_cx2 : lo <= pension_age + CX2 (partner_adj sex) <= MAXAGE;
  fits_pension_beneficiary : lo <= beneficiary_age sex pension_age <= MAXAGE
}.

(** A lookup table fits when its rows carry the CX1 of the partner
    adjustments and there is a row for both sexes at every lookup age. *)
Definition lookup_fits (l : lookup_table) : Prop :=
  (forall r, In r l -> sex_in_MF (lr_gender r) = true ->
             lr_alpha1 r = CX1 (partner_adj (lr_gender r))) /\
  (forall sex a, sex_in_MF sex = true -> LOWAGE <= a < UPAGE ->
                 exists r, In r l /\ lr_gender r = sex /\ lr_age r = a).

(** The cached table, if the call is going to use it, fits. *)
Definition cache_fits (intrest : rate) (st : state) : Prop :=
  rate_eq_attr intrest (self_intrest st) = true ->
  exists l, self_lookup st = Some l /\ lookup_fits l.

(** The table [create_lookup_table] returns for an interest assumption. *)
Definition lookup_value (intrest : rate) : result lookup_table :=
  fst (create_lookup_table LOWAGE UPAGE prae_to_continuous round self
         intrest fresh).

(** One call per interest of the list, otherwise with the same arguments. *)
Definition undefined_partner_calls (age : Z) (sex : string) (pension_age : Z)
    (kw : kwargs) (rs : list rate) : M (list cashflow) :=
  mapM (fun r => cf_undefined_partner MAXAGE LOWAGE UPAGE prae_to_continuous
                   round self age sex pension_age (with_intrest kw r)) rs.

(** The column of present values of a frame; it does not depend on the
    state. *)
Definition tar_column (f : frame) (intrest : rate) : result (list cell) :=
  fst (mapM (row_pv round self f intrest) (frows f) fresh).

End Vocabulary.

Arguments fits_lo {MAXAGE LOWAGE UPAGE self lo adj_m adj_f} _.
Arguments fits_lx {MAXAGE LOWAGE UPAGE self lo adj_m adj_f} _.
Arguments fits_hx {MAXAGE LOWAGE UPAGE self lo adj_m adj_f} _.
Arguments fits_adj {MAXAGE LOWAGE UPAGE self lo adj_m adj_f} _.
Arguments fits_low {MAXAGE LOWAGE UPAGE self lo adj_m adj_f} _.
Arguments fits_up {MAXAGE LOWAGE UPAGE self lo adj_m adj_f} _.
Arguments fits_beneficiary {MAXAGE LOWAGE UPAGE self lo adj_m adj_f} _.
Arguments fits_sex {MAXAGE LOWAGE UPAGE self lo adj_m adj_f}
  age sex pension_age _.
Arguments fits_age {MAXAGE LOWAGE UPAGE self lo adj_m adj_f}
  age sex pension_age _.
Arguments fits_age_cx1 {MAXAGE LOWAGE UPAGE self lo adj_m adj_f}
  age sex pension_age _.
Arguments fits_pension_age {MAXAGE LOWAGE UPAGE self lo adj_m adj_f}
  age sex pension_age _.
Arguments fits_pension_cx1 {MAXAGE LOWAGE UPAGE self lo adj_m adj_f}
  age sex pension_age _.
Arguments fits_pension_cx2 {MAXAGE LOWAGE UPAGE self lo adj_m adj_f}
  age sex pension_age _.
Arguments fits_pension_beneficiary {MAXAGE LOWAGE UPAGE self lo adj_m adj_f}
  age sex pension_age _.

(** ** Vocabulary of the laws of the engine *)

(** The survivors a life table holds at an age, as a real; 0 where the
    table has no number. *)
Definition survivors (tbl : series) (a : Z) : R :=
  match lookup_label tbl a with
  | Some (Some x) => x
  | _ => 0%R
  end.

(** The table holds a number, not NaN, at every age from [lo] to [hi]. *)
Definition finite_on (tbl : series) (lo hi : Z) : Prop :=
  forall a, lo <= a <= hi -> exists x, lookup_label tbl a = Some (fin x).

(** The payment of year [t] of an annuity on the survivors [xs] of the ages
    0, 1, ... for a person of age [age] and a deferral of [defer] years:
    nothing during the deferral and beyond the last age of the table,
    otherwise the survival from [age] to [age + t]. *)
Definition annuity_payment (xs : list R) (age defer t : Z) : R :=
  if (t <? defer) || (Z.of_nat (List.length xs) <=? age + t)
  then 0%R
  else (nth (Z.to_nat (age + t)) xs 0 / nth (Z.to_nat age) xs 0)%R.

Definition msg_deferral : string :=
  "Error: deferral period exceeds number of table rows.".

(** The keys of the dict [switcher] of [cf]. *)
Definition product_ids : list string :=
  ["OPLL"; "NPLL-B"; "NPLL-O"; "NPLLRS"; "NPLLRU"; "NPTL-B"; "NPTL-O";
   "ay_avg"].

Definition msg_multiple_hx_pd : string :=
  "got multiple values for keyword argument 'hx_pd'".

Open Scope R_scope.

(** The sum of the payments of the years [t], [t+1], ..., the payment of
    year [y] discounted over the time [time y]. *)
Fixpoint present_value (r : Q) (time : Z -> R) (t : Z) (xs : list R) : R :=
  match xs with
  | [] => 0
  | x :: tl => x * discount_factor r (time t) + present_value r time (t + 1) tl
  end.

(** Payments at the start of the year, and in the middle of it. *)
Definition start_of_year (y : Z) : R := IZR y.
Definition mid_year (y : Z) : R := IZR y + 1 / 2.

(** The sum of the payments, not discounted. *)
Definition total (xs : list R) : R := fold_right Rplus 0 xs.

Close Scope R_scope.

Definition msg_unrecognised (id : string) : string :=
  ("---ERROR: cannot process insurance_id: " ++ id)%string.

(** The tariff combinations in the order of the rows of the factor
    pipeline: product, sex, age. *)
Definition tariff_keys (ids : list string) (LOWAGE UPAGE : Z)
  : list (string * string * Z) :=
  flat_map (fun id =>
    flat_map (fun sex => map (fun a => (id, sex, a)) (range LOWAGE UPAGE))
             [MALE; FEMALE])
    ids.

(** The three key cells of the row of a combination. *)
Definition key_cells (k : string * string * Z) : list (string * cell) :=
  [("insurance_id", CStr (fst (fst k))); ("sex_insured", CStr (snd (fst k)));
   ("age_insured", CInt (snd k))].

(** The generator call that the row of a combination triggers. *)
Definition call_of (k : string * string * Z) : event :=
  Called_cf (fst (fst k)) (snd k) (snd (fst k)).

Definition cashflow_columns : list string :=
  ["insurance_id"; "sex_insured"; "age_insured"; "cf"].

(** The cached lookup table, if there is one, has the rows that
    [create_lookup_table] makes: one per sex and lookup age. *)
Definition lookup_keyed (LOWAGE UPAGE : Z) (st : state) : Prop :=
  forall l, self_lookup st = Some l ->
            map (fun r => (lr_gender r, lr_age r)) l = lookup_keys LOWAGE UPAGE.

Definition msg_no_cashflows : string :=
  "'NoneType' object has no attribute 'apply'".

(** The rows of a table of the pipeline: per combination its key cells and
    one more cell, under [name]. *)
Definition keyed_rows (name : string) (keys : list (string * string * Z))
    (cells : list cell) : list (list (string * cell)) :=
  map (fun kc => key_cells (fst kc) ++ [(name, snd kc)]) (combine keys cells).

(** The table of the combinations before its column [cf] is filled. *)
Definition keys_table (keys : list (string * string * Z)) : frame :=
  {| findex := []; fcolumns := factor_keys; frows := map key_cells keys |}.

(** The table of cash flows that holds the records [cs] of the
    combinations. *)
Definition cashflow_table (keys : list (string * string * Z))
    (cs : list cashflow) : frame :=
  {| findex := []; fcolumns := cashflow_columns;
     frows := keyed_rows "cf" keys (map CCf cs) |}.

(** The factor matrix that holds the present values [xs] of the
    combinations. *)
Definition factor_matrix (keys : list (string * string * Z))
    (xs : list num) : frame :=
  {| findex := factor_keys; fcolumns := ["tar"];
     frows := keyed_rows "tar" keys (map CNum xs) |}.

(** No rate of the interest assumption is -100 per cent, the rate at which
    [1. / (1 + r / 100.)] divides by zero. *)
Definition discountable (intrest : rate) : bool :=
  match intrest with
  | Flat q => negb (Qeq_bool q (-100 # 1))
  | Curve l => forallb (fun q => negb (Qeq_bool q (-100 # 1))) l
  end.

Section PipelineVocabulary.

Variable MAXAGE : Z.
Variable LOWAGE : Z.
Variable UPAGE : Z.
Variable prae_to_continuous : series -> series.
Variable round : num -> Z -> num.
Variable self : LifeTable.

(** The call of [cf] that the row of a combination makes, lines 500 to
    505. *)
Definition cf_of_key (pension_age : Z) (intrest : rate)
    (k : string * string * Z) : M cashflow :=
  cf MAXAGE LOWAGE UPAGE prae_to_continuous round self
     (fst (fst k)) (snd k) (snd (fst k)) pension_age (intrest_kwargs intrest).

End PipelineVocabulary.

(** ** A small tariff for concrete runs

    Ages 0 to 6, lookup ages 1 and 2, an age gap of one year, adjustments
    for the partner and the retirement products only and no exchange table;
    the helper [prae_to_continuous] and the builtin [round] are taken as
    the identity on this tariff. *)

Module Tariff.

Definition lx_col (k : Z) : series :=
  [(0, of_Z (1000 + k)); (1, of_Z (990 + k)); (2, of_Z (970 + k));
   (3, of_Z (940 + k)); (4, of_Z (900 + k)); (5, of_Z (700 + k));
   (6, of_Z (300 + k))].

Definition hx_col : series :=
  [(0, of_Z 1); (1, of_Z 2); (2, of_Z 3); (3, of_Z 4); (4, of_Z 5);
   (5, of_Z 6); (6, of_Z 7)].

Definition adj (c3 : Z) : adjustment :=
  {| CX1 := 0; CX2 := 1; CX3 := c3;
     fnett := of_Z 1; fcorr := of_Z 1; fOTS := of_Z 1 |}.

Definition table : LifeTable :=
  {| delta := 1; rounding := 2;
     lx := BySex (lx_col 0) (lx_col 5);
     hx := BySex hx_col hx_col;
     adjust := [("M", [("partner", adj 0); ("retire", adj 0)]);
                ("F", [("partner", adj 0); ("retire", adj 0)])];
     ukv := None |}.

Definition maxage : Z := 6.
Definition lowage : Z := 1.
Definition upage : Z := 3.
Definition ids : list string :=
  ["OPLL"; "NPLL-B"; "NPLL-O"; "NPLLRS"; "NPLLRU"; "NPTL-B"; "NPTL-O"].
Definition prae (s : series) : series := s.
Definition round_id (x : num) (ndigits : Z) : num := x.

Definition r3 : rate := Flat (3 # 1).
Definition r4 : rate := Flat (4 # 1).

(** The keywords of product NPLLRU at 3 per cent. *)
Definition ukv_kwargs : kwargs :=
  {| kw_intrest := Some (Some r3); kw_hx_pd := Some (Some "ukv");
     kw_postnumerando := None; kw_insurance_type := None |}.

Definition undefined_partner : Z -> string -> Z -> kwargs -> M cashflow :=
  cf_undefined_partner maxage lowage upage prae round_id table.

Definition factors : rate -> Z -> M nat :=
  calculate_factors maxage lowage upage ids prae round_id table.

(** The state after a first factor matrix at 3 per cent and pension age 3,
    and after a second one with the same key. *)
Definition after_first_factors : state := snd (factors r3 3 fresh).
Definition after_second_factors : state := snd (factors r3 3 after_first_factors).

(** The same tariff with adjustments of their own for the risk premiums. *)
Definition table_with_risk : LifeTable :=
  {| delta := 1; rounding := 2;
     lx := BySex (lx_col 0) (lx_col 5);
     hx := BySex hx_col hx_col;
     adjust := [("M", [("partner", adj 0); ("retire", adj 0); ("risk", adj 2)]);
                ("F", [("partner", adj 0); ("retire", adj 0); ("risk", adj 2)])];
     ukv := None |}.

(** The state after the table of cash flows at 3 per cent and pension age
    3. *)
Definition after_cashflows : state :=
  snd (calculate_cashflows maxage lowage upage ids prae round_id table 3 r3
         fresh).

(** The pipeline and the dispatcher on this tariff. *)
Definition cashflows : Z -> rate -> M nat :=
  calculate_cashflows maxage lowage upage ids prae round_id table.

Definition lookup : rate -> M lookup_table :=
  create_lookup_table lowage upage prae round_id table.

Definition product : string -> Z -> string -> Z -> kwargs -> M cashflow :=
  cf maxage lowage upage prae round_id table.

End Tariff.

(** ** Properties *)

Lemma lookup_label_In (s : series) (l : Z) :
  In l (labels s) -> exists v, lookup_label s l = Some v.
Proof.
  induction s as [|[k v] tl IH]; simpl; intros H.
  - contradiction.
  - destruct (Z.eqb_spec k l) as [->|Hne].
    + now exists v.
    + destruct H as [H|H]; [congruence | auto].
Qed.

Lemma ix_In (s : series) (l : Z) :
  In l (labels s) -> exists v, ix s l = Ok v.
Proof.
  intros H. destruct (lookup_label_In s l H) as [v Hv].
  exists v. unfold ix. now rewrite Hv.
Qed.

Lemma sex_in_MF_cases (sex : string) :
  sex_in_MF sex = true -> sex = MALE \/ sex = FEMALE.
Proof.
  unfold sex_in_MF. intros H. apply orb_true_iff in H.
  destruct H as [H|H]; apply String.eqb_eq in H; auto.
Qed.

Lemma by_sex_get_valid {A : Type} (d : by_sex A) (sex : string) :
  sex_in_MF sex = true ->
  by_sex_get d sex =
    Ok (if String.eqb sex MALE then for_male d else for_female d).
Proof.
  intros H. destruct (sex_in_MF_cases sex H) as [->| ->]; reflexivity.
Qed.

Lemma by_sex_get_invalid {A : Type} (d : by_sex A) (sex : string) :
  sex_in_MF sex = false -> by_sex_get d sex = Raise (KeyError (KStr sex)).
Proof.
  unfold sex_in_MF, by_sex_get. intros H. apply orb_false_iff in H.
  destruct H as [H1 H2]. now rewrite H1, H2.
Qed.

Section Mortality.

Variable MAXAGE : Z.
Variable self : LifeTable.

Lemma npx_unfold (age : Z) (sex : string) (nyears : Z) :
  sex_in_MF sex = true ->
  npx MAXAGE self age sex nyears =
    rbind (ix (lx_of self sex) (Z.min (age + nyears) MAXAGE)) (fun a =>
    rbind (ix (lx_of self sex) (Z.min age MAXAGE)) (fun b => Ok (ndiv a b))).
Proof.
  intros H. unfold npx. rewrite (by_sex_get_valid _ _ H). reflexivity.
Qed.

(** C1.  On a life table that holds every age from its lowest age [lo] up
    to the maximum age, for either sex, an age of at least [lo] and
    [nyears >= 0], [npx] returns lx[min(age+nyears, MAXAGE)] divided by
    lx[min(age, MAXAGE)], both read from the table of that sex: ages above
    the maximum are clamped to it in the numerator and in the denominator. *)
Theorem npx_clamped_quotient (lo age : Z) (sex : string) (nyears : Z) :
  sex_in_MF sex = true ->
  (forall a, lo <= a <= MAXAGE -> In a (labels (lx_of self sex))) ->
  lo <= age -> lo <= MAXAGE -> 0 <= nyears ->
  exists a b,
    lookup_label (lx_of self sex) (Z.min (age + nyears) MAXAGE) = Some a /\
    lookup_label (lx_of self sex) (Z.min age MAXAGE) = Some b /\
    npx MAXAGE self age sex nyears = Ok (ndiv a b).
Proof.
  intros Hsex Hcov Hage Hlo Hn.
  destruct (lookup_label_In (lx_of self sex) (Z.min (age + nyears) MAXAGE))
    as [a Ha]; [apply Hcov; lia|].
  destruct (lookup_label_In (lx_of self sex) (Z.min age MAXAGE))
    as [b Hb]; [apply Hcov; lia|].
  exists a, b. repeat split; trivial.
  rewrite npx_unfold by assumption. unfold ix. now rewrite Ha, Hb.
Qed.

(** Above the maximum age the probability no longer depends on the age or
    on the horizon. *)
Lemma npx_flat_extrapolation (age : Z) (sex : string) (nyears : Z) :
  MAXAGE <= age -> 0 <= nyears ->
  npx MAXAGE self age sex nyears = npx MAXAGE self MAXAGE sex 0.
Proof.
  intros Ha Hn. unfold npx.
  replace (Z.min (age + nyears) MAXAGE) with MAXAGE by lia.
  replace (Z.min age MAXAGE) with MAXAGE by lia.
  replace (Z.min (MAXAGE + 0) MAXAGE) with MAXAGE by lia.
  replace (Z.min MAXAGE MAXAGE) with MAXAGE by lia.
  reflexivity.
Qed.

End Mortality.

Lemma npx_clamped_quotient_witness :
  exists a b,
    lookup_label (lx_of Tariff.table "F") (Z.min (5 + 3) Tariff.maxage) = Some a /\
    lookup_label (lx_of Tariff.table "F") (Z.min 5 Tariff.maxage) = Some b /\
    npx Tariff.maxage Tariff.table 5 "F" 3 = Ok (ndiv a b).
Proof.
  apply (npx_clamped_quotient Tariff.maxage Tariff.table 0 5 "F" 3).
  - reflexivity.
  - intros a Ha. unfold Tariff.maxage in Ha. simpl.
    assert (a = 0 \/ a = 1 \/ a = 2 \/ a = 3 \/ a = 4 \/ a = 5 \/ a = 6) by lia.
    intuition.
  - lia.
  - unfold Tariff.maxage; lia.
  - lia.
Defined.

(** Beyond the last age of the small tariff the survivors of age 6 are
    read: [npx(5, 'M', 3)] is lx[6] / lx[5]. *)
Example npx_clamps_on_the_tariff :
  npx Tariff.maxage Tariff.table 5 "M" 3 = Ok (fin (300 / 700)).
Proof. reflexivity. Qed.

(** A deferred annuity on a table of three ages, from age 1 with one year
    of deferral: nothing in year 0, lx[2] / lx[1] in year 1, and 0 where the
    shifted table has no value. *)
Example cf_annuity_on_three_ages :
  cf_annuity 1 [(0, of_Z 100); (1, of_Z 50); (2, of_Z 25)] 1
    = Ok [(0, fin (0 * 50 / 50)); (1, fin (1 * 25 / 50)); (2, of_Z 0)].
Proof. reflexivity. Qed.

(** The assertion of [cf_annuity]: the deferral must be shorter than the
    table. *)
Example cf_annuity_deferral_too_long :
  cf_annuity 1 [(0, of_Z 100); (1, of_Z 50); (2, of_Z 25)] 3
    = Raise (AssertionError
               "Error: deferral period exceeds number of table rows.").
Proof. reflexivity. Qed.

(** Two Series on different indexes align on the union of the labels. *)
Example binop_aligns_on_labels :
  binop nadd [(0, of_Z 1); (1, of_Z 2)] [(1, of_Z 10); (2, of_Z 20)]
    = [(0, NaN); (1, fin (2 + 10)); (2, NaN)].
Proof. reflexivity. Qed.

Section Validation.

Variable MAXAGE : Z.
Variable LOWAGE : Z.
Variable UPAGE : Z.
Variable prae_to_continuous : series -> series.
Variable round : num -> Z -> num.
Variable self : LifeTable.

(** The three generators that open with the assertion raise it. *)
Lemma cf_ay_avg_invalid_sex age sex pension_age kw :
  sex_in_MF sex = false ->
  cf_ay_avg prae_to_continuous self age sex pension_age kw
    = Raise InvalidSexError.
Proof. intros H. unfold cf_ay_avg. now rewrite H. Qed.

Lemma cf_defined_partner_invalid_sex age sex pension_age kw :
  sex_in_MF sex = false ->
  cf_defined_partner self age sex pension_age kw = Raise InvalidSexError.
Proof. intros H. unfold cf_defined_partner. now rewrite H. Qed.

Lemma cf_undefined_partner_invalid_sex age sex pension_age kw st :
  sex_in_MF sex = false ->
  cf_undefined_partner MAXAGE LOWAGE UPAGE prae_to_continuous round self
    age sex pension_age kw st = (Raise InvalidSexError, st).
Proof. intros H. unfold cf_undefined_partner, bind. now rewrite H. Qed.

(** The methods that read a table before any assertion fail in the dict
    access instead. *)
Lemma npx_invalid_sex age sex nyears :
  sex_in_MF sex = false ->
  npx MAXAGE self age sex nyears = Raise (KeyError (KStr sex)).
Proof. intros H. unfold npx. now rewrite by_sex_get_invalid. Qed.

Lemma cf_retirement_pension_invalid_sex age sex pension_age kw :
  sex_in_MF sex = false ->
  cf_retirement_pension MAXAGE prae_to_continuous self age sex pension_age kw
    = Raise (KeyError (KStr sex)).
Proof. intros H. unfold cf_retirement_pension. now rewrite by_sex_get_invalid. Qed.

Lemma cf_undefined_one_year_risk_invalid_sex age sex pension_age kw :
  sex_in_MF sex = false ->
  cf_undefined_one_year_risk MAXAGE prae_to_continuous self age sex
    pension_age kw = Raise (KeyError (KStr sex)).
Proof.
  intros H. unfold cf_undefined_one_year_risk, hx_avg_at.
  now rewrite by_sex_get_invalid.
Qed.

(** In [cf_defined_one_year_risk] the assertion comes after the first use
    of the sex as a key of [adjust]: it is only reached when [adjust] has an
    entry for the invalid sex. *)
Lemma cf_defined_one_year_risk_invalid_sex age sex pension_age kw :
  sex_in_MF sex = false ->
  cf_defined_one_year_risk MAXAGE prae_to_continuous self age sex
    pension_age kw =
  match adjust_get self sex "partner" with
  | Ok _ => Raise InvalidSexError
  | Raise e => Raise e
  end.
Proof.
  intros H. unfold cf_defined_one_year_risk.
  destruct (adjust_get self sex "partner"); simpl; [now rewrite H | reflexivity].
Qed.

(** C2.  With the sex ["X"], [npx], the retirement-pension generator and
    the undefined one-year-risk generator raise the [KeyError] of the dict
    access [self.lx["X"]] or [self.hx["X"]], not the assertion that the
    partner generators raise for the same argument. *)
Theorem invalid_sex_raises_KeyError (age pension_age nyears : Z) (kw : kwargs) :
  npx MAXAGE self age "X" nyears = Raise (KeyError (KStr "X")) /\
  cf_retirement_pension MAXAGE prae_to_continuous self age "X" pension_age kw
    = Raise (KeyError (KStr "X")) /\
  cf_undefined_one_year_risk MAXAGE prae_to_continuous self age "X"
    pension_age kw = Raise (KeyError (KStr "X")) /\
  cf_defined_partner self age "X" pension_age kw = Raise InvalidSexError /\
  KeyError (KStr "X") <> InvalidSexError.
Proof.
  split; [|split; [|split; [|split]]].
  - now apply npx_invalid_sex.
  - now apply cf_retirement_pension_invalid_sex.
  - now apply cf_undefined_one_year_risk_invalid_sex.
  - now apply cf_defined_partner_invalid_sex.
  - discriminate.
Qed.

(** C10.  [ay_avg] passes its [insurance_type] in the position of the
    unused [pension_age] of [cf_ay_avg] and no keyword, so its result and
    its effect are the same for every [insurance_type], and the cash flow
    it values is the one of the keyword [insurance_type='partner']: the
    beneficiary's CX3 comes from the partner adjustments. *)
Theorem ay_avg_ignores_insurance_type (age : Z) (sex : string) (intrest : rate)
    (insurance_type insurance_type' : string) (st : state) :
  ay_avg prae_to_continuous round self age sex intrest insurance_type st
    = ay_avg prae_to_continuous round self age sex intrest insurance_type' st /\
  ay_avg prae_to_continuous round self age sex intrest insurance_type st
    = bind (lift (cf_ay_avg prae_to_continuous self age sex PNone
                    {| kw_intrest := None; kw_hx_pd := None;
                       kw_postnumerando := None;
                       kw_insurance_type := Some "partner" |}))
           (fun c => pv round self
                       {| cf_insurance_id := Some "OPLL";
                          cf_payments := cf_payments c;
                          cf_age := None; cf_pension_age := None |} intrest)
           st.
Proof. split; reflexivity. Qed.

(** The keyword itself does select the adjustment set. *)
Lemma cf_ay_avg_reads_keyword age sex pension_age kw t :
  sex_in_MF sex = true ->
  kw_insurance_type kw = Some t ->
  adjust_get self (if String.eqb sex MALE then FEMALE else MALE) t
    = Raise (KeyError (KStr t)) ->
  cf_ay_avg prae_to_continuous self age sex pension_age kw
    = Raise (KeyError (KStr t)).
Proof.
  intros Hs Hk Ha. unfold cf_ay_avg. rewrite Hs, Hk. cbv zeta.
  now rewrite Ha.
Qed.

End Validation.

(** On the small tariff, which has no risk adjustments: the keyword
    [insurance_type='risk'] makes [cf_ay_avg] fail, the argument of [ay_avg]
    does not. *)
Example ay_avg_without_risk_adjustments :
  cf_ay_avg Tariff.prae Tariff.table 1 "M" PNone
    {| kw_intrest := None; kw_hx_pd := None; kw_postnumerando := None;
       kw_insurance_type := Some "risk" |} = Raise (KeyError (KStr "risk")) /\
  is_Ok (fst (ay_avg Tariff.prae Tariff.round_id Tariff.table 1 "M" Tariff.r3
                "risk" fresh)) = true.
Proof. split; vm_compute; reflexivity. Qed.

(** ** Effects of the stateful methods *)

Lemma quiet_refl st : quiet st st.
Proof.
  constructor; try reflexivity. exists []. now rewrite app_nil_r.
Qed.

Lemma quiet_trans st1 st2 st3 : quiet st1 st2 -> quiet st2 st3 -> quiet st1 st3.
Proof.
  intros [a1 b1 c1 d1 e1 f1 [t1 [g1 h1]]] [a2 b2 c2 d2 e2 f2 [t2 [g2 h2]]].
  constructor; try congruence.
  exists (t1 ++ t2). split.
  - now rewrite g2, g1, app_assoc.
  - now rewrite forallb_app, h1, h2.
Qed.

Lemma filter_prints_nil (p : event -> bool) tr :
  (forall e, is_print e = true -> p e = false) ->
  forallb is_print tr = true -> filter p tr = [].
Proof.
  intros Hp. induction tr as [|e tr IH]; simpl; intros H; trivial.
  apply andb_true_iff in H. destruct H as [He Htr].
  now rewrite (Hp e He), IH.
Qed.

Lemma quiet_rebuilds st st' : quiet st st' -> rebuilds st' = rebuilds st.
Proof.
  intros [_ _ _ _ _ _ [tr [Ht Hp]]]. unfold rebuilds.
  rewrite Ht, filter_app, (filter_prints_nil is_rebuild tr), app_nil_r; trivial.
  now intros [].
Qed.

Lemma quiet_cf_calls st st' : quiet st st' -> cf_calls st' = cf_calls st.
Proof.
  intros [_ _ _ _ _ _ [tr [Ht Hp]]]. unfold cf_calls.
  rewrite Ht, filter_app, (filter_prints_nil is_cf_call tr), app_nil_r; trivial.
  now intros [].
Qed.

Lemma tame_ret {A : Type} (a : A) : tame (ret a).
Proof. intros st. split; [reflexivity | apply quiet_refl]. Qed.

Lemma tame_raise {A : Type} (e : exn) : tame (@raise A e).
Proof. intros st. split; [reflexivity | apply quiet_refl]. Qed.

Lemma tame_lift {A : Type} (r : result A) : tame (lift r).
Proof. intros st. split; [reflexivity | apply quiet_refl]. Qed.

Lemma tame_require {A : Type} k (o : option A) : tame (require k o).
Proof. destruct o; [apply tame_ret | apply tame_raise]. Qed.

Lemma tame_print line : tame (print line).
Proof.
  intros st. split; [reflexivity|].
  constructor; try reflexivity. now exists [Printed line].
Qed.

Lemma tame_set_yield_curve s : tame (set_yield_curve s).
Proof.
  intros st. split; [reflexivity|].
  constructor; try reflexivity. exists []. simpl. now rewrite app_nil_r.
Qed.

Lemma tame_bind {A B : Type} (m : M A) (k : A -> M B) :
  tame m -> (forall a, tame (k a)) -> tame (bind m k).
Proof.
  intros Hm Hk st. unfold bind.
  destruct (Hm st) as [Hv Hq].
  destruct (m st) as [[a|e] st1] eqn:E1;
    destruct (m fresh) as [[a'|e'] st2] eqn:E2; simpl in *; try discriminate.
  - injection Hv as <-.
    destruct (Hk a st1) as [Hv1 Hq1]. destruct (Hk a st2) as [Hv2 _].
    split; [congruence | eapply quiet_trans; eauto].
  - injection Hv as <-. now split.
Qed.

Lemma tame_mapM {A B : Type} (f : A -> M B) (l : list A) :
  (forall x, tame (f x)) -> tame (mapM f l).
Proof.
  intros Hf. induction l as [|x tl IH]; simpl.
  - apply tame_ret.
  - apply tame_bind; [apply Hf | intros y].
    apply tame_bind; [apply IH | intros ys; apply tame_ret].
Qed.

Lemma bind_run {A B : Type} (m : M A) (k : A -> M B) (st : state) :
  bind m k st =
    match m st with
    | (Ok a, st1) => k a st1
    | (Raise e, st1) => (Raise e, st1)
    end.
Proof. reflexivity. Qed.

Ltac tame_step :=
  match goal with
  | |- tame (bind _ _) => apply tame_bind; [|intros ?]
  | |- tame (ret _) => apply tame_ret
  | |- tame (raise _) => apply tame_raise
  | |- tame (lift _) => apply tame_lift
  | |- tame (require _ _) => apply tame_require
  | |- tame (print _) => apply tame_print
  | |- tame (set_yield_curve _) => apply tame_set_yield_curve
  | |- tame (mapM _ _) => apply tame_mapM; intros ?
  | |- tame (if ?c then _ else _) => destruct c
  | |- tame (match ?c with _ => _ end) => destruct c
  end.

Section Effects.

Variable MAXAGE : Z.
Variable LOWAGE : Z.
Variable UPAGE : Z.
Variable INSURANCE_IDS : list string.
Variable prae_to_continuous : series -> series.
Variable round : num -> Z -> num.
Variable self : LifeTable.

Lemma tame_pv c intrest : tame (pv round self c intrest).
Proof. unfold pv. repeat tame_step. Qed.

Lemma tame_ay_avg age sex intrest t :
  tame (ay_avg prae_to_continuous round self age sex intrest t).
Proof. unfold ay_avg. tame_step; [tame_step | apply tame_pv]. Qed.

Lemma create_lookup_table_run intrest st :
  let run := create_lookup_table LOWAGE UPAGE prae_to_continuous round self
               intrest st in
  fst run = lookup_value LOWAGE UPAGE prae_to_continuous round self intrest /\
  quiet (emitted (Called_create_lookup_table intrest) st) (snd run).
Proof.
  set (keys := combine (repeat MALE (Z.to_nat (UPAGE - LOWAGE)) ++
                        repeat FEMALE (Z.to_nat (UPAGE - LOWAGE)))
                       (range LOWAGE UPAGE ++ range LOWAGE UPAGE)).
  set (body :=
    bind (mapM (fun k => ay_avg prae_to_continuous round self (snd k) (fst k)
                           intrest "partner") keys)
      (fun ay =>
    bind (lift (rmapM (fun k => hx_avg_at self (fst k) (snd k)) keys))
      (fun hxa =>
    bind (lift (rmapM (fun k => partner_alpha1 self (fst k)) keys))
      (fun a1 =>
    bind (lift (rmapM (fun k => partner_factor self (fst k)) keys))
      (fun fac => ret (zip_rows keys ay hxa a1 fac)))))).
  assert (Hbody : tame body).
  { unfold body. repeat tame_step. apply tame_ay_avg. }
  assert (Hrun : forall s,
    create_lookup_table LOWAGE UPAGE prae_to_continuous round self intrest s
      = body (emitted (Called_create_lookup_table intrest) s))
    by reflexivity.
  cbv zeta. unfold lookup_value. rewrite !Hrun.
  destruct (Hbody (emitted (Called_create_lookup_table intrest) st)) as [Hv Hq].
  destruct (Hbody (emitted (Called_create_lookup_table intrest) fresh)) as [Hv' _].
  split; [congruence | exact Hq].
Qed.

Lemma rebuilds_emitted_create intrest st :
  rebuilds (emitted (Called_create_lookup_table intrest) st) = S (rebuilds st).
Proof.
  unfold rebuilds, emitted. simpl. rewrite filter_app, length_app. simpl. lia.
Qed.

Lemma cached_lookup_hit intrest st :
  rate_eq_attr intrest (self_intrest st) = true ->
  cached_lookup LOWAGE UPAGE prae_to_continuous round self intrest st =
    (match self_lookup st with
     | Some l => Ok l
     | None => Raise (AttributeError "'NoneType' object has no attribute 'ix'")
     end, st).
Proof.
  intros H. unfold cached_lookup, bind, get. rewrite H.
  now destruct (self_lookup st).
Qed.

Lemma cached_lookup_miss intrest st :
  rate_eq_attr intrest (self_intrest st) = false ->
  let run := create_lookup_table LOWAGE UPAGE prae_to_continuous round self
               intrest st in
  cached_lookup LOWAGE UPAGE prae_to_continuous round self intrest st =
    match fst run with
    | Ok l => (Ok l, snd (set_intrest intrest (snd (set_lookup l (snd run)))))
    | Raise e => (Raise e, snd run)
    end.
Proof.
  intros H. cbv zeta. unfold cached_lookup, bind at 1, get. rewrite H.
  unfold bind.
  destruct (create_lookup_table LOWAGE UPAGE prae_to_continuous round self
              intrest st) as [[l|e] st1]; reflexivity.
Qed.

Lemma Qlist_eqb_refl l : Qlist_eqb l l = true.
Proof. induction l; simpl; trivial. now rewrite Qeq_bool_refl. Qed.

Lemma rate_eqb_refl r : rate_eqb r r = true.
Proof. destruct r; simpl; [apply Qeq_bool_refl | apply Qlist_eqb_refl]. Qed.

Lemma Qeq_bool_comm x y : Qeq_bool x y = Qeq_bool y x.
Proof.
  destruct (Qeq_bool x y) eqn:E, (Qeq_bool y x) eqn:E'; trivial.
  - apply Qeq_bool_iff in E. symmetry in E. apply Qeq_bool_iff in E. congruence.
  - apply Qeq_bool_iff in E'. symmetry in E'. apply Qeq_bool_iff in E'. congruence.
Qed.

Lemma Qlist_eqb_comm a : forall b, Qlist_eqb a b = Qlist_eqb b a.
Proof.
  induction a as [|x a IH]; intros [|y b]; simpl; trivial.
  now rewrite Qeq_bool_comm, IH.
Qed.

Lemma rate_eqb_comm a b : rate_eqb a b = rate_eqb b a.
Proof.
  destruct a, b; simpl; trivial; [apply Qeq_bool_comm | apply Qlist_eqb_comm].
Qed.

Lemma intrest_or_default_run kw st :
  exists st1, intrest_or_default kw st = (Ok (used_intrest kw), st1) /\
              quiet st st1.
Proof.
  unfold intrest_or_default, used_intrest.
  destruct (kw_intrest kw) as [[r|]|].
  - exists st. split; [reflexivity | apply quiet_refl].
  - eexists. split; [reflexivity|]. apply (tame_print msg_default_intrest st).
  - eexists. split; [reflexivity|]. apply (tame_print msg_default_intrest st).
Qed.

Lemma tame_hx_at_pensionage sex pension_age kw :
  tame (hx_at_pensionage self sex pension_age kw).
Proof. unfold hx_at_pensionage. repeat tame_step. Qed.

(** What a call of [cf_undefined_partner] that returns does to the state. *)
Lemma cf_undefined_partner_cache age sex pension_age kw st :
  let intrest := used_intrest kw in
  let run := cf_undefined_partner MAXAGE LOWAGE UPAGE prae_to_continuous round
               self age sex pension_age kw st in
  is_Ok (fst run) = true ->
  self_pension_age (snd run) = self_pension_age st /\
  self_cfs (snd run) = self_cfs st /\
  self_factors (snd run) = self_factors st /\
  heap (snd run) = heap st /\
  cf_calls (snd run) = cf_calls st /\
  (if rate_eq_attr intrest (self_intrest st)
   then rebuilds (snd run) = rebuilds st /\
        self_lookup (snd run) = self_lookup st /\
        self_intrest (snd run) = self_intrest st
   else rebuilds (snd run) = S (rebuilds st) /\
        self_intrest (snd run) = Some intrest /\
        exists l,
          lookup_value LOWAGE UPAGE prae_to_continuous round self intrest
            = Ok l /\
          self_lookup (snd run) = Some l).
Proof.
  cbv zeta.
  remember (cf_undefined_partner MAXAGE LOWAGE UPAGE prae_to_continuous round
              self age sex pension_age kw st) as run eqn:Hrun.
  unfold cf_undefined_partner in Hrun. rewrite bind_run in Hrun.
  destruct (sex_in_MF sex);
    [unfold ret at 1 in Hrun | subst run; discriminate].
  rewrite bind_run in Hrun.
  destruct (intrest_or_default_run kw st) as [st1 [E1 Q1]]. rewrite E1 in Hrun.
  rewrite bind_run in Hrun.
  destruct (tame_hx_at_pensionage sex pension_age kw st1) as [_ Q2].
  destruct (hx_at_pensionage self sex pension_age kw st1) as [[hxv|e] st2];
    [|subst run; discriminate].
  simpl in Q2. pose proof (quiet_trans _ _ _ Q1 Q2) as Q.
  rewrite bind_run in Hrun. unfold lift at 1 in Hrun.
  destruct (adjust_get self sex "partner") as [adj|e]; [|subst run; discriminate].
  rewrite bind_run in Hrun.
  assert (Hi : self_intrest st2 = self_intrest st) by apply Q.
  pose proof (quiet_cf_calls _ _ Q) as C1.
  pose proof (quiet_rebuilds _ _ Q) as R1.
  destruct (rate_eq_attr (used_intrest kw) (self_intrest st)) eqn:Hhit.
  - rewrite cached_lookup_hit in Hrun by (now rewrite Hi).
    destruct (self_lookup st2) as [l|] eqn:El; [|subst run; discriminate].
    unfold lift in Hrun.
    destruct (undefined_partner_payments _ _ _ _ _ _ _);
      [|subst run; discriminate].
    subst run. intros _. simpl.
    destruct Q as [qa qb qc qd qe qf qg]. repeat split; congruence.
  - rewrite cached_lookup_miss in Hrun by (now rewrite Hi).
    destruct (create_lookup_table_run (used_intrest kw) st2) as [Hv Q3].
    destruct (create_lookup_table LOWAGE UPAGE prae_to_continuous round self
                (used_intrest kw) st2) as [[l|e] st3];
      [|subst run; discriminate].
    simpl in Hv, Q3. simpl in Hrun.
    unfold lift in Hrun.
    destruct (undefined_partner_payments _ _ _ _ _ _ _);
      [|subst run; discriminate].
    subst run. intros _. simpl.
    pose proof (quiet_cf_calls _ _ Q3) as C3.
    pose proof (quiet_rebuilds _ _ Q3) as R3.
    rewrite rebuilds_emitted_create in R3.
    assert (C4 : cf_calls (emitted (Called_create_lookup_table (used_intrest kw)) st2)
                 = cf_calls st2).
    { unfold cf_calls, emitted. simpl. rewrite filter_app. simpl.
      now rewrite app_nil_r. }
    destruct Q as [qa qb qc qd qe qf qg].
    destruct Q3 as [a3 b3 c3 d3 e3 f3 g3].
    simpl in *.
    repeat split; unfold cf_calls, rebuilds in *; simpl; try congruence.
    exists l. split; [congruence | reflexivity].
Qed.

(** C3.  A call of [cf_undefined_partner] that returns enters
    [create_lookup_table] if and only if the interest it works with differs
    (by Python's [==]) from the cached [self.intrest]: on equality the
    number of rebuilds and [self.lookup] are unchanged; otherwise there is
    exactly one rebuild and [self.lookup] is the table built for that
    interest.  In both cases the cached key afterwards equals the interest
    just used. *)
Theorem lookup_rebuilt_iff_intrest_differs age sex pension_age kw st :
  let intrest := used_intrest kw in
  let run := cf_undefined_partner MAXAGE LOWAGE UPAGE prae_to_continuous round
               self age sex pension_age kw st in
  is_Ok (fst run) = true ->
  (rebuilds (snd run) = S (rebuilds st)
     <-> rate_eq_attr intrest (self_intrest st) = false) /\
  (rebuilds (snd run) = rebuilds st
     <-> rate_eq_attr intrest (self_intrest st) = true) /\
  (rate_eq_attr intrest (self_intrest st) = true ->
     self_lookup (snd run) = self_lookup st) /\
  (rate_eq_attr intrest (self_intrest st) = false ->
     exists l,
       lookup_value LOWAGE UPAGE prae_to_continuous round self intrest = Ok l /\
       self_lookup (snd run) = Some l) /\
  rate_eq_attr intrest (self_intrest (snd run)) = true.
Proof.
  cbv zeta. intros Hok.
  destruct (cf_undefined_partner_cache age sex pension_age kw st Hok)
    as (_ & _ & _ & _ & _ & H).
  destruct (rate_eq_attr (used_intrest kw) (self_intrest st)) eqn:Hhit.
  - destruct H as (Hr & Hl & Hi). rewrite Hr, Hi.
    repeat split; try (intros; trivial; discriminate); try assumption.
    intros Hn. lia.
  - destruct H as (Hr & Hi & Hl). rewrite Hr, Hi.
    repeat split; try (intros; trivial; discriminate); try assumption.
    + intros Hn. lia.
    + simpl. apply rate_eqb_refl.
Qed.

End Effects.

Lemma lookup_rebuilt_iff_intrest_differs_witness :
  rebuilds (snd (cf_undefined_partner Tariff.maxage Tariff.lowage Tariff.upage
                   Tariff.prae Tariff.round_id Tariff.table 1 "M" 3
                   no_kwargs fresh)) = S (rebuilds fresh) /\
  rate_eq_attr (Flat (3 # 1))
    (self_intrest (snd (cf_undefined_partner Tariff.maxage Tariff.lowage
                          Tariff.upage Tariff.prae Tariff.round_id Tariff.table
                          1 "M" 3 no_kwargs fresh))) = true.
Proof.
  assert (Hok : is_Ok (fst (cf_undefined_partner Tariff.maxage Tariff.lowage
                              Tariff.upage Tariff.prae Tariff.round_id
                              Tariff.table 1 "M" 3 no_kwargs fresh)) = true)
    by (vm_compute; reflexivity).
  destruct (lookup_rebuilt_iff_intrest_differs Tariff.maxage Tariff.lowage
              Tariff.upage Tariff.prae Tariff.round_id Tariff.table
              1 "M" 3 no_kwargs fresh Hok) as (H1 & _ & _ & _ & H5).
  split; [apply H1; reflexivity | exact H5].
Defined.

(** ** A sequence of undefined-partner calls *)

Lemma misses_alternate (n : nat) :
  forall a b cached,
    rate_eqb a b = false -> rate_eq_attr a cached = false ->
    misses cached (alternate a b n) = n.
Proof.
  induction n as [|k IH]; intros a b cached Hab Hc; simpl; trivial.
  rewrite Hc. f_equal. apply IH.
  - now rewrite rate_eqb_comm.
  - simpl. now rewrite rate_eqb_comm.
Qed.

Section CachePolicy.

Variable MAXAGE : Z.
Variable LOWAGE : Z.
Variable UPAGE : Z.
Variable prae_to_continuous : series -> series.
Variable round : num -> Z -> num.
Variable self : LifeTable.

Lemma undefined_partner_calls_rebuilds age sex pension_age kw rs :
  forall st,
    is_Ok (fst (undefined_partner_calls MAXAGE LOWAGE UPAGE prae_to_continuous
                  round self age sex pension_age kw rs st)) = true ->
    rebuilds (snd (undefined_partner_calls MAXAGE LOWAGE UPAGE
                     prae_to_continuous round self age sex pension_age kw rs
                     st))
      = (rebuilds st + misses (self_intrest st) rs)%nat.
Proof.
  induction rs as [|r tl IH]; intros st Hok.
  - simpl. lia.
  - unfold undefined_partner_calls in *. simpl mapM in *.
    rewrite bind_run in *.
    pose proof (cf_undefined_partner_cache MAXAGE LOWAGE UPAGE
                  prae_to_continuous round self age sex pension_age
                  (with_intrest kw r) st) as Hc.
    cbv zeta in Hc.
    destruct (cf_undefined_partner MAXAGE LOWAGE UPAGE prae_to_continuous round
                self age sex pension_age (with_intrest kw r) st)
      as [[c|e] st1]; [|discriminate].
    specialize (Hc eq_refl). destruct Hc as (_ & _ & _ & _ & _ & Hc).
    simpl fst in Hc. simpl snd in Hc.
    change (used_intrest (with_intrest kw r)) with r in Hc.
    rewrite bind_run in *.
    specialize (IH st1).
    destruct (mapM _ tl st1) as [[cs|e] st2]; [|discriminate].
    specialize (IH eq_refl). simpl in IH. simpl.
    destruct (rate_eq_attr r (self_intrest st)).
    + destruct Hc as (Hr & _ & Hi). rewrite IH, Hr, Hi. reflexivity.
    + destruct Hc as (Hr & Hi & _). rewrite IH, Hr, Hi. lia.
Qed.

(** C4, as amended.  The slot holds one table: over [n] calls whose
    interest alternates between two different rates, starting from a slot
    that does not hold the first of them, every call rebuilds the table, so
    there are [n] rebuilds and not one per distinct rate. *)
Theorem alternating_rates_rebuild_every_call (a b : rate) (n : nat)
    (age : Z) (sex : string) (pension_age : Z) (kw : kwargs) (st : state) :
  rate_eqb a b = false ->
  rate_eq_attr a (self_intrest st) = false ->
  is_Ok (fst (undefined_partner_calls MAXAGE LOWAGE UPAGE prae_to_continuous
                round self age sex pension_age kw (alternate a b n) st))
    = true ->
  rebuilds (snd (undefined_partner_calls MAXAGE LOWAGE UPAGE prae_to_continuous
                   round self age sex pension_age kw (alternate a b n) st))
    = (rebuilds st + n)%nat.
Proof.
  intros Hab Hc Hok.
  rewrite undefined_partner_calls_rebuilds by assumption.
  now rewrite misses_alternate.
Qed.

End CachePolicy.

Lemma alternating_rates_rebuild_every_call_witness :
  rebuilds (snd (undefined_partner_calls Tariff.maxage Tariff.lowage
                   Tariff.upage Tariff.prae Tariff.round_id Tariff.table
                   1 "M" 3 no_kwargs (alternate Tariff.r3 Tariff.r4 5) fresh))
    = (rebuilds fresh + 5)%nat.
Proof.
  apply (alternating_rates_rebuild_every_call Tariff.maxage Tariff.lowage
           Tariff.upage Tariff.prae Tariff.round_id Tariff.table
           Tariff.r3 Tariff.r4 5 1 "M" 3 no_kwargs fresh).
  - reflexivity.
  - reflexivity.
  - vm_compute. reflexivity.
Defined.

(** C4 as stated fails: four calls that alternate between 3 and 4 per cent
    return, and rebuild the table four times, not twice. *)
Lemma alternating_rates_counterexample :
  let run := undefined_partner_calls Tariff.maxage Tariff.lowage Tariff.upage
               Tariff.prae Tariff.round_id Tariff.table 1 "M" 3 no_kwargs
               [Tariff.r3; Tariff.r4; Tariff.r3; Tariff.r4] fresh in
  is_Ok (fst run) = true /\
  rebuilds (snd run) = 4%nat /\
  rebuilds (snd run) <> 2%nat.
Proof.
  cbv zeta. split; [|split].
  - vm_compute. reflexivity.
  - vm_compute. reflexivity.
  - vm_compute. discriminate.
Qed.

(** ** Series on the default index *)

Lemma length_zrange_from (n : nat) : forall t, List.length (zrange_from t n) = n.
Proof. induction n; intros t; simpl; auto. Qed.

Lemma labels_combine (ls : list Z) :
  forall vs : list num, List.length ls = List.length vs -> labels (combine ls vs) = ls.
Proof.
  induction ls as [|l ls IH]; intros [|v vs] H; simpl in *; try discriminate; trivial.
  unfold labels in *. simpl. f_equal. apply IH. lia.
Qed.

Lemma values_combine (ls : list Z) :
  forall vs : list num, List.length ls = List.length vs -> values (combine ls vs) = vs.
Proof.
  induction ls as [|l ls IH]; intros [|v vs] H; simpl in *; try discriminate; trivial.
  unfold values in *. simpl. f_equal. apply IH. lia.
Qed.

Lemma labels_Series (l : list num) :
  labels (Series l) = zrange_from 0 (List.length l).
Proof. apply labels_combine, length_zrange_from. Qed.

Lemma values_Series (l : list num) : values (Series l) = l.
Proof. apply values_combine, length_zrange_from. Qed.

Lemma labels_smap f s : labels (smap f s) = labels s.
Proof. unfold labels, smap. rewrite map_map. reflexivity. Qed.

Lemma values_smap f s : values (smap f s) = map f (values s).
Proof. unfold values, smap. rewrite !map_map. reflexivity. Qed.

Lemma length_labels (s : series) : List.length (labels s) = List.length s.
Proof. apply length_map. Qed.

Lemma length_values (s : series) : List.length (values s) = List.length s.
Proof. apply length_map. Qed.

Lemma zip_with_labels f (a : series) :
  forall b, List.length a = List.length b -> labels (zip_with f a b) = labels a.
Proof.
  induction a as [|[l x] a IH]; intros [|[l' y] b] H; simpl in *;
    try discriminate; trivial.
  unfold labels in *. simpl. f_equal. apply IH. lia.
Qed.

Lemma zip_with_values f (a : series) :
  forall b, values (zip_with f a b) = map2 f (values a) (values b).
Proof.
  induction a as [|[l x] a IH]; intros [|[l' y] b]; simpl; trivial.
  unfold values in *. simpl. f_equal. apply IH.
Qed.

Lemma binop_aligned f (a b : series) :
  labels a = labels b -> binop f a b = zip_with f a b.
Proof.
  intros H. unfold binop. destruct (list_eq_dec Z.eq_dec (labels a) (labels b));
    [reflexivity | contradiction].
Qed.

(** ** The discounting of the undefined-partner products *)

Open Scope R_scope.

Lemma Rpower_inverse_base (x y : R) : 0 < x -> Rpower (1 / x) y = Rpower x (- y).
Proof.
  intros Hx. unfold Rpower.
  replace (1 / x) with (/ x) by (field; lra).
  rewrite ln_Rinv by assumption. f_equal. ring.
Qed.

Lemma discounted_term (r : Q) (N t : Z) (x : R) :
  -100 < Q2R r ->
  nmul (fin x)
       (npow (discount_base (of_Q r))
             (nadd (of_Z t) (nmul half (of_Z (Z_of_bool (t <=? N)%Z)))))
    = fin (x * discount_factor r (payment_time N t)).
Proof.
  intros Hr. unfold discount_base, half, of_Q, of_Z, fin; simpl.
  f_equal. f_equal. unfold discount_factor, payment_time.
  rewrite Rpower_inverse_base by lra.
  f_equal. destruct (t <=? N)%Z; simpl; lra.
Qed.

Lemma fold_discounted (r : Q) (N : Z) (xs : list R) :
  -100 < Q2R r ->
  forall (t : Z) (acc : R),
    fold_left nadd
      (map2 nmul (map fin xs)
         (map2 npow (repeat (discount_base (of_Q r)) (List.length xs))
            (map (fun y => nadd (of_Z y)
                             (nmul half (of_Z (Z_of_bool (y <=? N)%Z))))
                 (zrange_from t (List.length xs)))))
      (fin acc)
    = fin (acc + discounted_sum r N t xs).
Proof.
  intros Hr. induction xs as [|x xs IH]; intros t acc;
    cbn [List.length repeat zrange_from map map2 fold_left discounted_sum].
  - unfold fin. f_equal. lra.
  - rewrite discounted_term by assumption.
    change (nadd (fin acc) (fin (x * discount_factor r (payment_time N t))))
      with (fin (acc + x * discount_factor r (payment_time N t))).
    rewrite IH. unfold fin. f_equal. lra.
Qed.

Close Scope R_scope.

Section PresentValue.

Variable round : num -> Z -> num.
Variable self : LifeTable.

(** C5.  For a cash-flow record tagged NPLL-O, NPLLRS or NPLLRU with the
    fields [age] and [pension_age], payments [xs] on the years 0, 1, ...
    and a flat rate of [r] per cent above -100, [pv] returns the sum of
    the payments times their discount factors, rounded to the precision
    [params['round']] of the tariff.  The factor of year [t] is
    (1+r/100)^(-t) when [t] is beyond [pension_age - age] and
    (1+r/100)^(-(t+0.5)) for the years up to and including it. *)
Theorem pv_undefined_partner_discounting (id : string) (xs : list R)
    (age pension_age : Z) (r : Q) (st : state) :
  is_undefined_partner_id id = true ->
  (-100 < Q2R r)%R ->
  fst (pv round self
         {| cf_insurance_id := Some id;
            cf_payments := Series (map fin xs);
            cf_age := Some age;
            cf_pension_age := Some pension_age |}
         (Flat r) st)
    = Ok (round (fin (discounted_sum r (pension_age - age) 0 xs))
                (rounding self)).
Proof.
  intros Hid Hr. unfold is_undefined_partner_id in Hid.
  assert (Hcases : id = "NPLL-O" \/ id = "NPLLRS" \/ id = "NPLLRU").
  { cbn [mem_string] in Hid.
    repeat (apply orb_true_iff in Hid; destruct Hid as [Hid|Hid]);
      try discriminate; apply String.eqb_eq in Hid; auto. }
  assert (H1 : mem_string id ["OPLL"; "NPLL-B"; "ay_avg"] = false)
    by (destruct Hcases as [->|[->| ->]]; reflexivity).
  assert (H2 : mem_string id ["NPTL-B"; "NPTL-O"] = false)
    by (destruct Hcases as [->|[->| ->]]; reflexivity).
  unfold pv, require, bind, ret, set_yield_curve, modify.
  cbn [cf_insurance_id cf_payments cf_age cf_pension_age].
  cbv beta match. rewrite H1, H2, Hid. cbv beta match. cbn [fst].
  f_equal. f_equal.
  set (n := List.length (Series (map fin xs))).
  assert (Hn : n = List.length xs).
  { unfold n. rewrite <- length_values, values_Series. apply length_map. }
  set (g := fun y => nadd (of_Z y)
                       (nmul half (of_Z (Z_of_bool (y <=? pension_age - age))))).
  assert (Hlab : labels (Series (map fin xs)) = zrange_from 0 n).
  { rewrite labels_Series, length_map. now rewrite Hn. }
  rewrite Hlab.
  assert (Hbase : labels (smap discount_base (x_to_series (Flat r) n))
                  = zrange_from 0 n).
  { rewrite labels_smap. unfold x_to_series. rewrite labels_Series.
    now rewrite repeat_length. }
  assert (Hexp : labels (Series (map g (zrange_from 0 n))) = zrange_from 0 n).
  { rewrite labels_Series, length_map. now rewrite length_zrange_from. }
  rewrite (binop_aligned npow) by congruence.
  assert (Hlen : forall s : series, labels s = zrange_from 0 n -> List.length s = n).
  { intros s Hs. rewrite <- length_labels, Hs. apply length_zrange_from. }
  rewrite (binop_aligned nmul)
    by (rewrite zip_with_labels; [congruence | rewrite !Hlen; trivial]).
  unfold pysum. rewrite !zip_with_values, values_smap.
  unfold x_to_series. rewrite !values_Series, map_repeat.
  clearbody n. subst n. unfold g. change (of_Z 0) with (fin 0%R).
  rewrite (fold_discounted r (pension_age - age) xs Hr 0 0%R).
  unfold fin. f_equal. lra.
Qed.

End PresentValue.

Lemma pv_undefined_partner_discounting_witness :
  fst (pv Tariff.round_id Tariff.table
         {| cf_insurance_id := Some "NPLL-O";
            cf_payments := Series (map fin [10; 20; 30]%R);
            cf_age := Some 40;
            cf_pension_age := Some 41 |}
         (Flat (3 # 1)) fresh)
    = Ok (Tariff.round_id
            (fin (discounted_sum (3 # 1) (41 - 40) 0 [10; 20; 30]%R))
            (rounding Tariff.table)).
Proof.
  apply pv_undefined_partner_discounting;
    [reflexivity | unfold Q2R; simpl; lra].
Defined.

(** ** The objects on the heap *)

Lemma keeps_heap_tame {A : Type} (m : M A) : tame m -> keeps_heap m.
Proof. intros H st. apply (H st). Qed.

Lemma keeps_heap_bind {A B : Type} (m : M A) (k : A -> M B) :
  keeps_heap m -> (forall a, keeps_heap (k a)) -> keeps_heap (bind m k).
Proof.
  intros Hm Hk st. rewrite bind_run. specialize (Hm st).
  destruct (m st) as [[a|e] st1]; simpl in *; [|assumption].
  now rewrite Hk.
Qed.

Lemma keeps_heap_mapM {A B : Type} (f : A -> M B) (l : list A) :
  (forall x, keeps_heap (f x)) -> keeps_heap (mapM f l).
Proof.
  intros Hf. induction l as [|x tl IH]; simpl.
  - apply keeps_heap_tame, tame_ret.
  - apply keeps_heap_bind; [apply Hf | intros y].
    apply keeps_heap_bind; [apply IH | intros ys].
    apply keeps_heap_tame, tame_ret.
Qed.

Lemma keeps_heap_get {A : Type} (f : state -> A) : keeps_heap (get f).
Proof. intros st. reflexivity. Qed.

Lemma keeps_heap_emit e : keeps_heap (emit e).
Proof. intros st. reflexivity. Qed.

Lemma keeps_heap_set_lookup l : keeps_heap (set_lookup l).
Proof. intros st. reflexivity. Qed.

Lemma keeps_heap_set_intrest r : keeps_heap (set_intrest r).
Proof. intros st. reflexivity. Qed.

Section Heap.

Variable MAXAGE : Z.
Variable LOWAGE : Z.
Variable UPAGE : Z.
Variable INSURANCE_IDS : list string.
Variable prae_to_continuous : series -> series.
Variable round : num -> Z -> num.
Variable self : LifeTable.

Lemma keeps_heap_create_lookup_table intrest :
  keeps_heap (create_lookup_table LOWAGE UPAGE prae_to_continuous round self
                intrest).
Proof.
  intros st.
  destruct (create_lookup_table_run LOWAGE UPAGE prae_to_continuous round self
              intrest st) as [_ Q].
  now rewrite (q_heap _ _ Q).
Qed.

Lemma keeps_heap_cached_lookup intrest :
  keeps_heap (cached_lookup LOWAGE UPAGE prae_to_continuous round self intrest).
Proof.
  unfold cached_lookup.
  apply keeps_heap_bind; [apply keeps_heap_get | intros cached].
  destruct (rate_eq_attr intrest cached).
  - apply keeps_heap_bind; [apply keeps_heap_get | intros [l|]];
      apply keeps_heap_tame; [apply tame_ret | apply tame_raise].
  - apply keeps_heap_bind; [apply keeps_heap_create_lookup_table | intros l].
    apply keeps_heap_bind; [apply keeps_heap_set_lookup | intros _].
    apply keeps_heap_bind; [apply keeps_heap_set_intrest | intros _].
    apply keeps_heap_tame, tame_ret.
Qed.

Lemma keeps_heap_cf_undefined_partner age sex pension_age kw :
  keeps_heap (cf_undefined_partner MAXAGE LOWAGE UPAGE prae_to_continuous round
                self age sex pension_age kw).
Proof.
  unfold cf_undefined_partner.
  apply keeps_heap_bind;
    [destruct (sex_in_MF sex); apply keeps_heap_tame;
       [apply tame_ret | apply tame_raise] | intros _].
  apply keeps_heap_bind;
    [apply keeps_heap_tame; unfold intrest_or_default; repeat tame_step
    | intros intrest].
  apply keeps_heap_bind;
    [apply keeps_heap_tame, tame_hx_at_pensionage | intros hx_at].
  apply keeps_heap_bind; [apply keeps_heap_tame, tame_lift | intros adj].
  apply keeps_heap_bind; [apply keeps_heap_cached_lookup | intros l].
  apply keeps_heap_tame, tame_lift.
Qed.

Lemma keeps_heap_cf id age sex pension_age kw :
  keeps_heap (cf MAXAGE LOWAGE UPAGE prae_to_continuous round self
                id age sex pension_age kw).
Proof.
  unfold cf.
  destruct (switcher MAXAGE LOWAGE UPAGE prae_to_continuous round self id)
    as [[call hx_pd]|] eqn:Hsw; [|apply keeps_heap_tame, tame_raise].
  destruct (kw_hx_pd kw); [apply keeps_heap_tame, tame_raise|].
  apply keeps_heap_bind; [apply keeps_heap_emit | intros _].
  apply keeps_heap_bind; [|intros out; apply keeps_heap_tame, tame_ret].
  unfold switcher in Hsw.
  repeat match type of Hsw with
         | (if ?c then _ else _) = _ => destruct c
         end;
    try discriminate; injection Hsw as <- <-;
    try apply keeps_heap_cf_undefined_partner;
    apply keeps_heap_tame, tame_lift.
Qed.

Lemma keeps_heap_map_to_cf pension_age intrest row :
  keeps_heap (map_to_cf MAXAGE LOWAGE UPAGE prae_to_continuous round self
                pension_age intrest row).
Proof.
  unfold map_to_cf.
  repeat match goal with
         | |- keeps_heap (match ?c with _ => _ end) => destruct c
         end;
    try (apply keeps_heap_tame, tame_raise).
  apply keeps_heap_bind; [apply keeps_heap_cf | intros c].
  apply keeps_heap_tame, tame_ret.
Qed.

End Heap.

Lemma nth_error_list_set_eq {A : Type} (l : list A) :
  forall n x, (n < List.length l)%nat -> nth_error (list_set l n x) n = Some x.
Proof.
  induction l as [|y l IH]; intros [|n] x H; simpl in *; try lia; trivial.
  apply IH. lia.
Qed.

Lemma nth_error_list_set_ne {A : Type} (l : list A) :
  forall n m x, n <> m -> nth_error (list_set l n x) m = nth_error l m.
Proof.
  induction l as [|y l IH]; intros [|n] [|m] x H; simpl; trivial.
  - contradiction.
  - apply IH. congruence.
Qed.

Lemma list_set_twice {A : Type} (l : list A) :
  forall n x y, list_set (list_set l n x) n y = list_set l n y.
Proof.
  induction l as [|z l IH]; intros [|n] x y; simpl; trivial.
  now rewrite IH.
Qed.

Lemma length_list_set {A : Type} (l : list A) :
  forall n x, List.length (list_set l n x) = List.length l.
Proof.
  induction l as [|z l IH]; intros [|n] x; simpl; trivial.
  now rewrite IH.
Qed.

Lemma nth_error_lt {A : Type} (l : list A) n x :
  nth_error l n = Some x -> (n < List.length l)%nat.
Proof. intros H. apply nth_error_Some. congruence. Qed.

Lemma nth_error_app_r {A : Type} (h l : list A) (k : nat) :
  nth_error (h ++ l) (List.length h + k) = nth_error l k.
Proof. induction h; simpl; trivial. Qed.

Lemma list_set_app_r {A : Type} (h l : list A) (k : nat) (x : A) :
  list_set (h ++ l) (List.length h + k) x = h ++ list_set l k x.
Proof. induction h; simpl; trivial. now f_equal. Qed.

Lemma alloc_run f st :
  alloc f st = (Ok (List.length (heap st)), set_heap (heap st ++ [f]) st).
Proof. reflexivity. Qed.

Lemma deref_run r st :
  deref r st =
    match nth_error (heap st) r with
    | Some f => (Ok f, st)
    | None => (Raise (AttributeError "dangling reference"), st)
    end.
Proof. reflexivity. Qed.

Lemma store_run r f st :
  store r f st = (Ok tt, set_heap (list_set (heap st) r f) st).
Proof. reflexivity. Qed.

Lemma lift_run {A : Type} (r : result A) st : lift r st = (r, st).
Proof. reflexivity. Qed.

Lemma get_run {A : Type} (f : state -> A) st : get f st = (Ok (f st), st).
Proof. reflexivity. Qed.

Section Pipeline.

Variable MAXAGE : Z.
Variable LOWAGE : Z.
Variable UPAGE : Z.
Variable INSURANCE_IDS : list string.
Variable prae_to_continuous : series -> series.
Variable round : num -> Z -> num.
Variable self : LifeTable.

Lemma tame_row_pv f intrest row : tame (row_pv round self f intrest row).
Proof.
  unfold row_pv. tame_step; [tame_step|].
  destruct a; try apply tame_raise.
  tame_step; [apply tame_pv | tame_step].
Qed.

Lemma value_in_place_run factors intrest st :
  let run := value_in_place round self factors intrest st in
  match nth_error (heap st) factors with
  | None => fst run = Raise (AttributeError "dangling reference")
  | Some f =>
      match tar_column round self f intrest with
      | Raise e => fst run = Raise e
      | Ok tar =>
          match valued f tar with
          | Raise e => fst run = Raise e
          | Ok f' =>
              fst run = Ok factors /\
              heap (snd run) = list_set (heap st) factors f' /\
              self_factors (snd run) = Some factors /\
              self_cfs (snd run) = self_cfs st /\
              self_intrest (snd run) = self_intrest st /\
              self_pension_age (snd run) = self_pension_age st /\
              cf_calls (snd run) = cf_calls st
          end
      end
  end.
Proof.
  cbv zeta. unfold value_in_place. rewrite bind_run, deref_run.
  destruct (nth_error (heap st) factors) as [f|] eqn:Hf; [|reflexivity].
  rewrite bind_run.
  destruct (tame_mapM (row_pv round self f intrest) (frows f)
              (tame_row_pv f intrest) st) as [Hv Q].
  unfold tar_column. rewrite <- Hv.
  destruct (mapM (row_pv round self f intrest) (frows f) st)
    as [[tar|e] st1]; [|reflexivity].
  simpl fst. simpl in Q.
  pose proof (quiet_cf_calls _ _ Q) as Hcalls.
  destruct Q as [qa qb qc qd qe qf qg].
  assert (Hlt : (factors < List.length (heap st1))%nat)
    by (rewrite qf; eapply nth_error_lt; eassumption).
  rewrite bind_run, store_run, bind_run, deref_run. cbn [heap set_heap].
  rewrite nth_error_list_set_eq by assumption.
  rewrite bind_run, lift_run. unfold valued, rbind.
  change ["insurance_id"; "sex_insured"; "age_insured"] with factor_keys.
  destruct (set_index factor_keys (set_column "tar" tar f)) as [f1|e];
    [|reflexivity].
  rewrite bind_run, store_run, bind_run, lift_run.
  destruct (drop_column "cf" f1) as [f2|e]; [|reflexivity].
  rewrite bind_run, store_run. unfold bind, set_factors, modify, ret. cbn.
  rewrite !list_set_twice. rewrite qf.
  repeat split; try congruence. exact Hcalls.
Qed.

Lemma cashflows_for_factors_hit intrest pension_age st :
  rate_eq_attr intrest (self_intrest st) &&
    Z_eq_attr pension_age (self_pension_age st) = true ->
  cashflows_for_factors MAXAGE LOWAGE UPAGE INSURANCE_IDS prae_to_continuous
    round self intrest pension_age st =
    (match self_cfs st with
     | Some r => Ok r
     | None =>
         Raise (AttributeError "'NoneType' object has no attribute 'apply'")
     end, st).
Proof.
  intros H. unfold cashflows_for_factors.
  rewrite bind_run, get_run, bind_run, get_run, H, bind_run, get_run.
  now destruct (self_cfs st).
Qed.

Lemma calculate_cashflows_run pension_age intrest st :
  let run := calculate_cashflows MAXAGE LOWAGE UPAGE INSURANCE_IDS
               prae_to_continuous round self pension_age intrest st in
  is_Ok (fst run) = true ->
  exists f,
    fst run = Ok (List.length (heap st)) /\
    heap (snd run) = heap st ++ [f] /\
    self_intrest (snd run) = Some intrest /\
    self_pension_age (snd run) = Some pension_age /\
    self_cfs (snd run) = Some (List.length (heap st)).
Proof.
  cbv zeta.
  remember (calculate_cashflows MAXAGE LOWAGE UPAGE INSURANCE_IDS
              prae_to_continuous round self pension_age intrest st)
    as run eqn:Hrun.
  unfold calculate_cashflows in Hrun.
  rewrite bind_run, alloc_run, bind_run in Hrun. cbn [frows] in Hrun.
  pose proof (keeps_heap_mapM _ (cartesian LOWAGE UPAGE INSURANCE_IDS)
                (keeps_heap_map_to_cf MAXAGE LOWAGE UPAGE prae_to_continuous
                   round self pension_age intrest)
                (set_heap (heap st ++ [ {| findex := [];
                     fcolumns := ["insurance_id"; "sex_insured"; "age_insured"];
                     frows := cartesian LOWAGE UPAGE INSURANCE_IDS |} ]) st))
    as Hh.
  destruct (mapM _ (cartesian LOWAGE UPAGE INSURANCE_IDS) _)
    as [[col|e] st1]; [|subst run; discriminate].
  simpl in Hh.
  rewrite bind_run, store_run in Hrun.
  unfold bind, set_intrest, set_pension_age, set_cfs, modify, ret in Hrun.
  cbn in Hrun. subst run. intros _. cbn.
  eexists. repeat split.
  rewrite Hh.
  replace (List.length (heap st)) with (List.length (heap st) + 0)%nat by lia.
  rewrite list_set_app_r. reflexivity.
Qed.

Lemma cashflows_for_factors_miss intrest pension_age st :
  let run := cashflows_for_factors MAXAGE LOWAGE UPAGE INSURANCE_IDS
               prae_to_continuous round self intrest pension_age st in
  rate_eq_attr intrest (self_intrest st) &&
    Z_eq_attr pension_age (self_pension_age st) = false ->
  is_Ok (fst run) = true ->
  exists f,
    fst run = Ok (S (List.length (heap st))) /\
    heap (snd run) = heap st ++ [f; f] /\
    self_intrest (snd run) = Some intrest /\
    self_pension_age (snd run) = Some pension_age /\
    self_cfs (snd run) = Some (List.length (heap st)).
Proof.
  cbv zeta. intros Hmiss.
  remember (cashflows_for_factors MAXAGE LOWAGE UPAGE INSURANCE_IDS
              prae_to_continuous round self intrest pension_age st)
    as run eqn:Hrun.
  unfold cashflows_for_factors in Hrun.
  rewrite bind_run, get_run, bind_run, get_run, Hmiss, bind_run in Hrun.
  pose proof (calculate_cashflows_run pension_age intrest st) as Hc.
  cbv zeta in Hc.
  destruct (calculate_cashflows MAXAGE LOWAGE UPAGE INSURANCE_IDS
              prae_to_continuous round self pension_age intrest st)
    as [[r|e] st1]; [|subst run; discriminate].
  destruct (Hc eq_refl) as (f & Hr & Hh & Hi & Hp & Hcfs).
  simpl in Hr, Hh, Hi, Hp, Hcfs. injection Hr as ->.
  exists f.
  rewrite bind_run in Hrun. unfold set_cfs at 1, modify at 1 in Hrun.
  rewrite bind_run, deref_run in Hrun. cbn [heap] in Hrun. rewrite Hh in Hrun.
  replace (List.length (heap st)) with (List.length (heap st) + 0)%nat in Hrun
    at 1 by lia.
  rewrite nth_error_app_r in Hrun. cbn [nth_error] in Hrun.
  rewrite alloc_run in Hrun. cbn [heap] in Hrun. subst run. cbn.
  rewrite length_app, <- app_assoc. simpl.
  repeat split; try assumption. f_equal. lia.
Qed.

Lemma mem_string_filter (p : string -> bool) (k : string) (l : list string) :
  mem_string k (filter p l) = true -> mem_string k l = true /\ p k = true.
Proof.
  induction l as [|x l IH]; simpl; [discriminate|].
  destruct (p x) eqn:Hp; simpl.
  - intros H. apply orb_true_iff in H. destruct H as [H|H].
    + rewrite H. split; trivial. apply String.eqb_eq in H. now subst.
    + destruct (IH H) as [H1 H2]. rewrite H1, orb_true_r. now split.
  - intros H. destruct (IH H) as [H1 H2]. rewrite H1, orb_true_r. now split.
Qed.

Lemma mem_string_app (k : string) (a b : list string) :
  mem_string k (a ++ b) = mem_string k a || mem_string k b.
Proof.
  induction a as [|x a IH]; simpl; trivial. now rewrite IH, orb_assoc.
Qed.

(** After lines 525 and 526 a frame has neither the column 'cf' nor a
    column 'insurance_id'. *)
Lemma valued_columns f tar f' :
  valued f tar = Ok f' ->
  mem_string "cf" (fcolumns f') = false /\
  mem_string "insurance_id" (fcolumns f') = false.
Proof.
  unfold valued, rbind, set_index.
  destruct (find _ factor_keys); [discriminate|].
  unfold drop_column. cbn [fcolumns].
  destruct (mem_string "cf" _); [|discriminate].
  intros H. injection H as <-. cbn [fcolumns]. unfold remove_string. split.
  - destruct (mem_string "cf" (filter _ _)) eqn:E; trivial.
    apply mem_string_filter in E. destruct E as [_ E]. discriminate.
  - destruct (mem_string "insurance_id" (filter _ _)) eqn:E; trivial.
    apply mem_string_filter in E. destruct E as [E _].
    apply mem_string_filter in E. destruct E as [_ E]. discriminate.
Qed.

(** A frame without the column 'cf' can no longer be valued. *)
Lemma unvaluable f intrest :
  mem_string "cf" (fcolumns f) = false ->
  mem_string "insurance_id" (fcolumns f) = false ->
  match tar_column round self f intrest with
  | Raise e => e = KeyError (KStr "cf")
  | Ok tar => valued f tar = Raise (KeyError (KStr "insurance_id"))
  end.
Proof.
  intros Hcf Hid. unfold tar_column.
  destruct (frows f) as [|row rows] eqn:Hrows.
  - simpl. unfold valued, set_index. cbn [fcolumns set_column].
    assert (Hm : mem_string "insurance_id"
                   (if mem_string "tar" (fcolumns f) then fcolumns f
                    else fcolumns f ++ ["tar"]) = false).
    { destruct (mem_string "tar" (fcolumns f)); trivial.
      rewrite mem_string_app, Hid. reflexivity. }
    unfold factor_keys. cbn [find]. rewrite Hm. reflexivity.
  - cbn [mapM]. rewrite bind_run. unfold row_pv. rewrite bind_run, lift_run.
    unfold row_ix. rewrite Hcf. reflexivity.
Qed.

Lemma calculate_factors_hit intrest pension_age st :
  cache_hit intrest pension_age st = true ->
  calculate_factors MAXAGE LOWAGE UPAGE INSURANCE_IDS prae_to_continuous round
    self intrest pension_age st =
  match self_cfs st with
  | Some r => value_in_place round self r intrest st
  | None =>
      (Raise (AttributeError "'NoneType' object has no attribute 'apply'"), st)
  end.
Proof.
  intros H. unfold calculate_factors.
  rewrite bind_run, cashflows_for_factors_hit by exact H.
  now destruct (self_cfs st).
Qed.

(** C9.  On a cache hit [calculate_factors] works on the cached table
    [self.cfs] itself: the reference it returns is the cached one, and
    after a call that returns, the object behind [self.cfs] has lost the
    column 'cf' (and its key columns), so the next call with the same key
    raises a [KeyError] instead of computing present values. *)
Theorem cache_hit_strips_cached_cashflows (intrest : rate) (pension_age : Z)
    (st : state) :
  let run := calculate_factors MAXAGE LOWAGE UPAGE INSURANCE_IDS
               prae_to_continuous round self intrest pension_age st in
  cache_hit intrest pension_age st = true ->
  is_Ok (fst run) = true ->
  exists ref f,
    self_cfs st = Some ref /\
    fst run = Ok ref /\
    self_cfs (snd run) = Some ref /\
    nth_error (heap (snd run)) ref = Some f /\
    mem_string "cf" (fcolumns f) = false /\
    cache_hit intrest pension_age (snd run) = true /\
    exists k,
      fst (calculate_factors MAXAGE LOWAGE UPAGE INSURANCE_IDS
             prae_to_continuous round self intrest pension_age (snd run))
        = Raise (KeyError (KStr k)).
Proof.
  cbv zeta. intros Hhit. rewrite (calculate_factors_hit _ _ _ Hhit).
  destruct (self_cfs st) as [ref|] eqn:Hcfs; [|discriminate].
  pose proof (value_in_place_run ref intrest st) as Hrun. cbv zeta in Hrun.
  destruct (nth_error (heap st) ref) as [f0|] eqn:Hf0;
    [|rewrite Hrun; discriminate].
  destruct (tar_column round self f0 intrest) as [tar|e]; [|rewrite Hrun; discriminate].
  destruct (valued f0 tar) as [f|e] eqn:Hval; [|rewrite Hrun; discriminate].
  destruct Hrun as (Hr & Hh & Hfa & Hc & Hi & Hp & Hcalls).
  intros _. exists ref, f.
  destruct (valued_columns _ _ _ Hval) as [Hcf Hid].
  assert (Hnth : nth_error
                   (heap (snd (value_in_place round self ref intrest st))) ref
                 = Some f).
  { rewrite Hh. apply nth_error_list_set_eq. eapply nth_error_lt; eassumption. }
  assert (Hhit' : cache_hit intrest pension_age
                    (snd (value_in_place round self ref intrest st)) = true).
  { unfold cache_hit in *. now rewrite Hi, Hp. }
  repeat split; try congruence.
  rewrite (calculate_factors_hit _ _ _ Hhit'). rewrite Hc, Hcfs.
  pose proof (value_in_place_run ref intrest
                (snd (value_in_place round self ref intrest st))) as Hrun2.
  cbv zeta in Hrun2. rewrite Hnth in Hrun2.
  pose proof (unvaluable f intrest Hcf Hid) as Hu.
  destruct (tar_column round self f intrest) as [tar'|e].
  - rewrite Hu in Hrun2. eexists. exact Hrun2.
  - subst e. eexists. exact Hrun2.
Qed.

(** When the first of two successive calls of [calculate_factors] with the
    same interest and pension age is not itself served from the cache and
    returns, the second call returns too, its frame equals the frame of the
    first call while being another object (the cached [self.cfs] itself),
    the first frame is untouched, and the second call invokes no cash-flow
    generator. *)
Lemma calculate_factors_miss_then_hit (intrest : rate) (pension_age : Z)
    (st : state) :
  let run1 := calculate_factors MAXAGE LOWAGE UPAGE INSURANCE_IDS
                prae_to_continuous round self intrest pension_age st in
  let run2 := calculate_factors MAXAGE LOWAGE UPAGE INSURANCE_IDS
                prae_to_continuous round self intrest pension_age (snd run1) in
  cache_hit intrest pension_age st = false ->
  is_Ok (fst run1) = true ->
  exists ref1 ref2 f,
    fst run1 = Ok ref1 /\
    fst run2 = Ok ref2 /\
    ref1 <> ref2 /\
    self_cfs (snd run1) = Some ref2 /\
    nth_error (heap (snd run1)) ref1 = Some f /\
    nth_error (heap (snd run2)) ref2 = Some f /\
    nth_error (heap (snd run2)) ref1 = Some f /\
    cf_calls (snd run2) = cf_calls (snd run1).
Proof.
  cbv zeta. intros Hmiss.
  remember (calculate_factors MAXAGE LOWAGE UPAGE INSURANCE_IDS
              prae_to_continuous round self intrest pension_age st)
    as run1 eqn:H1.
  unfold calculate_factors in H1. rewrite bind_run in H1.
  pose proof (cashflows_for_factors_miss intrest pension_age st Hmiss) as Hc.
  cbv zeta in Hc.
  destruct (cashflows_for_factors MAXAGE LOWAGE UPAGE INSURANCE_IDS
              prae_to_continuous round self intrest pension_age st)
    as [[r|e] st0]; [|subst run1; discriminate].
  destruct (Hc eq_refl) as (f0 & Hr & Hh & Hi & Hp & Hcfs).
  simpl in Hr, Hh, Hi, Hp, Hcfs. injection Hr as ->.
  set (n := List.length (heap st)) in *.
  pose proof (value_in_place_run (S n) intrest st0) as Hv. cbv zeta in Hv.
  assert (Hn1 : nth_error (heap st0) (S n) = Some f0).
  { rewrite Hh. unfold n.
    replace (S (List.length (heap st))) with (List.length (heap st) + 1)%nat
      by lia.
    now rewrite nth_error_app_r. }
  assert (Hn0 : nth_error (heap st0) n = Some f0).
  { rewrite Hh. unfold n.
    replace (List.length (heap st)) with (List.length (heap st) + 0)%nat
      by lia.
    now rewrite nth_error_app_r. }
  rewrite Hn1 in Hv. rewrite <- H1 in Hv.
  destruct (tar_column round self f0 intrest) as [tar|e] eqn:Htar;
    [|rewrite Hv; discriminate].
  destruct (valued f0 tar) as [f|e] eqn:Hval; [|rewrite Hv; discriminate].
  destruct Hv as (Hr1 & Hh1 & Hfa1 & Hc1 & Hi1 & Hp1 & Hcalls1).
  intros _.
  assert (Hhit : cache_hit intrest pension_age (snd run1) = true).
  { unfold cache_hit. rewrite Hi1, Hp1, Hi, Hp. simpl.
    now rewrite rate_eqb_refl, Z.eqb_refl. }
  rewrite (calculate_factors_hit _ _ _ Hhit). rewrite Hc1, Hcfs.
  pose proof (value_in_place_run n intrest (snd run1)) as Hv2.
  cbv zeta in Hv2.
  assert (Hn0' : nth_error (heap (snd run1)) n = Some f0).
  { rewrite Hh1, nth_error_list_set_ne by lia. exact Hn0. }
  rewrite Hn0', Htar, Hval in Hv2.
  destruct Hv2 as (Hr2 & Hh2 & Hfa2 & Hc2 & Hi2 & Hp2 & Hcalls2).
  assert (Hlt1 : (S n < List.length (heap st0))%nat)
    by (eapply nth_error_lt; eassumption).
  assert (Hlt0 : (n < List.length (heap (snd run1)))%nat)
    by (eapply nth_error_lt; eassumption).
  exists (S n), n, f. repeat split; trivial.
  - lia.
  - rewrite Hh1. now apply nth_error_list_set_eq.
  - rewrite Hh2. now apply nth_error_list_set_eq.
  - rewrite Hh2, nth_error_list_set_ne by lia.
    rewrite Hh1. now apply nth_error_list_set_eq.
Qed.

End Pipeline.

Lemma cache_hit_strips_cached_cashflows_witness :
  exists ref f,
    self_cfs Tariff.after_first_factors = Some ref /\
    fst (Tariff.factors Tariff.r3 3 Tariff.after_first_factors) = Ok ref /\
    self_cfs (snd (Tariff.factors Tariff.r3 3 Tariff.after_first_factors))
      = Some ref /\
    nth_error
      (heap (snd (Tariff.factors Tariff.r3 3 Tariff.after_first_factors))) ref
      = Some f /\
    mem_string "cf" (fcolumns f) = false /\
    cache_hit Tariff.r3 3
      (snd (Tariff.factors Tariff.r3 3 Tariff.after_first_factors)) = true /\
    exists k,
      fst (Tariff.factors Tariff.r3 3
             (snd (Tariff.factors Tariff.r3 3 Tariff.after_first_factors)))
        = Raise (KeyError (KStr k)).
Proof.
  apply (cache_hit_strips_cached_cashflows Tariff.maxage Tariff.lowage
           Tariff.upage Tariff.ids Tariff.prae Tariff.round_id Tariff.table
           Tariff.r3 3 Tariff.after_first_factors).
  - vm_compute. reflexivity.
  - vm_compute. reflexivity.
Defined.

(** On the small tariff: the first call computes, the second is served
    from the cache, the third finds the cached table without 'cf'. *)
Example third_calculate_factors_fails :
  fst (Tariff.factors Tariff.r3 3 fresh) = Ok 1%nat /\
  fst (Tariff.factors Tariff.r3 3 Tariff.after_first_factors) = Ok 0%nat /\
  fst (Tariff.factors Tariff.r3 3 Tariff.after_second_factors)
    = Raise (KeyError (KStr "cf")).
Proof. repeat split; vm_compute; reflexivity. Qed.

(** ** When the undefined-partner generator returns *)

Lemma In_zrange_from (n : nat) :
  forall s a, In a (zrange_from s n) <-> s <= a < s + Z.of_nat n.
Proof.
  induction n as [|n IH]; intros s a; simpl zrange_from.
  - simpl. lia.
  - simpl In. rewrite IH. lia.
Qed.

Lemma In_range (a lo hi : Z) : In a (range lo hi) <-> lo <= a < hi.
Proof. unfold range. rewrite In_zrange_from. lia. Qed.

Lemma combine_app_same {A B : Type} (l1 : list A) :
  forall (r1 : list B) l2 r2,
    List.length l1 = List.length r1 ->
    combine (l1 ++ l2) (r1 ++ r2) = combine l1 r1 ++ combine l2 r2.
Proof.
  induction l1 as [|x l1 IH]; intros [|y r1] l2 r2 H; simpl in *;
    try discriminate; trivial.
  f_equal. apply IH. lia.
Qed.

Lemma In_combine_repeat (g : string) (n : nat) :
  forall s a, In a (zrange_from s n) ->
              In (g, a) (combine (repeat g n) (zrange_from s n)).
Proof.
  induction n as [|n IH]; intros s a; simpl; [trivial|].
  intros [->|H]; [now left | right; now apply IH].
Qed.

Lemma In_lookup_keys (LOWAGE UPAGE : Z) (g : string) (a : Z) :
  In (g, a) (lookup_keys LOWAGE UPAGE) <->
  sex_in_MF g = true /\ LOWAGE <= a < UPAGE.
Proof.
  unfold lookup_keys. split.
  - intros H. split.
    + apply in_combine_l in H. apply in_app_or in H.
      destruct H as [H|H]; apply repeat_spec in H; subst; reflexivity.
    + apply in_combine_r in H. apply in_app_or in H.
      destruct H as [H|H]; now apply In_range in H.
  - intros [Hg Ha]. apply In_range in Ha.
    rewrite combine_app_same
      by (rewrite repeat_length; unfold range; now rewrite length_zrange_from).
    apply in_or_app. unfold range in *.
    destruct (sex_in_MF_cases g Hg) as [->| ->];
      [left | right]; now apply In_combine_repeat.
Qed.

Lemma rmapM_total {A B : Type} (f : A -> result B) (g : A -> B) (l : list A) :
  (forall x, In x l -> f x = Ok (g x)) -> rmapM f l = Ok (map g l).
Proof.
  induction l as [|x l IH]; intros H; simpl; trivial.
  rewrite (H x) by now left. rewrite IH; trivial.
  intros y Hy. apply H. now right.
Qed.

Lemma rmapM_returns {A B : Type} (f : A -> result B) (l : list A) :
  (forall x, In x l -> exists y, f x = Ok y) ->
  exists ys, rmapM f l = Ok ys /\ List.length ys = List.length l.
Proof.
  induction l as [|x l IH]; intros H; simpl.
  - now exists [].
  - destruct (H x) as [y Hy]; [now left|]. rewrite Hy.
    destruct IH as [ys [Hys Hlen]]; [intros z Hz; apply H; now right|].
    rewrite Hys. exists (y :: ys). simpl. split; [reflexivity | lia].
Qed.

Lemma mapM_returns {A B : Type} (f : A -> M B) (l : list A) :
  (forall x, tame (f x)) ->
  (forall x, In x l -> exists y, fst (f x fresh) = Ok y) ->
  exists ys, fst (mapM f l fresh) = Ok ys /\ List.length ys = List.length l.
Proof.
  intros Ht. induction l as [|x l IH]; intros H; simpl.
  - now exists [].
  - destruct (H x) as [y Hy]; [now left|].
    destruct IH as [ys [Hys Hlen]]; [intros z Hz; apply H; now right|].
    exists (y :: ys). split; [|simpl; lia].
    rewrite bind_run. destruct (f x fresh) as [r st1] eqn:E.
    simpl in Hy. subst r. rewrite bind_run.
    destruct (tame_mapM f l Ht st1) as [Hv _]. rewrite Hys in Hv.
    destruct (mapM f l st1) as [r2 st2]. simpl in Hv. subst r2. reflexivity.
Qed.

Lemma zip_rows_spec (h : string -> Z) (keys : list (string * Z)) :
  forall ay hxa fac,
    List.length ay = List.length keys ->
    List.length hxa = List.length keys ->
    List.length fac = List.length keys ->
    let l := zip_rows keys ay hxa (map (fun k => h (fst k)) keys) fac in
    (forall r, In r l ->
       In (lr_gender r, lr_age r) keys /\ lr_alpha1 r = h (lr_gender r)) /\
    (forall g a, In (g, a) keys ->
       exists r, In r l /\ lr_gender r = g /\ lr_age r = a).
Proof.
  induction keys as [|[g0 a0] keys IH]; intros ay hxa fac H1 H2 H3.
  - simpl. split; [contradiction | intros g a []].
  - destruct ay as [|y ay]; [discriminate|].
    destruct hxa as [|x hxa]; [discriminate|].
    destruct fac as [|z fac]; [discriminate|].
    simpl in H1, H2, H3.
    destruct (IH ay hxa fac) as [IHa IHb]; try lia.
    cbn [map zip_rows fst]. split.
    + intros r [<-|Hr]; cbn [lr_gender lr_age lr_alpha1].
      * split; [now left | reflexivity].
      * destruct (IHa r Hr) as [Hin Ha]. split; [now right | exact Ha].
    + intros g a [Heq|Hin].
      * injection Heq as <- <-. eexists. split; [now left|]. now split.
      * destruct (IHb g a Hin) as [r [Hr Hga]]. exists r. split; [now right | exact Hga].
Qed.

Section Returns.

Variable MAXAGE : Z.
Variable LOWAGE : Z.
Variable UPAGE : Z.
Variable prae_to_continuous : series -> series.
Variable round : num -> Z -> num.
Variable self : LifeTable.

(** The lowest age of the tables and the partner adjustments of the two
    sexes. *)
Variable lo : Z.
Variable adj_m : adjustment.
Variable adj_f : adjustment.

Hypothesis Hfits : tariff_fits MAXAGE LOWAGE UPAGE self lo adj_m adj_f.

Lemma other_sex_valid sex : sex_in_MF sex = true -> sex_in_MF (other_sex sex) = true.
Proof.
  intros H. destruct (sex_in_MF_cases sex H) as [->| ->]; reflexivity.
Qed.

Lemma lx_get_valid sex :
  sex_in_MF sex = true -> by_sex_get (lx self) sex = Ok (lx_of self sex).
Proof. intros H. unfold lx_of. now apply by_sex_get_valid. Qed.

Lemma hx_get_valid sex :
  sex_in_MF sex = true -> by_sex_get (hx self) sex = Ok (hx_of self sex).
Proof. intros H. unfold hx_of. now apply by_sex_get_valid. Qed.

Lemma ix_lx_returns sex a :
  sex_in_MF sex = true -> lo <= a <= MAXAGE ->
  exists v, ix (lx_of self sex) a = Ok v.
Proof. intros Hs Ha. apply ix_In. now apply (fits_lx Hfits). Qed.

Lemma npx_returns age sex nyears :
  sex_in_MF sex = true -> lo <= age -> lo <= age + nyears ->
  exists v, npx MAXAGE self age sex nyears = Ok v.
Proof.
  intros Hs Ha Hn. pose proof (fits_lo Hfits) as Hlo.
  rewrite npx_unfold by assumption.
  destruct (ix_lx_returns sex (Z.min (age + nyears) MAXAGE) Hs) as [a ->];
    [lia|].
  destruct (ix_lx_returns sex (Z.min age MAXAGE) Hs) as [b ->]; [lia|].
  simpl. eauto.
Qed.

Lemma nqx_returns age sex nyears :
  sex_in_MF sex = true -> lo <= age -> 1 <= nyears ->
  exists v, nqx MAXAGE self age sex nyears = Ok v.
Proof.
  intros Hs Ha Hn. unfold nqx.
  destruct (npx_returns age sex (nyears - 1) Hs Ha) as [p ->]; [lia|].
  destruct (npx_returns age sex nyears Hs Ha) as [q ->]; [lia|].
  simpl. eauto.
Qed.

Lemma cf_annuity_returns age tbl :
  In age (labels tbl) -> exists s, cf_annuity age tbl 0 = Ok s.
Proof.
  intros H. unfold cf_annuity.
  assert (Hlen : (0 <? Z.of_nat (List.length tbl)) = true).
  { destruct tbl; [contradiction|]. simpl List.length. apply Z.ltb_lt. lia. }
  rewrite Hlen. destruct (ix_In tbl age H) as [d ->]. simpl. eauto.
Qed.

Lemma cf_ay_avg_returns age sex pension_age :
  sex_in_MF sex = true -> LOWAGE <= age < UPAGE ->
  exists c, cf_ay_avg prae_to_continuous self age sex pension_age no_kwargs
            = Ok c.
Proof.
  intros Hs Ha. unfold cf_ay_avg. cbn [kw_insurance_type no_kwargs]. rewrite Hs.
  pose proof (fits_adj Hfits _ (other_sex_valid sex Hs)) as Hadj.
  unfold other_sex in Hadj. rewrite Hadj. cbn [rbind].
  destruct (fits_beneficiary Hfits sex age Hs Ha) as [Hb1 Hb2].
  unfold beneficiary_age, sign_of, other_sex in Hb1, Hb2.
  pose proof (fits_lx Hfits _ (age - (if String.eqb sex MALE then 1 else -1)
                                 * delta self
                               + CX3 (partner_adj adj_m adj_f
                                   (if String.eqb sex MALE then FEMALE else MALE)))
                (other_sex_valid sex Hs)) as Hin1.
  pose proof (fits_lx Hfits _ (age + 1 - (if String.eqb sex MALE then 1 else -1)
                                 * delta self
                               + CX3 (partner_adj adj_m adj_f
                                   (if String.eqb sex MALE then FEMALE else MALE)))
                (other_sex_valid sex Hs)) as Hin2.
  assert (Htbl : (if String.eqb sex MALE then for_female (lx self)
                  else for_male (lx self)) = lx_of self (other_sex sex)).
  { destruct (sex_in_MF_cases sex Hs) as [->| ->]; reflexivity. }
  rewrite Htbl.
  destruct (cf_annuity_returns _ _ (Hin1 ltac:(lia))) as [s1 ->].
  destruct (cf_annuity_returns _ _ (Hin2 ltac:(lia))) as [s2 ->].
  simpl. eauto.
Qed.

Lemma pv_returns_OPLL payments intrest st :
  exists v,
    fst (pv round self {| cf_insurance_id := Some "OPLL";
                          cf_payments := payments;
                          cf_age := None; cf_pension_age := None |}
           intrest st) = Ok v.
Proof. eexists. reflexivity. Qed.

Lemma ay_avg_returns age sex intrest t :
  sex_in_MF sex = true -> LOWAGE <= age < UPAGE ->
  exists v, fst (ay_avg prae_to_continuous round self age sex intrest t fresh)
            = Ok v.
Proof.
  intros Hs Ha. unfold ay_avg. rewrite bind_run, lift_run.
  destruct (cf_ay_avg_returns age sex (PStr t) Hs Ha) as [c ->].
  apply pv_returns_OPLL.
Qed.

Lemma hx_avg_at_returns sex age :
  sex_in_MF sex = true -> LOWAGE <= age < UPAGE ->
  exists v, hx_avg_at self sex age = Ok v.
Proof.
  intros Hs Ha. unfold hx_avg_at. rewrite (hx_get_valid sex Hs). cbn [rbind].
  pose proof (fits_low Hfits). pose proof (fits_up Hfits).
  destruct (ix_In (hx_of self sex) age) as [h0 ->];
    [apply (fits_hx Hfits); trivial; lia|].
  destruct (ix_In (hx_of self sex) (age + 1)) as [h1 ->];
    [apply (fits_hx Hfits); trivial; lia|].
  simpl. eauto.
Qed.

Lemma create_lookup_table_returns intrest :
  exists l,
    lookup_value LOWAGE UPAGE prae_to_continuous round self intrest = Ok l /\
    lookup_fits LOWAGE UPAGE adj_m adj_f l.
Proof.
  unfold lookup_value, create_lookup_table.
  change (combine (repeat MALE (Z.to_nat (UPAGE - LOWAGE)) ++
                   repeat FEMALE (Z.to_nat (UPAGE - LOWAGE)))
                  (range LOWAGE UPAGE ++ range LOWAGE UPAGE))
    with (lookup_keys LOWAGE UPAGE).
  set (keys := lookup_keys LOWAGE UPAGE).
  assert (Hkeys : forall k, In k keys ->
                    sex_in_MF (fst k) = true /\ LOWAGE <= snd k < UPAGE).
  { intros [g a] Hk. now apply In_lookup_keys in Hk. }
  rewrite bind_run. unfold emit at 1, modify at 1. rewrite bind_run.
  set (st0 := {| self_pension_age := _ |}).
  pose proof (tame_mapM
    (fun k => ay_avg prae_to_continuous round self (snd k) (fst k) intrest
                "partner") keys
    (fun k => tame_ay_avg prae_to_continuous round self _ _ _ _) st0) as [Hv _].
  destruct (mapM_returns
    (fun k => ay_avg prae_to_continuous round self (snd k) (fst k) intrest
                "partner") keys
    (fun k => tame_ay_avg prae_to_continuous round self _ _ _ _))
    as [ay [Hay Hlay]].
  { intros k Hk. destruct (Hkeys k Hk). now apply ay_avg_returns. }
  rewrite Hay in Hv.
  destruct (mapM _ keys st0) as [r1 st1]. simpl in Hv. subst r1.
  rewrite bind_run, lift_run.
  destruct (rmapM_returns (fun k => hx_avg_at self (fst k) (snd k)) keys)
    as [hxa [-> Hlhx]].
  { intros k Hk. destruct (Hkeys k Hk). now apply hx_avg_at_returns. }
  rewrite bind_run, lift_run.
  rewrite (rmapM_total (fun k => partner_alpha1 self (fst k))
             (fun k => CX1 (partner_adj adj_m adj_f (fst k))) keys).
  2:{ intros k Hk. destruct (Hkeys k Hk) as [Hs _].
      unfold partner_alpha1. now rewrite (fits_adj Hfits _ Hs). }
  rewrite bind_run, lift_run.
  rewrite (rmapM_total (fun k => partner_factor self (fst k))
             (fun k => nmul (nmul (fnett (partner_adj adj_m adj_f (fst k)))
                                  (fcorr (partner_adj adj_m adj_f (fst k))))
                            (fOTS (partner_adj adj_m adj_f (fst k)))) keys).
  2:{ intros k Hk. destruct (Hkeys k Hk) as [Hs _].
      unfold partner_factor. now rewrite (fits_adj Hfits _ Hs). }
  eexists. split; [reflexivity|].
  destruct (zip_rows_spec (fun g => CX1 (partner_adj adj_m adj_f g)) keys ay hxa
              (map (fun k => nmul (nmul (fnett (partner_adj adj_m adj_f (fst k)))
                                        (fcorr (partner_adj adj_m adj_f (fst k))))
                                  (fOTS (partner_adj adj_m adj_f (fst k)))) keys))
    as [Ha Hb]; trivial; [apply length_map|].
  split.
  - intros r Hr _. now apply Ha.
  - intros sex a Hs Hage. apply Hb. now apply In_lookup_keys.
Qed.

Lemma cf_defined_partner_returns sex pension_age :
  sex_in_MF sex = true ->
  lo <= pension_age + CX1 (partner_adj adj_m adj_f sex) <= MAXAGE ->
  lo <= pension_age + CX2 (partner_adj adj_m adj_f sex) <= MAXAGE ->
  lo <= beneficiary_age self adj_m adj_f sex pension_age <= MAXAGE ->
  exists c, cf_defined_partner self pension_age sex pension_age no_kwargs = Ok c.
Proof.
  intros Hs H1 H2 Hb. unfold cf_defined_partner. rewrite Hs.
  pose proof (other_sex_valid sex Hs) as Hos.
  rewrite (lx_get_valid sex Hs). cbn [rbind].
  change (if String.eqb sex MALE then FEMALE else MALE) with (other_sex sex).
  rewrite (lx_get_valid _ Hos). cbn [rbind].
  rewrite (fits_adj Hfits _ Hs). cbn [rbind].
  rewrite (fits_adj Hfits _ Hos). cbn [rbind].
  change (if String.eqb sex MALE then 1 else -1) with (sign_of sex).
  change (pension_age - sign_of sex * delta self
          + CX3 (partner_adj adj_m adj_f (other_sex sex)))
    with (beneficiary_age self adj_m adj_f sex pension_age).
  rewrite Z.sub_diag.
  pose proof (fits_lx Hfits _ _ Hos Hb) as Inb.
  pose proof (fits_lx Hfits _ _ Hs H1) as In1.
  pose proof (fits_lx Hfits _ _ Hs H2) as In2.
  destruct (cf_annuity_returns _ _ Inb) as [ay ->]. cbn [rbind].
  destruct (cf_annuity_returns _ _ In1) as [ax ->]. cbn [rbind].
  destruct (cf_annuity_returns _ _ In2) as [f2 ->]. cbn [rbind].
  destruct (ix_In _ _ In1) as [t1 ->]. cbn [rbind].
  destruct (ix_In _ _ In2) as [t2 ->]. cbn [rbind].
  eauto.
Qed.

Lemma undefined_partner_payments_returns l hxv age sex pension_age :
  lookup_fits LOWAGE UPAGE adj_m adj_f l ->
  call_fits MAXAGE LOWAGE UPAGE self lo adj_m adj_f age sex pension_age ->
  exists c,
    undefined_partner_payments MAXAGE self l hxv age sex pension_age = Ok c /\
    cf_age c = Some age /\ cf_pension_age c = Some pension_age.
Proof.
  intros [Hl1 Hl2] [Hs Ha Ha1 Hp Hp1 Hp2 Hpb].
  unfold undefined_partner_payments.
  destruct (Hl2 sex age Hs Ha) as [r0 [Hr0 [Hg0 Hage0]]].
  (* lookup.ix[sex] *)
  unfold lookup_ix_sex.
  destruct (filter (fun r => String.eqb (lr_gender r) sex) l) as [|r rows] eqn:Hrows.
  { assert (Hin : In r0 (filter (fun r => String.eqb (lr_gender r) sex) l)).
    { apply filter_In. split; trivial. apply String.eqb_eq. exact Hg0. }
    rewrite Hrows in Hin. contradiction. }
  cbn [rbind].
  (* the deferred death probabilities *)
  destruct (rmapM_returns
              (fun r1 => nqx MAXAGE self (age + lr_alpha1 r1) sex
                           (lr_age r1 - age + 1))
              (lookup_slice (r :: rows) age (pension_age - 1)))
    as [nq [-> _]].
  { intros r1 Hr1. unfold lookup_slice in Hr1. apply filter_In in Hr1.
    destruct Hr1 as [Hin Hslice]. rewrite <- Hrows in Hin.
    apply filter_In in Hin. destruct Hin as [Hin Hg].
    apply String.eqb_eq in Hg. apply andb_true_iff in Hslice.
    destruct Hslice as [Hge _]. apply Z.leb_le in Hge.
    assert (Hgv : sex_in_MF (lr_gender r1) = true) by (now rewrite Hg).
    rewrite (Hl1 r1 Hin Hgv), Hg.
    apply nqx_returns; trivial. lia. }
  cbn [rbind].
  (* alpha1 at (sex, age) *)
  unfold lookup_alpha1.
  destruct (find (fun r1 => String.eqb (lr_gender r1) sex && Z.eqb (lr_age r1) age) l)
    as [r1|] eqn:Hfind.
  2:{ apply find_none with (x := r0) in Hfind; trivial.
      rewrite Hg0, Hage0, String.eqb_refl, Z.eqb_refl in Hfind. discriminate. }
  apply find_some in Hfind. destruct Hfind as [Hin1 Hm].
  apply andb_true_iff in Hm. destruct Hm as [Hg1 _].
  apply String.eqb_eq in Hg1.
  assert (Hgv : sex_in_MF (lr_gender r1) = true) by (now rewrite Hg1).
  cbn [rbind]. rewrite (Hl1 r1 Hin1 Hgv), Hg1.
  destruct (npx_returns (age + CX1 (partner_adj adj_m adj_f sex)) sex (pension_age - age)
              Hs Ha1) as [prob ->]; [lia|].
  cbn [rbind].
  destruct (cf_defined_partner_returns sex pension_age Hs Hp1 Hp2 Hpb)
    as [c ->].
  cbn [rbind]. eexists. split; [reflexivity|]. split; reflexivity.
Qed.

Lemma hx_at_pensionage_returns sex pension_age kw st :
  sex_in_MF sex = true -> lo <= pension_age <= MAXAGE ->
  exists v, fst (hx_at_pensionage self sex pension_age kw st) = Ok v.
Proof.
  intros Hs Hp. unfold hx_at_pensionage.
  destruct (match kw_hx_pd kw with Some v => v | None => None end) as [h|];
    [|eexists; reflexivity].
  destruct (String.eqb h "one"); [eexists; reflexivity|].
  destruct (String.eqb h "ukv").
  - destruct (ukv_lookup self sex pension_age kw); eexists; reflexivity.
  - rewrite lift_run, (hx_get_valid sex Hs). cbn [rbind fst].
    apply ix_In. now apply (fits_hx Hfits).
Qed.

Lemma cf_undefined_partner_returns age sex pension_age kw st :
  call_fits MAXAGE LOWAGE UPAGE self lo adj_m adj_f age sex pension_age ->
  cache_fits LOWAGE UPAGE adj_m adj_f (used_intrest kw) st ->
  let st2 := snd (hx_at_pensionage self sex pension_age kw
                    (snd (intrest_or_default kw st))) in
  exists hxv c st' l,
    fst (hx_at_pensionage self sex pension_age kw
           (snd (intrest_or_default kw st))) = Ok hxv /\
    cf_undefined_partner MAXAGE LOWAGE UPAGE prae_to_continuous round self
      age sex pension_age kw st = (Ok c, st') /\
    self_lookup st' = Some l /\
    undefined_partner_payments MAXAGE self l hxv age sex pension_age = Ok c /\
    cf_age c = Some age /\ cf_pension_age c = Some pension_age /\
    lookup_fits LOWAGE UPAGE adj_m adj_f l /\
    exists tl, trace st' = trace st2 ++ tl.
Proof.
  intros Hcall Hcache. cbv zeta.
  pose proof (fits_sex _ _ _ Hcall) as Hs.
  remember (cf_undefined_partner MAXAGE LOWAGE UPAGE prae_to_continuous round
              self age sex pension_age kw st) as run eqn:Hrun.
  unfold cf_undefined_partner in Hrun. rewrite bind_run, Hs in Hrun.
  unfold ret at 1 in Hrun. rewrite bind_run in Hrun.
  destruct (intrest_or_default_run kw st) as [st1 [E1 Q1]].
  rewrite E1 in *. cbn [snd]. rewrite bind_run in Hrun.
  destruct (hx_at_pensionage_returns sex pension_age kw st1 Hs
              (fits_pension_age _ _ _ Hcall)) as [hxv Hhx].
  destruct (tame_hx_at_pensionage self sex pension_age kw st1) as [_ Q2].
  destruct (hx_at_pensionage self sex pension_age kw st1) as [r2 st2].
  cbn [fst snd] in *. subst r2.
  pose proof (quiet_trans _ _ _ Q1 Q2) as Q.
  rewrite bind_run, lift_run, (fits_adj Hfits _ Hs), bind_run in Hrun.
  exists hxv.
  destruct (rate_eq_attr (used_intrest kw) (self_intrest st)) eqn:Hhit.
  - destruct (Hcache Hhit) as [l [Hl Hlf]].
    rewrite cached_lookup_hit in Hrun by (now rewrite (q_intrest _ _ Q)).
    rewrite (q_lookup _ _ Q), Hl in Hrun. rewrite lift_run in Hrun.
    destruct (undefined_partner_payments_returns l hxv age sex pension_age
                Hlf Hcall) as [c [Hc [Hc1 Hc2]]].
    rewrite Hc in Hrun. exists c, st2, l.
    split; [reflexivity|]. split; [exact Hrun|].
    split; [now rewrite (q_lookup _ _ Q)|].
    split; [exact Hc|]. split; [exact Hc1|]. split; [exact Hc2|].
    split; [exact Hlf|]. exists []. now rewrite app_nil_r.
  - rewrite cached_lookup_miss in Hrun by (now rewrite (q_intrest _ _ Q)).
    destruct (create_lookup_table_run LOWAGE UPAGE prae_to_continuous round
                self (used_intrest kw) st2) as [Hv Q3].
    destruct (create_lookup_table_returns (used_intrest kw)) as [l [Hl Hlf]].
    rewrite Hl in Hv.
    destruct (create_lookup_table LOWAGE UPAGE prae_to_continuous round self
                (used_intrest kw) st2) as [r3 st3].
    cbn [fst snd] in *. subst r3. rewrite lift_run in Hrun.
    destruct (undefined_partner_payments_returns l hxv age sex pension_age
                Hlf Hcall) as [c [Hc [Hc1 Hc2]]].
    rewrite Hc in Hrun. exists c. eexists. exists l.
    split; [reflexivity|]. split; [exact Hrun|].
    split; [reflexivity|].
    split; [exact Hc|]. split; [exact Hc1|]. split; [exact Hc2|].
    split; [exact Hlf|].
    destruct (q_trace _ _ Q3) as [tr [Ht _]]. cbn. rewrite Ht.
    unfold emitted. cbn. rewrite <- app_assoc. eexists. reflexivity.
Qed.

Lemma cache_fits_fresh intrest :
  cache_fits LOWAGE UPAGE adj_m adj_f intrest fresh.
Proof. intros H. discriminate H. Qed.

(** After a call that fits, the slot holds a table that fits, whatever the
    next interest is. *)
Lemma cache_fits_preserved age sex pension_age kw st intrest :
  call_fits MAXAGE LOWAGE UPAGE self lo adj_m adj_f age sex pension_age ->
  cache_fits LOWAGE UPAGE adj_m adj_f (used_intrest kw) st ->
  cache_fits LOWAGE UPAGE adj_m adj_f intrest
    (snd (cf_undefined_partner MAXAGE LOWAGE UPAGE prae_to_continuous round
            self age sex pension_age kw st)).
Proof.
  intros Hcall Hcache _.
  destruct (cf_undefined_partner_returns age sex pension_age kw st Hcall Hcache)
    as (hxv & c & st' & l & _ & Hrun & Hl & _ & _ & _ & Hlf & _).
  rewrite Hrun. exists l. now split.
Qed.

(** The dispatcher on the three undefined-partner products, without an
    interest: a record tagged with the product, after the warning. *)
Lemma cf_undefined_products_without_intrest id age sex pension_age st :
  is_undefined_partner_id id = true ->
  call_fits MAXAGE LOWAGE UPAGE self lo adj_m adj_f age sex pension_age ->
  cache_fits LOWAGE UPAGE adj_m adj_f (Flat (3 # 1)) st ->
  exists c st',
    cf MAXAGE LOWAGE UPAGE prae_to_continuous round self id age sex
      pension_age no_kwargs st = (Ok c, st') /\
    cf_insurance_id c = Some id /\
    In (Printed msg_default_intrest) (trace st').
Proof.
  intros Hid Hcall Hcache.
  assert (Hsw : exists h,
    switcher MAXAGE LOWAGE UPAGE prae_to_continuous round self id
      = Some (cf_undefined_partner MAXAGE LOWAGE UPAGE prae_to_continuous
                round self, Some h)).
  { unfold is_undefined_partner_id in Hid. cbn [mem_string] in Hid.
    repeat (apply orb_true_iff in Hid; destruct Hid as [Hid|Hid]);
      try discriminate; apply String.eqb_eq in Hid; subst id;
      eexists; reflexivity. }
  destruct Hsw as [h Hsw].
  unfold cf. rewrite Hsw. cbn [kw_hx_pd no_kwargs].
  rewrite bind_run. unfold emit at 1, modify at 1. rewrite bind_run.
  set (st0 := {| self_pension_age := _ |}).
  destruct (cf_undefined_partner_returns age sex pension_age
              (with_hx_pd no_kwargs (Some h)) st0 Hcall)
    as (hxv & c & st' & l & _ & Hrun & _ & Hpay & _ & _ & _ & tl & Htl).
  { exact Hcache. }
  rewrite Hrun. eexists. eexists. split; [reflexivity|].
  unfold undefined_partner_payments in Hpay.
  split.
  - unfold merge_two_dicts. cbn [cf_insurance_id].
    destruct (cf_insurance_id c) eqn:E; trivial.
    revert Hpay. unfold rbind.
    repeat match goal with
           | |- context [match ?x with Ok _ => _ | Raise _ => _ end] =>
               destruct x; try discriminate
           end.
    intros H. injection H as <-. discriminate E.
  - rewrite Htl.
    destruct (tame_hx_at_pensionage self sex pension_age
                (with_hx_pd no_kwargs (Some h))
                (snd (intrest_or_default (with_hx_pd no_kwargs (Some h)) st0)))
      as [_ Q].
    destruct (q_trace _ _ Q) as [tr [Ht _]]. rewrite Ht.
    cbn. rewrite <- !app_assoc.
    apply in_or_app; right. apply in_or_app; right.
    apply in_or_app; left. now left.
Qed.

(** C6.  On a tariff that fits its tables, for a call that fits the tariff
    and passes no [intrest] (or passes [None]), [cf_undefined_partner]
    prints the warning about the default, works with 3 per cent and
    returns a cash-flow record for the given age and pension age: the
    cached key afterwards equals 3, the table in the slot is the one the
    payments are computed from, and on a cache miss it is the table built
    for 3 per cent. *)
Theorem missing_intrest_defaults_to_3pct (age : Z) (sex : string)
    (pension_age : Z) (kw : kwargs) (st : state) :
  call_fits MAXAGE LOWAGE UPAGE self lo adj_m adj_f age sex pension_age ->
  cache_fits LOWAGE UPAGE adj_m adj_f (Flat (3 # 1)) st ->
  kw_intrest kw = None \/ kw_intrest kw = Some None ->
  exists c st',
    cf_undefined_partner MAXAGE LOWAGE UPAGE prae_to_continuous round self
      age sex pension_age kw st = (Ok c, st') /\
    cf_age c = Some age /\ cf_pension_age c = Some pension_age /\
    (exists tl, trace st' = trace st ++ Printed msg_default_intrest :: tl) /\
    rate_eq_attr (Flat (3 # 1)) (self_intrest st') = true /\
    exists l hxv,
      self_lookup st' = Some l /\
      undefined_partner_payments MAXAGE self l hxv age sex pension_age = Ok c /\
      (rate_eq_attr (Flat (3 # 1)) (self_intrest st) = false ->
       lookup_value LOWAGE UPAGE prae_to_continuous round self (Flat (3 # 1))
         = Ok l).
Proof.
  intros Hcall Hcache Hkw.
  assert (Hused : used_intrest kw = Flat (3 # 1))
    by (unfold used_intrest; destruct Hkw as [-> | ->]; reflexivity).
  assert (Hdef : intrest_or_default kw st
                 = (Ok (Flat (3 # 1)), emitted (Printed msg_default_intrest) st))
    by (unfold intrest_or_default; destruct Hkw as [-> | ->]; reflexivity).
  destruct (cf_undefined_partner_returns age sex pension_age kw st Hcall)
    as (hxv & c & st' & l & Hhx & Hrun & Hl & Hpay & Hc1 & Hc2 & _ & tl & Htl).
  { now rewrite Hused. }
  exists c, st'. split; [exact Hrun|]. split; [exact Hc1|]. split; [exact Hc2|].
  pose proof (cf_undefined_partner_cache MAXAGE LOWAGE UPAGE
                prae_to_continuous round self age sex pension_age kw st) as Hc.
  cbv zeta in Hc. rewrite Hrun, Hused in Hc. cbn [fst snd] in Hc.
  destruct (Hc eq_refl) as (_ & _ & _ & _ & _ & Hcase).
  split; [|split].
  - rewrite Hdef in Htl. cbn [snd] in Htl.
    destruct (tame_hx_at_pensionage self sex pension_age kw
                (emitted (Printed msg_default_intrest) st)) as [_ Q].
    destruct (q_trace _ _ Q) as [tr [Ht _]]. rewrite Htl, Ht.
    unfold emitted. cbn. rewrite <- !app_assoc. eexists. reflexivity.
  - destruct (rate_eq_attr (Flat (3 # 1)) (self_intrest st)) eqn:Hhit.
    + destruct Hcase as (_ & _ & ->). exact Hhit.
    + destruct Hcase as (_ & -> & _). reflexivity.
  - exists l, hxv. split; [exact Hl|]. split; [exact Hpay|].
    intros Hmiss. rewrite Hmiss in Hcase.
    destruct Hcase as (_ & _ & l' & Hl' & Hsl). congruence.
Qed.

(** C7.  On a tariff that fits its tables, for a call that fits the tariff
    with [hx_pd='ukv'] whose lookup in the exchange table raises (no table,
    no such key, a key of the wrong type), [cf_undefined_partner] prints
    the warning, continues with the exchange factor 1 and returns a
    cash-flow record. *)
Theorem failed_ukv_lookup_falls_back_to_1 (age : Z) (sex : string)
    (pension_age : Z) (kw : kwargs) (st : state) (e : exn) :
  call_fits MAXAGE LOWAGE UPAGE self lo adj_m adj_f age sex pension_age ->
  cache_fits LOWAGE UPAGE adj_m adj_f (used_intrest kw) st ->
  kw_hx_pd kw = Some (Some "ukv") ->
  ukv_lookup self sex pension_age kw = Raise e ->
  exists c st' l,
    cf_undefined_partner MAXAGE LOWAGE UPAGE prae_to_continuous round self
      age sex pension_age kw st = (Ok c, st') /\
    cf_age c = Some age /\ cf_pension_age c = Some pension_age /\
    (exists hd tl, trace st' = trace st ++ hd ++ Printed msg_default_ukv :: tl) /\
    self_lookup st' = Some l /\
    undefined_partner_payments MAXAGE self l (of_Z 1) age sex pension_age
      = Ok c.
Proof.
  intros Hcall Hcache Hkw Hukv.
  destruct (cf_undefined_partner_returns age sex pension_age kw st Hcall Hcache)
    as (hxv & c & st' & l & Hhx & Hrun & Hl & Hpay & Hc1 & Hc2 & _ & tl & Htl).
  assert (Hx : forall s, hx_at_pensionage self sex pension_age kw s
                         = (Ok (of_Z 1), emitted (Printed msg_default_ukv) s)).
  { intros s. unfold hx_at_pensionage. rewrite Hkw, Hukv. reflexivity. }
  rewrite Hx in Hhx, Htl. cbn [fst snd] in Hhx, Htl. injection Hhx as <-.
  exists c, st', l. repeat split; trivial.
  destruct (intrest_or_default_run kw st) as [st1 [E1 Q1]].
  rewrite E1 in Htl. cbn [snd] in Htl.
  destruct (q_trace _ _ Q1) as [tr [Ht _]].
  exists tr, tl. rewrite Htl. unfold emitted. cbn. rewrite Ht.
  now rewrite <- !app_assoc.
Qed.

End Returns.

(** The ways the lookup of line 293 fails. *)
Lemma ukv_lookup_failures (self : LifeTable) (sex : string) (pension_age : Z)
    (kw : kwargs) :
  (ukv self = None ->
   ukv_lookup self sex pension_age kw
     = Raise (AttributeError "'NoneType' object has no attribute 'ix'")) /\
  (forall tbl, ukv self = Some tbl -> kw_intrest kw = None ->
   ukv_lookup self sex pension_age kw = Raise (KeyError (KStr "intrest"))) /\
  (forall tbl l, ukv self = Some tbl -> kw_intrest kw = Some (Some (Curve l)) ->
   ukv_lookup self sex pension_age kw
     = Raise (TypeError "unhashable type: 'list'")) /\
  (forall tbl q, ukv self = Some tbl -> kw_intrest kw = Some (Some (Flat q)) ->
   (forall e, In e tbl ->
      String.eqb (fst (fst (fst e))) sex && Z.eqb (snd (fst (fst e))) pension_age
        && Qeq_bool (snd (fst e)) q = false) ->
   ukv_lookup self sex pension_age kw = Raise (KeyError (KInt pension_age))).
Proof.
  unfold ukv_lookup. repeat split.
  - now intros ->.
  - now intros tbl -> ->.
  - now intros tbl l -> ->.
  - intros tbl q -> -> H.
    destruct (find _ tbl) as [e|] eqn:E; trivial.
    apply find_some in E. destruct E as [Hin He].
    rewrite (H e Hin) in He. discriminate.
Qed.

Lemma Tariff_fits :
  tariff_fits Tariff.maxage Tariff.lowage Tariff.upage Tariff.table 0
    (Tariff.adj 0) (Tariff.adj 0).
Proof.
  constructor.
  - unfold Tariff.maxage. lia.
  - intros sex a Hs Ha. unfold Tariff.maxage in Ha.
    assert (Hc : a = 0 \/ a = 1 \/ a = 2 \/ a = 3 \/ a = 4 \/ a = 5 \/ a = 6)
      by lia.
    destruct (sex_in_MF_cases sex Hs) as [->| ->]; simpl; intuition.
  - intros sex a Hs Ha. unfold Tariff.maxage in Ha.
    assert (Hc : a = 0 \/ a = 1 \/ a = 2 \/ a = 3 \/ a = 4 \/ a = 5 \/ a = 6)
      by lia.
    destruct (sex_in_MF_cases sex Hs) as [->| ->]; simpl; intuition.
  - intros sex Hs. destruct (sex_in_MF_cases sex Hs) as [->| ->]; reflexivity.
  - unfold Tariff.lowage. lia.
  - unfold Tariff.upage, Tariff.maxage. lia.
  - intros sex a Hs Ha. unfold Tariff.lowage, Tariff.upage in Ha.
    unfold Tariff.maxage.
    destruct (sex_in_MF_cases sex Hs) as [->| ->];
      unfold beneficiary_age; simpl; lia.
Qed.

Lemma Tariff_call_fits :
  call_fits Tariff.maxage Tariff.lowage Tariff.upage Tariff.table 0
    (Tariff.adj 0) (Tariff.adj 0) 1 "M" 3.
Proof.
  constructor; try reflexivity;
    unfold Tariff.maxage, Tariff.lowage, Tariff.upage, beneficiary_age;
    simpl; lia.
Qed.

Lemma missing_intrest_defaults_to_3pct_witness :
  exists c st',
    Tariff.undefined_partner 1 "M" 3 no_kwargs fresh = (Ok c, st') /\
    cf_age c = Some 1 /\ cf_pension_age c = Some 3 /\
    (exists tl, trace st' = trace fresh ++ Printed msg_default_intrest :: tl) /\
    rate_eq_attr (Flat (3 # 1)) (self_intrest st') = true /\
    exists l hxv,
      self_lookup st' = Some l /\
      undefined_partner_payments Tariff.maxage Tariff.table l hxv 1 "M" 3
        = Ok c /\
      (rate_eq_attr (Flat (3 # 1)) (self_intrest fresh) = false ->
       lookup_value Tariff.lowage Tariff.upage Tariff.prae Tariff.round_id
         Tariff.table (Flat (3 # 1)) = Ok l).
Proof.
  apply (missing_intrest_defaults_to_3pct Tariff.maxage Tariff.lowage
           Tariff.upage Tariff.prae Tariff.round_id Tariff.table 0
           (Tariff.adj 0) (Tariff.adj 0) Tariff_fits 1 "M" 3 no_kwargs fresh).
  - exact Tariff_call_fits.
  - intros H. discriminate H.
  - left. reflexivity.
Defined.

Lemma failed_ukv_lookup_falls_back_to_1_witness :
  exists c st' l,
    Tariff.undefined_partner 1 "M" 3 Tariff.ukv_kwargs fresh = (Ok c, st') /\
    cf_age c = Some 1 /\ cf_pension_age c = Some 3 /\
    (exists hd tl, trace st' = trace fresh ++ hd ++ Printed msg_default_ukv :: tl) /\
    self_lookup st' = Some l /\
    undefined_partner_payments Tariff.maxage Tariff.table l (of_Z 1) 1 "M" 3
      = Ok c.
Proof.
  apply (failed_ukv_lookup_falls_back_to_1 Tariff.maxage Tariff.lowage
           Tariff.upage Tariff.prae Tariff.round_id Tariff.table 0
           (Tariff.adj 0) (Tariff.adj 0) Tariff_fits 1 "M" 3 Tariff.ukv_kwargs fresh
           (AttributeError "'NoneType' object has no attribute 'ix'")).
  - exact Tariff_call_fits.
  - intros H. discriminate H.
  - reflexivity.
  - reflexivity.
Defined.

(** ** Laws of the survival and death probabilities *)

Section MortalityLaws.

Variable MAXAGE : Z.
Variable self : LifeTable.

Lemma finite_on_survivors (tbl : series) (lo hi a : Z) :
  finite_on tbl lo hi -> lo <= a <= hi ->
  lookup_label tbl a = Some (fin (survivors tbl a)).
Proof.
  intros Hfin Ha. destruct (Hfin a Ha) as [x Hx].
  unfold survivors. rewrite Hx. reflexivity.
Qed.

Lemma npx_survivors (age : Z) (sex : string) (k : Z) :
  sex_in_MF sex = true ->
  finite_on (lx_of self sex) (Z.min age MAXAGE) MAXAGE -> 0 <= k ->
  npx MAXAGE self age sex k =
    Ok (fin (survivors (lx_of self sex) (Z.min (age + k) MAXAGE) /
             survivors (lx_of self sex) (Z.min age MAXAGE))).
Proof.
  intros Hsex Hfin Hk. rewrite npx_unfold by assumption. unfold ix.
  rewrite (finite_on_survivors _ _ _ (Z.min (age + k) MAXAGE) Hfin) by lia.
  rewrite (finite_on_survivors _ _ _ (Z.min age MAXAGE) Hfin) by lia.
  reflexivity.
Qed.

Lemma finite_on_later (tbl : series) (lo lo' hi : Z) :
  finite_on tbl lo hi -> lo <= lo' -> finite_on tbl lo' hi.
Proof. intros H Hle a Ha. apply H. lia. Qed.

(** X1.  Over no years everybody survives: where the life table of the sex
    holds a number other than 0 at the (clamped) age, [npx(age, sex, 0)]
    is 1. *)
Theorem npx_zero_years (age : Z) (sex : string) (x : R) :
  sex_in_MF sex = true ->
  lookup_label (lx_of self sex) (Z.min age MAXAGE) = Some (fin x) ->
  x <> 0%R ->
  npx MAXAGE self age sex 0 = Ok (fin 1).
Proof.
  intros Hsex Hx Hne. rewrite npx_unfold by assumption.
  replace (age + 0) with age by lia. unfold ix. rewrite Hx. simpl.
  unfold fin. do 2 f_equal. now field.
Qed.

(** X2.  Survival probabilities chain: on a table with numbers other than 0
    at the ages read, surviving [m + n] years from [age] is surviving [m]
    years from [age] and then [n] years from [age + m], clamping
    included. *)
Theorem npx_multiplicative (age : Z) (sex : string) (m n : Z) :
  sex_in_MF sex = true ->
  finite_on (lx_of self sex) (Z.min age MAXAGE) MAXAGE ->
  0 <= m -> 0 <= n ->
  survivors (lx_of self sex) (Z.min age MAXAGE) <> 0%R ->
  survivors (lx_of self sex) (Z.min (age + m) MAXAGE) <> 0%R ->
  exists p q,
    npx MAXAGE self age sex m = Ok (fin p) /\
    npx MAXAGE self (age + m) sex n = Ok (fin q) /\
    npx MAXAGE self age sex (m + n) = Ok (fin (p * q)).
Proof.
  intros Hsex Hfin Hm Hn H0 H1.
  rewrite !npx_survivors; trivial; try lia.
  2:{ apply (finite_on_later _ _ _ _ Hfin). lia. }
  do 2 eexists. split; [reflexivity|]. split; [reflexivity|].
  replace (age + m + n) with (age + (m + n)) by lia.
  unfold fin. do 2 f_equal. now field.
Qed.

Lemma nqx_survivors (age : Z) (sex : string) (k : Z) :
  sex_in_MF sex = true ->
  finite_on (lx_of self sex) (Z.min age MAXAGE) MAXAGE -> 1 <= k ->
  nqx MAXAGE self age sex k =
    Ok (fin (survivors (lx_of self sex) (Z.min (age + (k - 1)) MAXAGE) /
             survivors (lx_of self sex) (Z.min age MAXAGE) -
             survivors (lx_of self sex) (Z.min (age + k) MAXAGE) /
             survivors (lx_of self sex) (Z.min age MAXAGE))).
Proof.
  intros Hsex Hfin Hk. unfold nqx.
  rewrite !npx_survivors by (trivial; lia). reflexivity.
Qed.

Lemma nqx_partial_sums (age : Z) (sex : string) (n : nat) :
  sex_in_MF sex = true ->
  finite_on (lx_of self sex) (Z.min age MAXAGE) MAXAGE ->
  forall (j : Z) (acc : R), 1 <= j ->
  exists qs,
    rmapM (fun k => nqx MAXAGE self age sex k) (zrange_from j n) = Ok qs /\
    fold_left nadd qs (fin acc) =
      fin (acc +
           survivors (lx_of self sex) (Z.min (age + (j - 1)) MAXAGE) /
           survivors (lx_of self sex) (Z.min age MAXAGE) -
           survivors (lx_of self sex) (Z.min (age + (j - 1 + Z.of_nat n)) MAXAGE) /
           survivors (lx_of self sex) (Z.min age MAXAGE)).
Proof.
  intros Hsex Hfin. induction n as [|n IH]; intros j acc Hj.
  - exists []. split; [reflexivity|]. simpl.
    replace (j - 1 + 0) with (j - 1) by lia. unfold fin. f_equal. lra.
  - cbn [zrange_from rmapM]. rewrite nqx_survivors by (trivial; lia).
    destruct (IH (j + 1)
                (acc +
                 (survivors (lx_of self sex) (Z.min (age + (j - 1)) MAXAGE) /
                  survivors (lx_of self sex) (Z.min age MAXAGE) -
                  survivors (lx_of self sex) (Z.min (age + j) MAXAGE) /
                  survivors (lx_of self sex) (Z.min age MAXAGE)))%R)
      as [qs [Hqs Hsum]]; [lia|].
    rewrite Hqs. eexists. split; [reflexivity|].
    cbn [fold_left]. cbn [nadd lift2 fin]. fold (fin (acc +
                 (survivors (lx_of self sex) (Z.min (age + (j - 1)) MAXAGE) /
                  survivors (lx_of self sex) (Z.min age MAXAGE) -
                  survivors (lx_of self sex) (Z.min (age + j) MAXAGE) /
                  survivors (lx_of self sex) (Z.min age MAXAGE)))%R).
    rewrite Hsum.
    replace (j + 1 - 1) with j by lia.
    replace (j - 1 + Z.of_nat (S n)) with (j + Z.of_nat n) by lia.
    unfold fin. f_equal. lra.
Qed.

(** X3.  The deferred death probabilities add up: on a table with numbers
    at the ages read and survivors other than 0 at the age, the sum of
    [nqx(age, sex, k)] over the years k = 1, ..., n is 1 minus
    [npx(age, sex, n)]. *)
Theorem nqx_sums_to_death_within (age : Z) (sex : string) (n : nat) :
  sex_in_MF sex = true ->
  finite_on (lx_of self sex) (Z.min age MAXAGE) MAXAGE ->
  survivors (lx_of self sex) (Z.min age MAXAGE) <> 0%R ->
  exists qs p,
    rmapM (fun k => nqx MAXAGE self age sex k) (zrange_from 1 n) = Ok qs /\
    npx MAXAGE self age sex (Z.of_nat n) = Ok (fin p) /\
    fold_left nadd qs (of_Z 0) = fin (1 - p).
Proof.
  intros Hsex Hfin H0.
  destruct (nqx_partial_sums age sex n Hsex Hfin 1 0%R) as [qs [Hqs Hsum]];
    [lia|].
  exists qs. eexists. split; [exact Hqs|].
  split; [apply npx_survivors; trivial; lia|].
  change (of_Z 0) with (fin 0). rewrite Hsum.
  replace (1 - 1 + Z.of_nat n) with (Z.of_nat n) by lia.
  replace (age + (1 - 1)) with age by lia.
  unfold fin. f_equal. now field.
Qed.

(** X4.  From the maximum age on nobody dies: with a number other than 0
    at the maximum age, [qx] is 0 for every age of at least [MAXAGE], and so
    is [nqx] for every year. *)
Theorem no_deaths_from_maxage (age : Z) (sex : string) (x : R) :
  sex_in_MF sex = true ->
  lookup_label (lx_of self sex) MAXAGE = Some (fin x) ->
  x <> 0%R -> MAXAGE <= age ->
  qx MAXAGE self age sex = Ok (fin 0) /\
  forall n, 1 <= n -> nqx MAXAGE self age sex n = Ok (fin 0).
Proof.
  intros Hsex Hx Hne Hage.
  assert (Hp : forall k, 0 <= k -> npx MAXAGE self age sex k = Ok (fin (x / x))).
  { intros k Hk. rewrite npx_unfold by assumption.
    replace (Z.min (age + k) MAXAGE) with MAXAGE by lia.
    replace (Z.min age MAXAGE) with MAXAGE by lia.
    unfold ix. rewrite Hx. reflexivity. }
  split.
  - unfold qx. rewrite Hp by lia. simpl. unfold fin. do 2 f_equal. now field.
  - intros n Hn. unfold nqx. rewrite !Hp by lia. simpl.
    unfold fin. do 2 f_equal. now field.
Qed.

End MortalityLaws.

Lemma Tariff_lx_finite (sex : string) (lo : Z) :
  0 <= lo -> finite_on (lx_of Tariff.table sex) lo Tariff.maxage.
Proof.
  intros Hlo a Ha. unfold Tariff.maxage in Ha.
  assert (Hcases : a = 0 \/ a = 1 \/ a = 2 \/ a = 3 \/ a = 4 \/ a = 5 \/ a = 6)
    by lia.
  unfold lx_of. destruct (String.eqb sex MALE);
    decompose [or] Hcases; subst a; eexists; reflexivity.
Qed.

Lemma npx_zero_years_witness :
  npx Tariff.maxage Tariff.table 2 "M" 0 = Ok (fin 1).
Proof.
  apply (npx_zero_years Tariff.maxage Tariff.table 2 "M" (IZR (970 + 0))).
  - reflexivity.
  - reflexivity.
  - apply not_0_IZR. lia.
Defined.

Lemma npx_multiplicative_witness :
  exists p q,
    npx Tariff.maxage Tariff.table 2 "M" 1 = Ok (fin p) /\
    npx Tariff.maxage Tariff.table (2 + 1) "M" 2 = Ok (fin q) /\
    npx Tariff.maxage Tariff.table 2 "M" (1 + 2) = Ok (fin (p * q)).
Proof.
  apply (npx_multiplicative Tariff.maxage Tariff.table 2 "M" 1 2).
  - reflexivity.
  - apply Tariff_lx_finite. vm_compute. discriminate.
  - lia.
  - lia.
  - change (IZR (970 + 0) <> 0%R). apply not_0_IZR. lia.
  - change (IZR (940 + 0) <> 0%R). apply not_0_IZR. lia.
Defined.

Lemma nqx_sums_to_death_within_witness :
  exists qs p,
    rmapM (fun k => nqx Tariff.maxage Tariff.table 2 "F" k) (zrange_from 1 3)
      = Ok qs /\
    npx Tariff.maxage Tariff.table 2 "F" (Z.of_nat 3) = Ok (fin p) /\
    fold_left nadd qs (of_Z 0) = fin (1 - p).
Proof.
  apply (nqx_sums_to_death_within Tariff.maxage Tariff.table 2 "F" 3).
  - reflexivity.
  - apply Tariff_lx_finite. vm_compute. discriminate.
  - change (IZR (970 + 5) <> 0%R). apply not_0_IZR. lia.
Defined.

Lemma no_deaths_from_maxage_witness :
  qx Tariff.maxage Tariff.table 8 "M" = Ok (fin 0) /\
  forall n, 1 <= n -> nqx Tariff.maxage Tariff.table 8 "M" n = Ok (fin 0).
Proof.
  apply (no_deaths_from_maxage Tariff.maxage Tariff.table 8 "M" (IZR (300 + 0))).
  - reflexivity.
  - reflexivity.
  - apply not_0_IZR. lia.
  - unfold Tariff.maxage. lia.
Defined.

(** ** The annuity on a life table *)

Lemma series_ext (a : series) :
  forall b, labels a = labels b -> values a = values b -> a = b.
Proof.
  induction a as [|[l x] a IH]; intros [|[l' y] b] Hl Hv;
    try discriminate; trivial.
  unfold labels, values in *. simpl in *.
  inversion Hl. inversion Hv. subst. f_equal. auto.
Qed.

Lemma nth_error_map2 (f : num -> num -> num) (a : list num) :
  forall b i,
    nth_error (map2 f a b) i =
      match nth_error a i, nth_error b i with
      | Some x, Some y => Some (f x y)
      | _, _ => None
      end.
Proof.
  induction a as [|x a IH]; intros [|y b] [|i]; simpl; trivial;
    try (destruct (nth_error a i); reflexivity).
Qed.

Lemma nth_error_zrange_from (n : nat) :
  forall t i,
    nth_error (zrange_from t n) i =
      if (i <? n)%nat then Some (t + Z.of_nat i) else None.
Proof.
  induction n as [|n IH]; intros t [|i]; simpl; trivial.
  - f_equal. lia.
  - rewrite IH. change (S i <? S n)%nat with (i <? n)%nat.
    destruct (i <? n)%nat; trivial. f_equal. lia.
Qed.

Lemma lookup_label_combine (vs : list num) :
  forall t i,
    lookup_label (combine (zrange_from t (List.length vs)) vs) (t + Z.of_nat i)
      = nth_error vs i.
Proof.
  induction vs as [|v vs IH]; intros t i; simpl.
  - now destruct i.
  - destruct i as [|i].
    + replace (t + Z.of_nat 0) with t by lia. now rewrite Z.eqb_refl.
    + destruct (Z.eqb_spec t (t + Z.of_nat (S i))) as [Heq|_]; [lia|].
      replace (t + Z.of_nat (S i)) with (t + 1 + Z.of_nat i) by lia.
      apply IH.
Qed.

Lemma lookup_label_Series (vs : list num) (i : nat) :
  lookup_label (Series vs) (Z.of_nat i) = nth_error vs i.
Proof. apply (lookup_label_combine vs 0 i). Qed.

Lemma lookup_label_None (s : series) (l : Z) :
  lookup_label s l = None -> ~ In l (labels s).
Proof.
  intros H Hin. destruct (lookup_label_In s l Hin) as [v Hv]. congruence.
Qed.

Lemma lookup_label_Some (s : series) (l : Z) (v : num) :
  lookup_label s l = Some v -> In l (labels s).
Proof.
  induction s as [|[k x] tl IH]; simpl; [discriminate|].
  destruct (Z.eqb_spec k l) as [->|Hne]; intros H; auto.
Qed.

Lemma nth_error_shift_up (vs : list num) (a i : nat) :
  (a <= List.length vs)%nat ->
  nth_error (values (shift (- Z.of_nat a) (Series vs))) i =
    if (i <? List.length vs)%nat then Some (nth (a + i) vs NaN) else None.
Proof.
  intros Ha. unfold shift. rewrite values_Series, labels_Series.
  assert (Hmoved :
    forall moved, List.length moved = List.length vs ->
      values (combine (zrange_from 0 (List.length vs)) moved) = moved).
  { intros moved Hm. apply values_combine. now rewrite length_zrange_from. }
  destruct a as [|a].
  - change (- Z.of_nat 0) with 0. cbn [Z.leb Z.compare Z.to_nat repeat app].
    rewrite firstn_all, Hmoved by reflexivity.
    destruct (Nat.ltb_spec i (List.length vs)) as [Hi|Hi].
    + apply nth_error_nth'. exact Hi.
    + apply nth_error_None. exact Hi.
  - destruct (Z.leb_spec 0 (- Z.of_nat (S a))) as [Hneg|_]; [lia|].
    replace (Z.to_nat (- - Z.of_nat (S a))) with (S a) by lia.
    rewrite Hmoved
      by (rewrite length_app, length_skipn, repeat_length; lia).
    destruct (Nat.ltb_spec i (List.length vs)) as [Hi|Hi].
    + destruct (Nat.lt_ge_cases i (List.length vs - S a)) as [Hin|Hout].
      * rewrite nth_error_app1 by (rewrite length_skipn; lia).
        rewrite nth_error_skipn. apply nth_error_nth'. lia.
      * rewrite nth_error_app2 by (rewrite length_skipn; lia).
        rewrite length_skipn, nth_error_repeat by lia.
        rewrite nth_overflow by lia. reflexivity.
    + apply nth_error_None.
      rewrite length_app, length_skipn, repeat_length. lia.
Qed.

Lemma nth_error_payments (d n i : nat) :
  (d <= n)%nat ->
  nth_error (repeat (of_Z 0) d ++ repeat (of_Z 1) (n - d)) i =
    if (i <? n)%nat
    then Some (if (i <? d)%nat then of_Z 0 else of_Z 1)
    else None.
Proof.
  intros Hd. destruct (Nat.ltb_spec i d) as [Hi|Hi].
  - rewrite nth_error_app1 by (rewrite repeat_length; lia).
    rewrite nth_error_repeat by lia.
    destruct (Nat.ltb_spec i n); [reflexivity | lia].
  - rewrite nth_error_app2 by (rewrite repeat_length; lia).
    rewrite repeat_length.
    destruct (Nat.ltb_spec i n) as [Hn|Hn].
    + apply nth_error_repeat. lia.
    + apply nth_error_None. rewrite repeat_length. lia.
Qed.

(** X5.  On a life table with a number for each of the ages 0, 1, ...,
    for an age in the table and a deferral of at least 0 and shorter than
    the table, [cf_annuity] returns one payment per row of the table: 0
    during the deferral, lx[age + t] / lx[age] in a later year [t] while
    [age + t] is in the table, and 0 beyond the last age. *)
Theorem cf_annuity_payments (xs : list R) (age defer : Z) :
  0 <= age < Z.of_nat (List.length xs) ->
  0 <= defer < Z.of_nat (List.length xs) ->
  cf_annuity age (Series (map fin xs)) defer =
    Ok (Series (map (fun t => fin (annuity_payment xs age defer t))
                    (zrange_from 0 (List.length xs)))).
Proof.
  intros Hage Hdefer.
  set (n := List.length xs) in *. set (tbl := Series (map fin xs)).
  assert (Hlen : List.length tbl = n).
  { unfold tbl. rewrite <- length_values, values_Series. apply length_map. }
  assert (Hlab : labels tbl = zrange_from 0 n).
  { unfold tbl. rewrite labels_Series, length_map. reflexivity. }
  assert (Hnth : forall i, (i < n)%nat ->
                   nth_error (map fin xs) i = Some (fin (nth i xs 0%R))).
  { intros i Hi. rewrite nth_error_map, (nth_error_nth' xs 0%R) by exact Hi.
    reflexivity. }
  assert (Hix : ix tbl age = Ok (fin (nth (Z.to_nat age) xs 0%R))).
  { unfold ix, tbl. replace age with (Z.of_nat (Z.to_nat age)) at 1 by lia.
    rewrite lookup_label_Series, Hnth by lia. reflexivity. }
  unfold cf_annuity. fold tbl. rewrite Hlen, Hix.
  destruct (Z.ltb_spec defer (Z.of_nat n)) as [_|Hge]; [|lia].
  cbv beta iota zeta. cbn [rbind]. f_equal.
  set (pays := repeat (of_Z 0) (Z.to_nat defer) ++
               repeat (of_Z 1) (Z.to_nat (Z.of_nat n - defer))).
  assert (Hpays : List.length pays = n).
  { unfold pays. rewrite length_app, !repeat_length. lia. }
  assert (Hshift : labels (shift (- age) tbl) = zrange_from 0 n).
  { unfold shift. rewrite Hlab. apply labels_combine.
    rewrite length_zrange_from, length_values, Hlen.
    destruct (0 <=? - age).
    - rewrite length_firstn, length_app, repeat_length, length_values. lia.
    - rewrite length_app, length_skipn, repeat_length, length_values. lia. }
  rewrite binop_aligned
    by (rewrite labels_Series, Hpays, Hshift; reflexivity).
  apply series_ext.
  - unfold fillna. rewrite !labels_smap, zip_with_labels.
    + rewrite !labels_Series, Hpays, length_map, length_zrange_from.
      reflexivity.
    + rewrite <- (length_labels (shift (- age) tbl)), Hshift,
        length_zrange_from.
      rewrite <- length_values, values_Series. exact Hpays.
  - unfold fillna. rewrite !values_smap, zip_with_values, !values_Series.
    apply nth_error_ext. intros i.
    rewrite !nth_error_map, nth_error_map2, nth_error_zrange_from.
    unfold pays. replace (Z.to_nat (Z.of_nat n - defer))
      with (n - Z.to_nat defer)%nat by lia.
    rewrite nth_error_payments by lia.
    unfold tbl. replace (- age) with (- Z.of_nat (Z.to_nat age)) by lia.
    rewrite nth_error_shift_up by (rewrite length_map; fold n; lia).
    rewrite length_map. fold n.
    destruct (Nat.ltb_spec i n) as [Hi|Hi]; [|reflexivity].
    cbn [option_map]. f_equal. unfold annuity_payment. fold n.
    replace (Z.to_nat (age + (0 + Z.of_nat i)))
      with (Z.to_nat age + i)%nat by lia.
    destruct (Nat.ltb_spec i (Z.to_nat defer)) as [Hd|Hd];
      destruct (Z.ltb_spec (0 + Z.of_nat i) defer) as [Hd'|Hd']; try lia;
      destruct (Z.leb_spec (Z.of_nat n) (age + (0 + Z.of_nat i))) as [Ho|Ho];
      cbn [orb].
    + rewrite nth_overflow by (rewrite length_map; fold n; lia). reflexivity.
    + rewrite (nth_indep _ NaN (fin 0%R)) by (rewrite length_map; fold n; lia).
      rewrite map_nth. cbn. unfold fin. f_equal. unfold Rdiv. ring.
    + rewrite nth_overflow by (rewrite length_map; fold n; lia). reflexivity.
    + rewrite (nth_indep _ NaN (fin 0%R)) by (rewrite length_map; fold n; lia).
      rewrite map_nth. cbn. unfold fin. f_equal. unfold Rdiv. ring.
Qed.

Lemma cf_annuity_payments_witness :
  cf_annuity 1 (Series (map fin [100; 50; 25]%R)) 1 =
    Ok (Series (map (fun t => fin (annuity_payment [100; 50; 25]%R 1 1 t))
                    (zrange_from 0 (List.length [100; 50; 25]%R)))).
Proof.
  apply (cf_annuity_payments [100; 50; 25]%R 1 1); simpl; lia.
Defined.

(** X6.  [cf_annuity] fails in two ways only, and the assertion comes
    first: with the AssertionError on the deferral when the deferral is not
    shorter than the table, whatever the age, and otherwise with a KeyError
    on the age when the table has no row for it.  A stream it returns holds
    no NaN. *)
Theorem cf_annuity_outcome (age : Z) (tbl : series) (defer : Z) :
  match cf_annuity age tbl defer with
  | Ok s =>
      defer < Z.of_nat (List.length tbl) /\ In age (labels tbl) /\
      forall v, In v (values s) -> isnan v = false
  | Raise e =>
      (Z.of_nat (List.length tbl) <= defer /\ e = AssertionError msg_deferral) \/
      (defer < Z.of_nat (List.length tbl) /\ ~ In age (labels tbl) /\
       e = KeyError (KInt age))
  end.
Proof.
  unfold cf_annuity.
  destruct (Z.ltb_spec defer (Z.of_nat (List.length tbl))) as [Hlt|Hge].
  - unfold ix. destruct (lookup_label tbl age) as [d|] eqn:Hd; cbn [rbind].
    + split; [exact Hlt|]. split; [exact (lookup_label_Some _ _ _ Hd)|].
      intros v Hv. unfold fillna in Hv. rewrite values_smap in Hv.
      apply in_map_iff in Hv. destruct Hv as [x [Hx _]]. subst v.
      destruct x; reflexivity.
    + right. split; [exact Hlt|]. split; [|reflexivity].
      exact (lookup_label_None _ _ Hd).
  - left. split; [exact Hge | reflexivity].
Qed.

(** ** The dispatcher and the valuation of what it returns *)

Lemma bind_Ok_inv {A B : Type} (m : M A) (k : A -> M B) st b st' :
  bind m k st = (Ok b, st') ->
  exists a st1, m st = (Ok a, st1) /\ k a st1 = (Ok b, st').
Proof.
  rewrite bind_run. destruct (m st) as [[a|e] st1]; [|discriminate].
  intros H. now exists a, st1.
Qed.

Lemma lift_Ok_inv {A : Type} (r : result A) st a st' :
  lift r st = (Ok a, st') -> r = Ok a /\ st' = st.
Proof. unfold lift. intros H. inversion H. auto. Qed.

Lemma ret_Ok_inv {A : Type} (x : A) st a st' :
  ret x st = (Ok a, st') -> a = x /\ st' = st.
Proof. unfold ret. intros H. inversion H. auto. Qed.

Lemma rbind_Ok_inv {A B : Type} (r : result A) (k : A -> result B) b :
  rbind r k = Ok b -> exists a, r = Ok a /\ k a = Ok b.
Proof. destruct r as [a|e]; [|discriminate]. intros H. now exists a. Qed.

Lemma mem_string_In (k : string) (l : list string) :
  mem_string k l = true <-> In k l.
Proof.
  induction l as [|x l IH]; simpl; [split; [discriminate | contradiction]|].
  rewrite orb_true_iff, IH, String.eqb_eq. reflexivity.
Qed.

Ltac rbind_inv H :=
  repeat match type of H with
         | rbind ?r _ = Ok _ =>
             let a := fresh "a" in
             let E := fresh "E" in
             apply rbind_Ok_inv in H; destruct H as [a [E H]]
         | (if ?b then _ else _) = Ok _ =>
             let E := fresh "E" in
             destruct b eqn:E; [|discriminate H]
         | Raise _ = Ok _ => discriminate H
         end.

Section Dispatch.

Variable MAXAGE : Z.
Variable LOWAGE : Z.
Variable UPAGE : Z.
Variable prae_to_continuous : series -> series.
Variable round : num -> Z -> num.
Variable self : LifeTable.

Lemma switcher_unknown (id : string) :
  mem_string id product_ids = false ->
  switcher MAXAGE LOWAGE UPAGE prae_to_continuous round self id = None.
Proof.
  intros H. unfold product_ids in H. cbn [mem_string] in H.
  repeat (apply orb_false_iff in H; destruct H as [?H H]).
  unfold switcher.
  repeat match goal with
         | E : String.eqb ?s id = false |- _ =>
             rewrite (String.eqb_sym id s), E; clear E
         end.
  reflexivity.
Qed.

(** X7.  The dispatcher knows exactly the eight products of its table: for
    any other product identifier [cf] raises KeyError on that identifier
    without invoking a generator and leaves every attribute as it was,
    whatever the other arguments are. *)
Theorem cf_unknown_product (id : string) (age : Z) (sex : string)
    (pension_age : Z) (kw : kwargs) (st : state) :
  mem_string id product_ids = false ->
  cf MAXAGE LOWAGE UPAGE prae_to_continuous round self id age sex pension_age
     kw st
    = (Raise (KeyError (KStr id)), st).
Proof.
  intros H. unfold cf. rewrite (switcher_unknown id H). reflexivity.
Qed.

Lemma switcher_known (id : string) :
  mem_string id product_ids = true ->
  exists call hx_pd,
    switcher MAXAGE LOWAGE UPAGE prae_to_continuous round self id
      = Some (call, hx_pd).
Proof.
  intros H. apply mem_string_In in H. unfold product_ids in H. simpl in H.
  decompose [or] H; try contradiction; subst id; do 2 eexists; reflexivity.
Qed.

(** X8.  The keyword [hx_pd] belongs to the dispatcher: for each of the
    eight products a call of [cf] that passes [hx_pd] itself fails with
    TypeError before the generator runs, and the state is unchanged. *)
Theorem cf_rejects_hx_pd_keyword (id : string) (age : Z) (sex : string)
    (pension_age : Z) (kw : kwargs) (st : state) :
  mem_string id product_ids = true ->
  kw_hx_pd kw <> None ->
  cf MAXAGE LOWAGE UPAGE prae_to_continuous round self id age sex pension_age
     kw st
    = (Raise (TypeError msg_multiple_hx_pd), st).
Proof.
  intros H Hkw. unfold cf.
  destruct (switcher_known id H) as [call [hx_pd ->]].
  destruct (kw_hx_pd kw); [reflexivity | congruence].
Qed.

End Dispatch.

Lemma cf_unknown_product_witness :
  cf Tariff.maxage Tariff.lowage Tariff.upage Tariff.prae Tariff.round_id
     Tariff.table "PLL" 1 "M" 3 no_kwargs fresh
    = (Raise (KeyError (KStr "PLL")), fresh).
Proof.
  apply (cf_unknown_product Tariff.maxage Tariff.lowage Tariff.upage Tariff.prae
           Tariff.round_id Tariff.table "PLL" 1 "M" 3 no_kwargs fresh).
  reflexivity.
Defined.

Lemma cf_rejects_hx_pd_keyword_witness :
  cf Tariff.maxage Tariff.lowage Tariff.upage Tariff.prae Tariff.round_id
     Tariff.table "NPLL-O" 1 "M" 3 Tariff.ukv_kwargs fresh
    = (Raise (TypeError msg_multiple_hx_pd), fresh).
Proof.
  apply (cf_rejects_hx_pd_keyword Tariff.maxage Tariff.lowage Tariff.upage
           Tariff.prae Tariff.round_id Tariff.table "NPLL-O" 1 "M" 3
           Tariff.ukv_kwargs fresh).
  - reflexivity.
  - discriminate.
Defined.

Section Records.

Variable MAXAGE : Z.
Variable LOWAGE : Z.
Variable UPAGE : Z.
Variable prae_to_continuous : series -> series.
Variable round : num -> Z -> num.
Variable self : LifeTable.

Lemma cf_retirement_pension_untagged age sex pension_age kw c :
  cf_retirement_pension MAXAGE prae_to_continuous self age sex pension_age kw
    = Ok c ->
  cf_insurance_id c = None.
Proof.
  unfold cf_retirement_pension. intros H. rbind_inv H.
  inversion H. reflexivity.
Qed.

Lemma cf_defined_partner_untagged age sex pension_age kw c :
  cf_defined_partner self age sex pension_age kw = Ok c ->
  cf_insurance_id c = None.
Proof.
  unfold cf_defined_partner. intros H. rbind_inv H.
  inversion H. reflexivity.
Qed.

Lemma cf_ay_avg_untagged age sex pension_age kw c :
  cf_ay_avg prae_to_continuous self age sex pension_age kw = Ok c ->
  cf_insurance_id c = None.
Proof.
  unfold cf_ay_avg. intros H. rbind_inv H. inversion H. reflexivity.
Qed.

Lemma cf_defined_one_year_risk_tagged age sex pension_age kw c :
  cf_defined_one_year_risk MAXAGE prae_to_continuous self age sex pension_age kw
    = Ok c ->
  cf_insurance_id c = Some "NPTL-B".
Proof.
  unfold cf_defined_one_year_risk. intros H. rbind_inv H.
  inversion H. reflexivity.
Qed.

Lemma cf_undefined_one_year_risk_tagged age sex pension_age kw c :
  cf_undefined_one_year_risk MAXAGE prae_to_continuous self age sex
    pension_age kw = Ok c ->
  cf_insurance_id c = Some "NPTL-O".
Proof.
  unfold cf_undefined_one_year_risk. intros H. rbind_inv H.
  inversion H. reflexivity.
Qed.

Lemma undefined_partner_payments_record l hxv age sex pension_age c :
  undefined_partner_payments MAXAGE self l hxv age sex pension_age = Ok c ->
  cf_insurance_id c = None /\ cf_age c = Some age /\
  cf_pension_age c = Some pension_age /\
  cf_payments c = Series (values (cf_payments c)).
Proof.
  unfold undefined_partner_payments. intros H. rbind_inv H.
  inversion H. cbn [cf_insurance_id cf_age cf_pension_age cf_payments].
  rewrite values_Series. auto.
Qed.

Lemma cf_undefined_partner_record age sex pension_age kw st c st' :
  cf_undefined_partner MAXAGE LOWAGE UPAGE prae_to_continuous round self
    age sex pension_age kw st = (Ok c, st') ->
  cf_insurance_id c = None /\ cf_age c = Some age /\
  cf_pension_age c = Some pension_age /\
  cf_payments c = Series (values (cf_payments c)).
Proof.
  unfold cf_undefined_partner. intros H.
  apply bind_Ok_inv in H. destruct H as (u & s1 & _ & H).
  apply bind_Ok_inv in H. destruct H as (r & s2 & _ & H).
  apply bind_Ok_inv in H. destruct H as (hxv & s3 & _ & H).
  apply bind_Ok_inv in H. destruct H as (adj & s4 & _ & H).
  apply bind_Ok_inv in H. destruct H as (l & s5 & _ & H).
  apply lift_Ok_inv in H. destruct H as [H _].
  exact (undefined_partner_payments_record _ _ _ _ _ _ H).
Qed.

Lemma pv_returns_recognised (c : cashflow) (id : string) intrest st :
  cf_insurance_id c = Some id ->
  mem_string id product_ids = true ->
  (is_undefined_partner_id id = true ->
   cf_age c <> None /\ cf_pension_age c <> None) ->
  is_Ok (fst (pv round self c intrest st)) = true.
Proof.
  intros Htag Hid Hkeys. unfold pv. rewrite Htag.
  apply mem_string_In in Hid. unfold product_ids in Hid. simpl in Hid.
  decompose [or] Hid; try contradiction; subst id; try reflexivity;
    (destruct Hkeys as [Ha Hp]; [reflexivity|];
     destruct (cf_age c); [|congruence];
     destruct (cf_pension_age c); [|congruence]; reflexivity).
Qed.

(** X9.  What [cf] returns can be valued: a record that [cf] returns is
    tagged with the product identifier of the call, and [pv] of that record
    returns a value in every state and for every interest assumption none
    of whose rates is -100 per cent; in particular it never reaches the
    branch of the unrecognised product and never misses a key of the
    record.  At a rate of -100 per cent the expression
    [1. / (1 + r / 100.)] of lines 423 to 429 divides by zero, and the
    error Python raises there is not part of the real arithmetic of this
    development. *)
Theorem cf_record_is_valued (id : string) (age : Z) (sex : string)
    (pension_age : Z) (kw : kwargs) (st : state) (c : cashflow) (st' : state) :
  cf MAXAGE LOWAGE UPAGE prae_to_continuous round self id age sex pension_age
     kw st = (Ok c, st') ->
  cf_insurance_id c = Some id /\
  forall intrest st2,
    discountable intrest = true ->
    is_Ok (fst (pv round self c intrest st2)) = true.
Proof.
  unfold cf. intros H.
  destruct (switcher MAXAGE LOWAGE UPAGE prae_to_continuous round self id)
    as [[call hx_pd]|] eqn:Hsw; [|discriminate H].
  destruct (kw_hx_pd kw); [discriminate H|].
  apply bind_Ok_inv in H. destruct H as (u & s1 & _ & H).
  apply bind_Ok_inv in H. destruct H as (out & s2 & Hcall & H).
  apply ret_Ok_inv in H. destruct H as [-> _].
  assert (Hshape :
    mem_string id product_ids = true /\
    cf_insurance_id (merge_two_dicts id out) = Some id /\
    (is_undefined_partner_id id = true ->
     cf_age out <> None /\ cf_pension_age out <> None)).
  { unfold switcher in Hsw.
    repeat match type of Hsw with
           | (if String.eqb id ?s then _ else _) = _ =>
               let E := fresh "E" in
               destruct (String.eqb id s) eqn:E;
                 [apply String.eqb_eq in E; subst id; inversion Hsw; subst call;
                  clear Hsw |]
           end; try discriminate Hsw.
    - apply lift_Ok_inv in Hcall. destruct Hcall as [Hc _].
      apply cf_retirement_pension_untagged in Hc.
      unfold merge_two_dicts. cbn [cf_insurance_id]. rewrite Hc.
      split; [reflexivity|]. split; [reflexivity | discriminate].
    - apply lift_Ok_inv in Hcall. destruct Hcall as [Hc _].
      apply cf_defined_partner_untagged in Hc.
      unfold merge_two_dicts. cbn [cf_insurance_id]. rewrite Hc.
      split; [reflexivity|]. split; [reflexivity | discriminate].
    - apply cf_undefined_partner_record in Hcall.
      destruct Hcall as (Hc & Ha & Hp & _).
      unfold merge_two_dicts. cbn [cf_insurance_id]. rewrite Hc, Ha, Hp.
      split; [reflexivity|]. split; [reflexivity|]. intros _. split; discriminate.
    - apply cf_undefined_partner_record in Hcall.
      destruct Hcall as (Hc & Ha & Hp & _).
      unfold merge_two_dicts. cbn [cf_insurance_id]. rewrite Hc, Ha, Hp.
      split; [reflexivity|]. split; [reflexivity|]. intros _. split; discriminate.
    - apply cf_undefined_partner_record in Hcall.
      destruct Hcall as (Hc & Ha & Hp & _).
      unfold merge_two_dicts. cbn [cf_insurance_id]. rewrite Hc, Ha, Hp.
      split; [reflexivity|]. split; [reflexivity|]. intros _. split; discriminate.
    - apply lift_Ok_inv in Hcall. destruct Hcall as [Hc _].
      apply cf_defined_one_year_risk_tagged in Hc.
      unfold merge_two_dicts. cbn [cf_insurance_id]. rewrite Hc.
      split; [reflexivity|]. split; [reflexivity | discriminate].
    - apply lift_Ok_inv in Hcall. destruct Hcall as [Hc _].
      apply cf_undefined_one_year_risk_tagged in Hc.
      unfold merge_two_dicts. cbn [cf_insurance_id]. rewrite Hc.
      split; [reflexivity|]. split; [reflexivity | discriminate].
    - apply lift_Ok_inv in Hcall. destruct Hcall as [Hc _].
      apply cf_ay_avg_untagged in Hc.
      unfold merge_two_dicts. cbn [cf_insurance_id]. rewrite Hc.
      split; [reflexivity|]. split; [reflexivity | discriminate]. }
  destruct Hshape as (Hid & Htag & Hkeys).
  split; [exact Htag|]. intros intrest st2 _.
  apply (pv_returns_recognised _ id); trivial.
Qed.

End Records.

Lemma cf_record_is_valued_witness :
  exists c st',
    cf Tariff.maxage Tariff.lowage Tariff.upage Tariff.prae Tariff.round_id
       Tariff.table "NPLL-O" 1 "M" 3 (intrest_kwargs Tariff.r3) fresh
      = (Ok c, st') /\
    cf_insurance_id c = Some "NPLL-O" /\
    forall intrest st2,
      discountable intrest = true ->
      is_Ok (fst (pv Tariff.round_id Tariff.table c intrest st2)) = true.
Proof.
  do 2 eexists. split.
  - vm_compute. reflexivity.
  - eapply (cf_record_is_valued Tariff.maxage Tariff.lowage Tariff.upage
              Tariff.prae Tariff.round_id Tariff.table "NPLL-O" 1 "M" 3
              (intrest_kwargs Tariff.r3) fresh).
    vm_compute. reflexivity.
Defined.

(** ** Present values of the products with a defined timing *)

Open Scope R_scope.

Lemma present_value_term (r : Q) (x y : R) :
  -100 < Q2R r ->
  nmul (fin x) (npow (discount_base (of_Q r)) (fin y))
    = fin (x * discount_factor r y).
Proof.
  intros Hr. unfold discount_base, of_Q, of_Z, fin; simpl.
  f_equal. f_equal. unfold discount_factor.
  apply Rpower_inverse_base. lra.
Qed.

Lemma fold_present_value (r : Q) (e : Z -> num) (time : Z -> R) (xs : list R) :
  -100 < Q2R r -> (forall y, e y = fin (time y)) ->
  forall (t : Z) (acc : R),
    fold_left nadd
      (map2 nmul (map fin xs)
         (map2 npow (repeat (discount_base (of_Q r)) (List.length xs))
            (map e (zrange_from t (List.length xs)))))
      (fin acc)
    = fin (acc + present_value r time t xs).
Proof.
  intros Hr He. induction xs as [|x xs IH]; intros t acc;
    cbn [List.length repeat zrange_from map map2 fold_left present_value].
  - unfold fin. f_equal. lra.
  - rewrite He, present_value_term by assumption.
    change (nadd (fin acc) (fin (x * discount_factor r (time t))))
      with (fin (acc + x * discount_factor r (time t))).
    rewrite IH. unfold fin. f_equal. lra.
Qed.

(** The sum that [pv] forms from payments on the years 0, 1, ..., a flat
    rate and the exponents [e] of the years. *)
Lemma pysum_discounted (r : Q) (e : Z -> num) (time : Z -> R) (xs : list R) :
  -100 < Q2R r -> (forall y, e y = fin (time y)) ->
  pysum
    (binop nmul (Series (map fin xs))
       (binop npow
          (smap discount_base
             (x_to_series (Flat r) (List.length (Series (map fin xs)))))
          (Series (map e (labels (Series (map fin xs)))))))
    = fin (present_value r time 0 xs).
Proof.
  intros Hr He.
  set (n := List.length (Series (map fin xs))).
  assert (Hn : n = List.length xs).
  { unfold n. rewrite <- length_values, values_Series. apply length_map. }
  assert (Hlab : labels (Series (map fin xs)) = zrange_from 0 n).
  { rewrite labels_Series, length_map. now rewrite Hn. }
  rewrite Hlab.
  assert (Hbase : labels (smap discount_base (x_to_series (Flat r) n))
                  = zrange_from 0 n).
  { rewrite labels_smap. unfold x_to_series. rewrite labels_Series.
    now rewrite repeat_length. }
  assert (Hexp : labels (Series (map e (zrange_from 0 n))) = zrange_from 0 n).
  { rewrite labels_Series, length_map. now rewrite length_zrange_from. }
  rewrite (binop_aligned npow) by congruence.
  assert (Hlen : forall s : series, labels s = zrange_from 0 n -> List.length s = n).
  { intros s Hs. rewrite <- length_labels, Hs. apply length_zrange_from. }
  rewrite (binop_aligned nmul)
    by (rewrite zip_with_labels; [congruence | rewrite !Hlen; trivial]).
  unfold pysum. rewrite !zip_with_values, values_smap.
  unfold x_to_series. rewrite !values_Series, map_repeat.
  clearbody n. subst n. change (of_Z 0) with (fin 0).
  rewrite (fold_present_value r e time xs Hr He 0%Z 0).
  unfold fin. f_equal. lra.
Qed.

Lemma present_value_at_zero (time : Z -> R) (xs : list R) :
  forall t, present_value 0 time t xs = total xs.
Proof.
  induction xs as [|x xs IH]; intros t; cbn [present_value total fold_right].
  - reflexivity.
  - rewrite IH. fold (total xs). unfold discount_factor.
    replace (1 + Q2R 0 / 100) with 1 by (unfold Q2R; simpl; lra).
    unfold Rpower. rewrite ln_1, Rmult_0_r, exp_0. lra.
Qed.

Lemma payment_time_exponent (N y : Z) :
  nadd (of_Z y) (nmul half (of_Z (Z_of_bool (y <=? N)%Z)))
    = fin (payment_time N y).
Proof.
  unfold payment_time, half, of_Z, fin. simpl. f_equal.
  destruct (y <=? N)%Z; simpl; lra.
Qed.

Close Scope R_scope.

Section Valuation.

Variable round : num -> Z -> num.
Variable self : LifeTable.

Lemma pv_value_start_of_year (id : string) (xs : list R)
    (age pension_age : option Z) (r : Q) (st : state) :
  mem_string id ["OPLL"; "NPLL-B"; "ay_avg"] = true ->
  (-100 < Q2R r)%R ->
  fst (pv round self
         {| cf_insurance_id := Some id;
            cf_payments := Series (map fin xs);
            cf_age := age;
            cf_pension_age := pension_age |}
         (Flat r) st)
    = Ok (round (fin (present_value r start_of_year 0 xs)) (rounding self)).
Proof.
  intros Hid Hr.
  unfold pv, require, bind, ret, set_yield_curve, modify.
  cbn [cf_insurance_id cf_payments cf_age cf_pension_age].
  cbv beta match. rewrite Hid. cbv beta match. cbn [fst].
  f_equal. f_equal.
  apply (pysum_discounted r of_Z start_of_year xs Hr). reflexivity.
Qed.

Lemma pv_value_mid_year (id : string) (xs : list R)
    (age pension_age : option Z) (r : Q) (st : state) :
  mem_string id ["OPLL"; "NPLL-B"; "ay_avg"] = false ->
  mem_string id ["NPTL-B"; "NPTL-O"] = true ->
  (-100 < Q2R r)%R ->
  fst (pv round self
         {| cf_insurance_id := Some id;
            cf_payments := Series (map fin xs);
            cf_age := age;
            cf_pension_age := pension_age |}
         (Flat r) st)
    = Ok (round (fin (present_value r mid_year 0 xs)) (rounding self)).
Proof.
  intros H1 Hid Hr.
  unfold pv, require, bind, ret, set_yield_curve, modify.
  cbn [cf_insurance_id cf_payments cf_age cf_pension_age].
  cbv beta match. rewrite H1, Hid. cbv beta match. cbn [fst].
  f_equal. f_equal.
  apply (pysum_discounted r (fun y => nadd (of_Z y) half) mid_year xs Hr).
  reflexivity.
Qed.

(** X10.  For a record tagged OPLL, NPLL-B or ay_avg with payments on the
    years 0, 1, ... and a flat rate of [r] per cent above -100, [pv] returns
    the rounded sum of the payments discounted from the start of their
    year: the payment of year [t] times (1+r/100)^(-t). *)
Theorem pv_start_of_year_discounting (id : string) (xs : list R)
    (age pension_age : option Z) (r : Q) (st : state) :
  mem_string id ["OPLL"; "NPLL-B"; "ay_avg"] = true ->
  (-100 < Q2R r)%R ->
  fst (pv round self
         {| cf_insurance_id := Some id;
            cf_payments := Series (map fin xs);
            cf_age := age;
            cf_pension_age := pension_age |}
         (Flat r) st)
    = Ok (round (fin (present_value r start_of_year 0 xs)) (rounding self)).
Proof.
  intros Hid Hr. now apply pv_value_start_of_year.
Qed.

(** X11.  For a record tagged NPTL-B or NPTL-O (the one-year risk
    premiums) [pv] discounts every payment from the middle of its year: the
    payment of year [t] times (1+r/100)^(-(t+0.5)). *)
Theorem pv_mid_year_discounting (id : string) (xs : list R)
    (age pension_age : option Z) (r : Q) (st : state) :
  mem_string id ["NPTL-B"; "NPTL-O"] = true ->
  (-100 < Q2R r)%R ->
  fst (pv round self
         {| cf_insurance_id := Some id;
            cf_payments := Series (map fin xs);
            cf_age := age;
            cf_pension_age := pension_age |}
         (Flat r) st)
    = Ok (round (fin (present_value r mid_year 0 xs)) (rounding self)).
Proof.
  intros Hid Hr.
  assert (H1 : mem_string id ["OPLL"; "NPLL-B"; "ay_avg"] = false).
  { apply mem_string_In in Hid. simpl in Hid.
    decompose [or] Hid; try contradiction; subst id; reflexivity. }
  now apply pv_value_mid_year.
Qed.

(** X12.  At a flat rate of 0 per cent nothing is discounted: for each of
    the eight products (the undefined-partner products with their fields
    [age] and [pension_age]) [pv] returns the rounded sum of the
    payments. *)
Theorem pv_at_zero_interest (id : string) (xs : list R)
    (age pension_age : option Z) (st : state) :
  mem_string id product_ids = true ->
  (is_undefined_partner_id id = true -> age <> None /\ pension_age <> None) ->
  fst (pv round self
         {| cf_insurance_id := Some id;
            cf_payments := Series (map fin xs);
            cf_age := age;
            cf_pension_age := pension_age |}
         (Flat 0) st)
    = Ok (round (fin (total xs)) (rounding self)).
Proof.
  intros Hid Hkeys.
  assert (Hr : (-100 < Q2R 0)%R) by (unfold Q2R; simpl; lra).
  destruct (mem_string id ["OPLL"; "NPLL-B"; "ay_avg"]) eqn:H1.
  { rewrite (pv_value_start_of_year id xs age pension_age 0 st H1 Hr).
    now rewrite present_value_at_zero. }
  destruct (mem_string id ["NPTL-B"; "NPTL-O"]) eqn:H2.
  { rewrite (pv_value_mid_year id xs age pension_age 0 st H1 H2 Hr).
    now rewrite present_value_at_zero. }
  assert (H3 : is_undefined_partner_id id = true).
  { apply mem_string_In in Hid. unfold product_ids in Hid. simpl in Hid.
    decompose [or] Hid; try contradiction; subst id;
      try reflexivity; discriminate. }
  destruct (Hkeys H3) as [Ha Hp].
  destruct age as [a|]; [|congruence].
  destruct pension_age as [p|]; [|congruence].
  unfold is_undefined_partner_id in H3.
  unfold pv, require, bind, ret, set_yield_curve, modify.
  cbn [cf_insurance_id cf_payments cf_age cf_pension_age].
  cbv beta match. rewrite H1, H2, H3. cbv beta match. cbn [fst].
  f_equal. f_equal.
  rewrite (pysum_discounted 0
             (fun y => nadd (of_Z y)
                         (nmul half (of_Z (Z_of_bool (y <=? p - a)))))
             (payment_time (p - a)) xs Hr)
    by (intros y; apply payment_time_exponent).
  now rewrite present_value_at_zero.
Qed.

(** X13.  A record tagged with anything but the eight products: [pv]
    prints the line that it cannot process the identifier and then fails
    with NameError on [pv_factors]; by then [self.yield_curve] has already
    been overwritten with the curve of this call, and nothing else has
    changed. *)
Theorem pv_unrecognised_product (c : cashflow) (id : string) (intrest : rate)
    (st : state) :
  cf_insurance_id c = Some id ->
  mem_string id product_ids = false ->
  let run := pv round self c intrest st in
  fst run = Raise (NameError "pv_factors") /\
  trace (snd run) = trace st ++ [Printed (msg_unrecognised id)] /\
  self_yield_curve (snd run)
    = Some (x_to_series intrest (List.length (cf_payments c))) /\
  self_intrest (snd run) = self_intrest st /\
  self_lookup (snd run) = self_lookup st /\
  self_pension_age (snd run) = self_pension_age st /\
  self_cfs (snd run) = self_cfs st /\
  self_factors (snd run) = self_factors st /\
  heap (snd run) = heap st.
Proof.
  intros Htag Hid. cbv zeta.
  unfold product_ids in Hid. cbn [mem_string] in Hid.
  repeat (apply orb_false_iff in Hid; destruct Hid as [?H Hid]).
  unfold pv, require, bind, ret, raise, print, emit, set_yield_curve, modify.
  rewrite Htag. cbv beta match. cbn [mem_string].
  repeat match goal with
         | E : String.eqb _ id = false |- _ => rewrite E; clear E
         end.
  cbn [orb]. cbv beta match. cbn [fst snd trace self_yield_curve self_intrest
    self_lookup self_pension_age self_cfs self_factors heap].
  repeat split.
Qed.

Lemma pv_untagged (c : cashflow) (intrest : rate) (st : state) :
  cf_insurance_id c = None ->
  pv round self c intrest st = (Raise (KeyError (KStr "insurance_id")), st).
Proof. intros Htag. unfold pv. rewrite Htag. reflexivity. Qed.

(** X14.  A call of [pv] that returns has assigned [self.yield_curve] and
    nothing else: no other attribute changes and nothing is printed; and
    the value does not depend on the state the call is made in. *)
Theorem pv_assigns_yield_curve_only (c : cashflow) (intrest : rate)
    (st : state) (v : num) (st' : state) :
  pv round self c intrest st = (Ok v, st') ->
  st' = snd (set_yield_curve
               (x_to_series intrest (List.length (cf_payments c))) st) /\
  forall st2, fst (pv round self c intrest st2) = Ok v.
Proof.
  intros H. split.
  - unfold pv in H.
    apply bind_Ok_inv in H. destruct H as (id & s1 & Hreq & H).
    assert (s1 = st).
    { unfold require in Hreq. destruct (cf_insurance_id c);
        [apply ret_Ok_inv in Hreq; tauto | discriminate Hreq]. }
    subst s1.
    apply bind_Ok_inv in H. destruct H as (u & s2 & Hset & H).
    assert (s2 = snd (set_yield_curve
                        (x_to_series intrest (List.length (cf_payments c))) st))
      by (now rewrite Hset).
    subst s2.
    apply bind_Ok_inv in H. destruct H as (f & s3 & Hf & H).
    apply ret_Ok_inv in H. destruct H as [_ ->].
    destruct (mem_string id ["OPLL"; "NPLL-B"; "ay_avg"]);
      [apply ret_Ok_inv in Hf; tauto|].
    destruct (mem_string id ["NPTL-B"; "NPTL-O"]);
      [apply ret_Ok_inv in Hf; tauto|].
    destruct (mem_string id ["NPLL-O"; "NPLLRS"; "NPLLRU"]).
    + apply bind_Ok_inv in Hf. destruct Hf as (pa & s4 & Hpa & Hf).
      apply bind_Ok_inv in Hf. destruct Hf as (ag & s5 & Hag & Hf).
      apply ret_Ok_inv in Hf. destruct Hf as [_ ->].
      unfold require in Hpa, Hag.
      destruct (cf_pension_age c); [|discriminate Hpa].
      destruct (cf_age c); [|discriminate Hag].
      apply ret_Ok_inv in Hpa. apply ret_Ok_inv in Hag.
      destruct Hpa as [_ Hpa]. destruct Hag as [_ Hag]. congruence.
    + apply bind_Ok_inv in Hf. destruct Hf as (u' & s4 & _ & Hf).
      discriminate Hf.
  - intros st2.
    destruct (tame_pv round self c intrest st) as [E1 _].
    destruct (tame_pv round self c intrest st2) as [E2 _].
    rewrite E2, <- E1, H. reflexivity.
Qed.

End Valuation.

Lemma pv_start_of_year_discounting_witness :
  fst (pv Tariff.round_id Tariff.table
         {| cf_insurance_id := Some "OPLL";
            cf_payments := Series (map fin [10; 20; 30]%R);
            cf_age := None;
            cf_pension_age := None |}
         (Flat (3 # 1)) fresh)
    = Ok (Tariff.round_id
            (fin (present_value (3 # 1) start_of_year 0 [10; 20; 30]%R))
            (rounding Tariff.table)).
Proof.
  apply pv_start_of_year_discounting;
    [reflexivity | unfold Q2R; simpl; lra].
Defined.

Lemma pv_mid_year_discounting_witness :
  fst (pv Tariff.round_id Tariff.table
         {| cf_insurance_id := Some "NPTL-O";
            cf_payments := Series (map fin [10; 20; 30]%R);
            cf_age := None;
            cf_pension_age := None |}
         (Flat (3 # 1)) fresh)
    = Ok (Tariff.round_id
            (fin (present_value (3 # 1) mid_year 0 [10; 20; 30]%R))
            (rounding Tariff.table)).
Proof.
  apply pv_mid_year_discounting;
    [reflexivity | unfold Q2R; simpl; lra].
Defined.

Lemma pv_at_zero_interest_witness :
  fst (pv Tariff.round_id Tariff.table
         {| cf_insurance_id := Some "NPLLRS";
            cf_payments := Series (map fin [10; 20; 30]%R);
            cf_age := Some 40;
            cf_pension_age := Some 41 |}
         (Flat 0) fresh)
    = Ok (Tariff.round_id (fin (total [10; 20; 30]%R)) (rounding Tariff.table)).
Proof.
  apply pv_at_zero_interest.
  - reflexivity.
  - intros _. split; discriminate.
Defined.

Lemma pv_unrecognised_product_witness :
  let c := {| cf_insurance_id := Some "PLL";
              cf_payments := Series (map fin [10; 20]%R);
              cf_age := None; cf_pension_age := None |} in
  let run := pv Tariff.round_id Tariff.table c Tariff.r3 fresh in
  fst run = Raise (NameError "pv_factors") /\
  trace (snd run) = trace fresh ++ [Printed (msg_unrecognised "PLL")] /\
  self_yield_curve (snd run)
    = Some (x_to_series Tariff.r3 (List.length (cf_payments c))) /\
  self_intrest (snd run) = self_intrest fresh /\
  self_lookup (snd run) = self_lookup fresh /\
  self_pension_age (snd run) = self_pension_age fresh /\
  self_cfs (snd run) = self_cfs fresh /\
  self_factors (snd run) = self_factors fresh /\
  heap (snd run) = heap fresh.
Proof.
  intros c.
  apply (pv_unrecognised_product Tariff.round_id Tariff.table c "PLL"
           Tariff.r3 fresh); reflexivity.
Defined.

Lemma pv_assigns_yield_curve_only_witness :
  let c := {| cf_insurance_id := Some "OPLL";
              cf_payments := Series [of_Z 1; of_Z 2];
              cf_age := None; cf_pension_age := None |} in
  exists v st',
    pv Tariff.round_id Tariff.table c Tariff.r3 fresh = (Ok v, st') /\
    st' = snd (set_yield_curve
                 (x_to_series Tariff.r3 (List.length (cf_payments c))) fresh) /\
    forall st2, fst (pv Tariff.round_id Tariff.table c Tariff.r3 st2) = Ok v.
Proof.
  intros c. do 2 eexists. split.
  - vm_compute. reflexivity.
  - eapply (pv_assigns_yield_curve_only Tariff.round_id Tariff.table c
              Tariff.r3 fresh).
    vm_compute. reflexivity.
Defined.

Section DirectCalls.

Variable MAXAGE : Z.
Variable LOWAGE : Z.
Variable UPAGE : Z.
Variable prae_to_continuous : series -> series.
Variable round : num -> Z -> num.
Variable self : LifeTable.

(** X15.  The records of the generators [cf_retirement_pension],
    [cf_defined_partner], [cf_ay_avg] and [cf_undefined_partner] carry no
    product identifier; only [cf] adds it.  So [pv] of a record obtained by
    calling one of them directly fails with KeyError on [insurance_id], and
    changes nothing. *)
Theorem pv_of_direct_generator_record (age : Z) (sex : string)
    (pension_age : Z) (kw : kwargs) (st : state) (c : cashflow)
    (intrest : rate) (st2 : state) :
  cf_retirement_pension MAXAGE prae_to_continuous self age sex pension_age kw
    = Ok c \/
  cf_defined_partner self age sex pension_age kw = Ok c \/
  cf_ay_avg prae_to_continuous self age sex (PInt pension_age) kw = Ok c \/
  (exists st', cf_undefined_partner MAXAGE LOWAGE UPAGE prae_to_continuous
                 round self age sex pension_age kw st = (Ok c, st')) ->
  pv round self c intrest st2 = (Raise (KeyError (KStr "insurance_id")), st2).
Proof.
  intros H. apply pv_untagged.
  destruct H as [H|[H|[H|[st' H]]]].
  - exact (cf_retirement_pension_untagged _ _ _ _ _ _ _ _ H).
  - exact (cf_defined_partner_untagged _ _ _ _ _ _ H).
  - exact (cf_ay_avg_untagged _ _ _ _ _ _ _ H).
  - apply (cf_undefined_partner_record _ _ _ _ _ _ _ _ _ _ _ _ _ H).
Qed.

End DirectCalls.

Lemma pv_of_direct_generator_record_witness :
  exists c,
    cf_retirement_pension Tariff.maxage Tariff.prae Tariff.table 1 "M" 3
      no_kwargs = Ok c /\
    pv Tariff.round_id Tariff.table c Tariff.r3 fresh
      = (Raise (KeyError (KStr "insurance_id")), fresh).
Proof.
  eexists. split.
  - vm_compute. reflexivity.
  - eapply (pv_of_direct_generator_record Tariff.maxage Tariff.lowage
              Tariff.upage Tariff.prae Tariff.round_id Tariff.table 1 "M" 3
              no_kwargs fresh).
    left. vm_compute. reflexivity.
Defined.

(** ** The rows of the lookup table *)

Lemma rmapM_Forall2 {A B : Type} (f : A -> result B) (l : list A) :
  forall ys, rmapM f l = Ok ys -> Forall2 (fun x y => f x = Ok y) l ys.
Proof.
  induction l as [|x l IH]; simpl; intros ys H.
  - inversion H. constructor.
  - destruct (f x) as [y|e] eqn:E; [|discriminate H].
    destruct (rmapM f l) as [ys'|e]; [|discriminate H].
    inversion H. constructor; auto.
Qed.

Lemma mapM_Forall2 {A B : Type} (f : A -> M B) (l : list A) :
  (forall x, tame (f x)) ->
  forall st ys st',
    mapM f l st = (Ok ys, st') ->
    Forall2 (fun x y => fst (f x fresh) = Ok y) l ys.
Proof.
  intros Ht. induction l as [|x l IH]; simpl; intros st ys st' H.
  - apply ret_Ok_inv in H. destruct H as [-> _]. constructor.
  - apply bind_Ok_inv in H. destruct H as (y & s1 & Hy & H).
    apply bind_Ok_inv in H. destruct H as (ys' & s2 & Hys & H).
    apply ret_Ok_inv in H. destruct H as [-> _].
    constructor; [|exact (IH _ _ _ Hys)].
    destruct (Ht x st) as [E _]. rewrite <- E, Hy. reflexivity.
Qed.

Lemma zip_rows_Forall (PA PH PF : string * Z -> num -> Prop)
    (PC : string * Z -> Z -> Prop) (keys : list (string * Z)) :
  forall ay hxa a1 fac,
    Forall2 PA keys ay -> Forall2 PH keys hxa -> Forall2 PC keys a1 ->
    Forall2 PF keys fac ->
    map (fun r => (lr_gender r, lr_age r)) (zip_rows keys ay hxa a1 fac) = keys /\
    Forall (fun r =>
              PA (lr_gender r, lr_age r) (lr_ay_avg r) /\
              PH (lr_gender r, lr_age r) (lr_hx_avg r) /\
              PC (lr_gender r, lr_age r) (lr_alpha1 r) /\
              PF (lr_gender r, lr_age r) (lr_factor r) /\
              lr_cf r = nmul (nmul (lr_ay_avg r) (lr_hx_avg r)) (lr_factor r))
           (zip_rows keys ay hxa a1 fac).
Proof.
  induction keys as [|[g a] keys IH]; intros ay hxa a1 fac HA HH HC HF.
  - split; [reflexivity | constructor].
  - inversion HA as [|? y ? ay' Hy HA']. inversion HH as [|? h ? hxa' Hh HH'].
    inversion HC as [|? c ? a1' Hc HC']. inversion HF as [|? f ? fac' Hf HF'].
    subst. destruct (IH _ _ _ _ HA' HH' HC' HF') as [IHk IHr].
    cbn [zip_rows map lr_gender lr_age]. split; [now rewrite IHk|].
    constructor; [|exact IHr].
    cbn [lr_gender lr_age lr_ay_avg lr_hx_avg lr_alpha1 lr_factor lr_cf].
    auto.
Qed.

Section LookupTable.

Variable LOWAGE : Z.
Variable UPAGE : Z.
Variable prae_to_continuous : series -> series.
Variable round : num -> Z -> num.
Variable self : LifeTable.

Lemma create_lookup_table_content (intrest : rate) (st : state)
    (l : lookup_table) (st' : state) :
  create_lookup_table LOWAGE UPAGE prae_to_continuous round self intrest st
    = (Ok l, st') ->
  map (fun r => (lr_gender r, lr_age r)) l = lookup_keys LOWAGE UPAGE /\
  Forall (fun r =>
     fst (ay_avg prae_to_continuous round self (lr_age r) (lr_gender r)
            intrest "partner" fresh) = Ok (lr_ay_avg r) /\
     hx_avg_at self (lr_gender r) (lr_age r) = Ok (lr_hx_avg r) /\
     partner_alpha1 self (lr_gender r) = Ok (lr_alpha1 r) /\
     partner_factor self (lr_gender r) = Ok (lr_factor r) /\
     lr_cf r = nmul (nmul (lr_ay_avg r) (lr_hx_avg r)) (lr_factor r)) l.
Proof.
  intros H. unfold create_lookup_table in H.
  apply bind_Ok_inv in H. destruct H as (u & s1 & _ & H).
  apply bind_Ok_inv in H. destruct H as (ay & s2 & Hay & H).
  apply bind_Ok_inv in H. destruct H as (hxa & s3 & Hhx & H).
  apply bind_Ok_inv in H. destruct H as (a1 & s4 & Ha1 & H).
  apply bind_Ok_inv in H. destruct H as (fac & s5 & Hfac & H).
  apply ret_Ok_inv in H. destruct H as [-> _].
  apply lift_Ok_inv in Hhx, Ha1, Hfac.
  destruct Hhx as [Hhx _]. destruct Ha1 as [Ha1 _]. destruct Hfac as [Hfac _].
  apply mapM_Forall2 in Hay;
    [|intros k; apply tame_ay_avg].
  apply rmapM_Forall2 in Hhx, Ha1, Hfac.
  exact (zip_rows_Forall _ _ _ _ _ _ _ _ _ Hay Hhx Ha1 Hfac).
Qed.

(** X16.  A lookup table that [create_lookup_table] returns has one row
    per sex and lookup age, the males first and the ages ascending.  Each
    row holds the present value of the beneficiary's annuity at the interest
    of the call, the mean hazard of its age and the next, the age correction
    CX1 and the product of the three factors of the partner adjustments of
    its sex, and its [cf] is annuity times hazard times factor.  The method
    itself does not touch [self.lookup] or [self.intrest]. *)
Theorem create_lookup_table_rows (intrest : rate) (st : state)
    (l : lookup_table) (st' : state) :
  create_lookup_table LOWAGE UPAGE prae_to_continuous round self intrest st
    = (Ok l, st') ->
  map (fun r => (lr_gender r, lr_age r)) l = lookup_keys LOWAGE UPAGE /\
  (forall r, In r l ->
     fst (ay_avg prae_to_continuous round self (lr_age r) (lr_gender r)
            intrest "partner" fresh) = Ok (lr_ay_avg r) /\
     hx_avg_at self (lr_gender r) (lr_age r) = Ok (lr_hx_avg r) /\
     partner_alpha1 self (lr_gender r) = Ok (lr_alpha1 r) /\
     partner_factor self (lr_gender r) = Ok (lr_factor r) /\
     lr_cf r = nmul (nmul (lr_ay_avg r) (lr_hx_avg r)) (lr_factor r)) /\
  self_lookup st' = self_lookup st /\
  self_intrest st' = self_intrest st.
Proof.
  intros H.
  destruct (create_lookup_table_run LOWAGE UPAGE prae_to_continuous round self
              intrest st) as [_ Hq].
  rewrite H in Hq. cbn [snd] in Hq.
  destruct (create_lookup_table_content _ _ _ _ H) as [Hk Hr].
  split; [exact Hk|]. split.
  - intros r Hin. rewrite Forall_forall in Hr. apply (Hr r Hin).
  - split; [apply Hq|].
    transitivity (self_intrest (emitted (Called_create_lookup_table intrest) st));
      [apply Hq | reflexivity].
Qed.

End LookupTable.

(** ** The table of cash flows and the factor matrix *)

Lemma cartesian_keys (LOWAGE UPAGE : Z) (ids : list string) :
  cartesian LOWAGE UPAGE ids = map key_cells (tariff_keys ids LOWAGE UPAGE).
Proof.
  unfold cartesian, tariff_keys.
  set (F := fun id : string =>
              flat_map (fun sex : string =>
                          map (fun a : Z =>
                                 [("insurance_id", CStr id);
                                  ("sex_insured", CStr sex);
                                  ("age_insured", CInt a)])
                              (range LOWAGE UPAGE))
                       [MALE; FEMALE]).
  set (G := fun id : string =>
              flat_map (fun sex : string =>
                          map (fun a : Z => (id, sex, a)) (range LOWAGE UPAGE))
                       [MALE; FEMALE]).
  induction ids as [|id ids IH].
  - reflexivity.
  - change (F id ++ flat_map F ids = map key_cells (G id ++ flat_map G ids)).
    rewrite map_app, <- IH. f_equal.
    unfold F, G. cbn [flat_map]. rewrite !map_app, !map_map. reflexivity.
Qed.

Lemma cf_calls_emitted_cf id age sex st :
  cf_calls (emitted (Called_cf id age sex) st)
    = cf_calls st ++ [Called_cf id age sex].
Proof. unfold cf_calls, emitted. simpl. now rewrite filter_app. Qed.

Lemma key_cells_keep (name : string) (k : string * string * Z) :
  mem_string name factor_keys = false ->
  filter (fun kv => negb (String.eqb (fst kv) name)) (key_cells k) = key_cells k.
Proof.
  unfold factor_keys. cbn [mem_string]. intros H.
  repeat (apply orb_false_iff in H; destruct H as [?H H]).
  unfold key_cells. cbn [filter fst].
  repeat match goal with
         | E : String.eqb _ name = false |- _ => rewrite E; clear E
         end.
  reflexivity.
Qed.

Lemma set_column_rows (name : string) (keys : list (string * string * Z)) :
  mem_string name factor_keys = false ->
  forall col : list cell,
    map (fun rc => filter (fun kv => negb (String.eqb (fst kv) name)) (fst rc)
                   ++ [(name, snd rc)])
        (combine (map key_cells keys) col)
    = map (fun rc => key_cells (fst rc) ++ [(name, snd rc)]) (combine keys col).
Proof.
  intros Hname. induction keys as [|k keys IH]; intros [|c col];
    cbn [map combine fst snd]; trivial.
  now rewrite IH, key_cells_keep.
Qed.

Lemma length_tariff_keys (ids : list string) (LOWAGE UPAGE : Z) :
  List.length (tariff_keys ids LOWAGE UPAGE)
    = (List.length ids * (2 * Z.to_nat (UPAGE - LOWAGE)))%nat.
Proof.
  unfold tariff_keys.
  set (G := fun id : string =>
              flat_map (fun sex : string =>
                          map (fun a : Z => (id, sex, a)) (range LOWAGE UPAGE))
                       [MALE; FEMALE]).
  induction ids as [|id ids IH].
  - reflexivity.
  - change (List.length (G id ++ flat_map G ids)
            = (S (List.length ids) * (2 * Z.to_nat (UPAGE - LOWAGE)))%nat).
    rewrite length_app, IH. unfold G. cbn [flat_map].
    rewrite !length_app, !length_map. unfold range.
    rewrite length_zrange_from. cbn [List.length]. lia.
Qed.

Section Table.

Variable MAXAGE : Z.
Variable LOWAGE : Z.
Variable UPAGE : Z.
Variable INSURANCE_IDS : list string.
Variable prae_to_continuous : series -> series.
Variable round : num -> Z -> num.
Variable self : LifeTable.

(** What a generator behind [switcher] leaves as it is when it returns. *)
Lemma switcher_frame id call hx_pd age sex pension_age kw st out st' :
  switcher MAXAGE LOWAGE UPAGE prae_to_continuous round self id
    = Some (call, hx_pd) ->
  call age sex pension_age kw st = (Ok out, st') ->
  cf_calls st' = cf_calls st /\ heap st' = heap st /\
  self_factors st' = self_factors st /\ self_cfs st' = self_cfs st /\
  self_pension_age st' = self_pension_age st.
Proof.
  intros Hsw Hcall.
  assert (Hlift : forall r : result cashflow,
            lift r st = (Ok out, st') ->
            cf_calls st' = cf_calls st /\ heap st' = heap st /\
            self_factors st' = self_factors st /\ self_cfs st' = self_cfs st /\
            self_pension_age st' = self_pension_age st).
  { intros r Hr. apply lift_Ok_inv in Hr. destruct Hr as [_ ->]. auto. }
  assert (Hund :
            cf_undefined_partner MAXAGE LOWAGE UPAGE prae_to_continuous round
              self age sex pension_age kw st = (Ok out, st') ->
            cf_calls st' = cf_calls st /\ heap st' = heap st /\
            self_factors st' = self_factors st /\ self_cfs st' = self_cfs st /\
            self_pension_age st' = self_pension_age st).
  { intros Hr.
    pose proof (cf_undefined_partner_cache MAXAGE LOWAGE UPAGE
                  prae_to_continuous round self age sex pension_age kw st) as Hc.
    cbv zeta in Hc. rewrite Hr in Hc. cbn [fst snd is_Ok] in Hc.
    destruct (Hc eq_refl) as (Hp & Hcfs & Hf & Hh & Hcalls & _). auto. }
  unfold switcher in Hsw.
  repeat match type of Hsw with
         | (if ?b then _ else _) = _ =>
             destruct b;
               [inversion Hsw; subst call; clear Hsw; auto; eapply Hlift; eassumption |]
         end.
  discriminate Hsw.
Qed.

(** What a call of [cf] that returns does to the state. *)
Lemma cf_frame id age sex pension_age kw st c st' :
  cf MAXAGE LOWAGE UPAGE prae_to_continuous round self id age sex pension_age
     kw st = (Ok c, st') ->
  cf_calls st' = cf_calls st ++ [Called_cf id age sex] /\
  heap st' = heap st /\ self_factors st' = self_factors st /\
  self_cfs st' = self_cfs st /\ self_pension_age st' = self_pension_age st.
Proof.
  unfold cf. intros H.
  destruct (switcher MAXAGE LOWAGE UPAGE prae_to_continuous round self id)
    as [[call hx_pd]|] eqn:Hsw; [|discriminate H].
  destruct (kw_hx_pd kw); [discriminate H|].
  apply bind_Ok_inv in H. destruct H as (u & s1 & Hemit & H).
  apply bind_Ok_inv in H. destruct H as (out & s2 & Hcall & H).
  apply ret_Ok_inv in H. destruct H as [_ ->].
  assert (s1 = emitted (Called_cf id age sex) st)
    by (unfold emitted; now rewrite Hemit).
  subst s1.
  destruct (switcher_frame _ _ _ _ _ _ _ _ _ _ Hsw Hcall)
    as (Hc & Hh & Hf & Hcfs & Hp).
  rewrite Hc, Hh, Hf, Hcfs, Hp, cf_calls_emitted_cf. auto.
Qed.

(** The column [cf] is the list of the records that the calls of [cf] for
    the combinations return, each call made in the state the one before it
    left. *)
Lemma mapM_map_to_cf pension_age intrest :
  forall keys st col st',
    mapM (map_to_cf MAXAGE LOWAGE UPAGE prae_to_continuous round self
            pension_age intrest) (map key_cells keys) st = (Ok col, st') ->
    exists cs,
      mapM (cf_of_key MAXAGE LOWAGE UPAGE prae_to_continuous round self
              pension_age intrest) keys st = (Ok cs, st') /\
      col = map CCf cs.
Proof.
  induction keys as [|[[id sex] a] keys IH]; intros st col st' H.
  - apply ret_Ok_inv in H. destruct H as [-> ->]. now exists [].
  - cbn [map mapM] in H.
    apply bind_Ok_inv in H. destruct H as (cell & s1 & Hcell & H).
    apply bind_Ok_inv in H. destruct H as (cells & s2 & Hcells & H).
    apply ret_Ok_inv in H. destruct H as [-> ->].
    change (map_to_cf MAXAGE LOWAGE UPAGE prae_to_continuous round self
              pension_age intrest (key_cells (id, sex, a)))
      with (bind (cf_of_key MAXAGE LOWAGE UPAGE prae_to_continuous round self
                    pension_age intrest (id, sex, a))
                 (fun c => ret (CCf c))) in Hcell.
    apply bind_Ok_inv in Hcell. destruct Hcell as (c & s1' & Hc & Hret).
    apply ret_Ok_inv in Hret. destruct Hret as [-> ->].
    destruct (IH _ _ _ Hcells) as (cs & Hcs & ->).
    exists (c :: cs). split; [|reflexivity].
    cbn [mapM]. rewrite bind_run, Hc, bind_run, Hcs. reflexivity.
Qed.

(** What the calls for the combinations leave as it is. *)
Lemma mapM_cf_of_key_frame pension_age intrest :
  forall keys st cs st',
    mapM (cf_of_key MAXAGE LOWAGE UPAGE prae_to_continuous round self
            pension_age intrest) keys st = (Ok cs, st') ->
    List.length cs = List.length keys /\
    heap st' = heap st /\ self_factors st' = self_factors st /\
    self_cfs st' = self_cfs st /\ self_pension_age st' = self_pension_age st.
Proof.
  induction keys as [|k keys IH]; intros st cs st' H.
  - apply ret_Ok_inv in H. destruct H as [-> ->]. auto.
  - cbn [mapM] in H.
    apply bind_Ok_inv in H. destruct H as (c & s1 & Hc & H).
    apply bind_Ok_inv in H. destruct H as (cs' & s2 & Hcs & H).
    apply ret_Ok_inv in H. destruct H as [-> ->].
    destruct (cf_frame _ _ _ _ _ _ _ _ Hc) as (_ & Hh & Hf & Hcfs & Hp).
    destruct (IH _ _ _ Hcs) as (IHl & IHh & IHf & IHcfs & IHp).
    cbn [List.length]. rewrite IHl, IHh, Hh, IHf, Hf, IHcfs, Hcfs, IHp, Hp.
    auto.
Qed.

(** The table that [calculate_cashflows] stores and the state it leaves. *)
Lemma calculate_cashflows_records pension_age intrest st df st' :
  calculate_cashflows MAXAGE LOWAGE UPAGE INSURANCE_IDS prae_to_continuous
    round self pension_age intrest st = (Ok df, st') ->
  let keys := tariff_keys INSURANCE_IDS LOWAGE UPAGE in
  exists cs s2,
    mapM (cf_of_key MAXAGE LOWAGE UPAGE prae_to_continuous round self
            pension_age intrest) keys (snd (alloc (keys_table keys) st))
      = (Ok cs, s2) /\
    df = List.length (heap st) /\
    heap st' = heap st ++ [cashflow_table keys cs] /\
    self_intrest st' = Some intrest /\
    self_pension_age st' = Some pension_age /\
    self_cfs st' = Some df /\
    self_factors st' = self_factors st /\
    self_lookup st' = self_lookup s2 /\
    self_yield_curve st' = self_yield_curve s2 /\
    trace st' = trace s2.
Proof.
  unfold calculate_cashflows. rewrite cartesian_keys. intros H. cbv zeta.
  apply bind_Ok_inv in H. destruct H as (r & s1 & Halloc & H).
  rewrite alloc_run in Halloc. inversion Halloc. subst r s1. clear Halloc.
  apply bind_Ok_inv in H. destruct H as (col & s2 & Hcol & H).
  cbn [frows] in Hcol.
  destruct (mapM_map_to_cf _ _ _ _ _ _ Hcol) as (cs & Hcs & ->).
  destruct (mapM_cf_of_key_frame _ _ _ _ _ _ Hcs) as (_ & Hh & Hf & _ & _).
  cbn [heap set_heap self_factors] in Hh, Hf.
  rewrite bind_run, store_run in H.
  unfold bind, set_intrest, set_pension_age, set_cfs, modify, ret in H.
  cbn in H. inversion H. subst df st'. clear H.
  cbn [heap set_heap self_intrest self_pension_age self_cfs self_factors
       self_lookup self_yield_curve trace].
  assert (Hset : forall x y : frame,
            list_set (heap st ++ [x]) (List.length (heap st)) y
              = heap st ++ [y]).
  { intros x y.
    replace (List.length (heap st)) with (List.length (heap st) + 0)%nat by lia.
    rewrite list_set_app_r. reflexivity. }
  exists cs, s2. split; [exact Hcs|]. split; [reflexivity|]. split.
  { rewrite Hh, Hset. f_equal. f_equal.
    unfold set_column, cashflow_table, keyed_rows. cbn [findex fcolumns frows].
    rewrite set_column_rows by reflexivity. reflexivity. }
  repeat (split; [reflexivity|]). split; [exact Hf|]. auto.
Qed.

(** X17.  The table that [calculate_cashflows] returns is a new object
    with the columns of the three keys and [cf] and one row per combination
    of product, sex and age.  The column [cf] holds the records of the run:
    what the calls of [cf] for the combinations return at the pension age
    and the interest of the call, made one after the other in the order of
    the rows, the first in the state of the call (the new table allocated)
    and each later one in the state the call before it left.  Older
    DataFrames are untouched; afterwards [self.intrest] and
    [self.pension_age] are the arguments, [self.cfs] is the new table,
    [self.factors] is as before and the lookup cache and the printed lines
    are as the last call of [cf] left them. *)
Theorem calculate_cashflows_table (pension_age : Z) (intrest : rate)
    (st : state) (df : nat) (st' : state) :
  calculate_cashflows MAXAGE LOWAGE UPAGE INSURANCE_IDS prae_to_continuous
    round self pension_age intrest st = (Ok df, st') ->
  let keys := tariff_keys INSURANCE_IDS LOWAGE UPAGE in
  exists cs s2,
    mapM (cf_of_key MAXAGE LOWAGE UPAGE prae_to_continuous round self
            pension_age intrest) keys (snd (alloc (keys_table keys) st))
      = (Ok cs, s2) /\
    List.length cs
      = (List.length INSURANCE_IDS * (2 * Z.to_nat (UPAGE - LOWAGE)))%nat /\
    heap st' = heap st ++ [cashflow_table keys cs] /\
    nth_error (heap st') df = Some (cashflow_table keys cs) /\
    self_intrest st' = Some intrest /\
    self_pension_age st' = Some pension_age /\
    self_cfs st' = Some df /\
    self_factors st' = self_factors st /\
    self_lookup st' = self_lookup s2 /\
    trace st' = trace s2.
Proof.
  intros H. cbv zeta.
  destruct (calculate_cashflows_records _ _ _ _ _ H)
    as (cs & s2 & Hcs & Hdf & Hh & Hi & Hp & Hcfs & Hf & Hl & _ & Ht).
  destruct (mapM_cf_of_key_frame _ _ _ _ _ _ Hcs) as (Hlen & _).
  exists cs, s2. split; [exact Hcs|]. split.
  { rewrite Hlen. apply length_tariff_keys. }
  split; [exact Hh|]. split.
  { rewrite Hh, Hdf.
    replace (List.length (heap st)) with (List.length (heap st) + 0)%nat by lia.
    now rewrite nth_error_app_r. }
  auto 10.
Qed.

Lemma valued_frame (f : frame) (tar : list cell) :
  fcolumns f = cashflow_columns ->
  valued f tar =
    Ok {| findex := factor_keys;
          fcolumns := ["tar"];
          frows :=
            map (filter (fun kv => negb (String.eqb (fst kv) "cf")))
                (map (fun rc =>
                        filter (fun kv => negb (String.eqb (fst kv) "tar"))
                               (fst rc) ++ [("tar", snd rc)])
                     (combine (frows f) tar)) |}.
Proof.
  intros H. unfold valued, set_index, set_column, drop_column, rbind.
  cbn [fcolumns findex frows]. rewrite H. reflexivity.
Qed.

Lemma row_pv_value (f : frame) (intrest : rate) (k : string * string * Z)
    (c : cashflow) (cell : cell) :
  fcolumns f = cashflow_columns ->
  fst (row_pv round self f intrest (key_cells k ++ [("cf", CCf c)]) fresh)
    = Ok cell ->
  exists x, cell = CNum x /\ fst (pv round self c intrest fresh) = Ok x.
Proof.
  intros Hcols. unfold row_pv. rewrite bind_run, lift_run.
  unfold row_ix. rewrite Hcols.
  change (mem_string "cf" cashflow_columns) with true.
  change (row_get (key_cells k ++ [("cf", CCf c)]) "cf") with (Some (CCf c)).
  cbv beta iota. rewrite bind_run.
  destruct (pv round self c intrest fresh) as [[x|e] s]; cbn; [|discriminate].
  intros H. inversion H. now exists x.
Qed.

(** The column [tar] of a table of cash flows holds the present values of
    its records. *)
Lemma tar_of_records (f : frame) (intrest : rate)
    (keys : list (string * string * Z)) :
  fcolumns f = cashflow_columns ->
  forall cs tar,
    List.length cs = List.length keys ->
    Forall2 (fun row cell => fst (row_pv round self f intrest row fresh) = Ok cell)
            (keyed_rows "cf" keys (map CCf cs)) tar ->
    exists xs,
      tar = map CNum xs /\
      Forall2 (fun c x => fst (pv round self c intrest fresh) = Ok x) cs xs.
Proof.
  intros Hcols. induction keys as [|k keys IH]; intros [|c cs] tar Hlen Hrows;
    try discriminate Hlen.
  - inversion Hrows. exists []. split; [reflexivity | constructor].
  - unfold keyed_rows in Hrows. cbn [map combine fst snd] in Hrows.
    inversion Hrows as [|? cell ? tar' Hcell Htar']. subst.
    destruct (row_pv_value _ _ _ _ _ Hcols Hcell) as (x & -> & Hx).
    destruct (IH cs tar') as (xs & -> & Hxs);
      [simpl in Hlen; lia | exact Htar' |].
    exists (x :: xs). split; [reflexivity | now constructor].
Qed.

(** Lines 525 and 526 on the rows: the keys stay, [cf] goes, [tar] has
    come. *)
Lemma valued_keyed_rows (keys : list (string * string * Z)) :
  forall (cs : list cashflow) (xs : list num),
    List.length cs = List.length keys ->
    List.length xs = List.length keys ->
    map (filter (fun kv => negb (String.eqb (fst kv) "cf")))
        (map (fun rc =>
                filter (fun kv => negb (String.eqb (fst kv) "tar")) (fst rc)
                ++ [("tar", snd rc)])
             (combine (keyed_rows "cf" keys (map CCf cs)) (map CNum xs)))
    = keyed_rows "tar" keys (map CNum xs).
Proof.
  induction keys as [|k keys IH]; intros [|c cs] [|x xs] Hc Hx;
    try discriminate Hc; try discriminate Hx; [reflexivity|].
  unfold keyed_rows in *. cbn [map combine fst snd].
  f_equal; try reflexivity. apply IH; simpl in Hc, Hx; lia.
Qed.

(** A call of [calculate_factors] that misses the cache and returns. *)
Lemma calculate_factors_miss_records (intrest : rate) (pension_age : Z)
    (st : state) (r : nat) (st' : state) :
  cache_hit intrest pension_age st = false ->
  calculate_factors MAXAGE LOWAGE UPAGE INSURANCE_IDS prae_to_continuous round
    self intrest pension_age st = (Ok r, st') ->
  let keys := tariff_keys INSURANCE_IDS LOWAGE UPAGE in
  exists cs xs s2,
    mapM (cf_of_key MAXAGE LOWAGE UPAGE prae_to_continuous round self
            pension_age intrest) keys (snd (alloc (keys_table keys) st))
      = (Ok cs, s2) /\
    Forall2 (fun c x => fst (pv round self c intrest fresh) = Ok x) cs xs /\
    r = S (List.length (heap st)) /\
    heap st' = heap st ++ [cashflow_table keys cs; factor_matrix keys xs] /\
    self_cfs st' = Some (List.length (heap st)) /\
    self_factors st' = Some r /\
    self_intrest st' = Some intrest /\
    self_pension_age st' = Some pension_age.
Proof.
  intros Hmiss H. cbv zeta. unfold cache_hit in Hmiss.
  unfold calculate_factors in H.
  apply bind_Ok_inv in H. destruct H as (fr & s1 & Hcf & Hv).
  unfold cashflows_for_factors in Hcf.
  rewrite bind_run, get_run, bind_run, get_run, Hmiss in Hcf.
  apply bind_Ok_inv in Hcf. destruct Hcf as (r0 & sa & Hcc & Hcf).
  destruct (calculate_cashflows_records _ _ _ _ _ Hcc)
    as (cs & s2 & Hcs & Hr0 & Hh & Hi & Hp & Hcfs & Hf & _ & _ & _).
  destruct (mapM_cf_of_key_frame _ _ _ _ _ _ Hcs) as (Hlen & _).
  set (keys := tariff_keys INSURANCE_IDS LOWAGE UPAGE) in *.
  set (f0 := cashflow_table keys cs) in *.
  rewrite bind_run in Hcf. unfold set_cfs at 1, modify at 1 in Hcf.
  rewrite bind_run, deref_run in Hcf. cbn [heap] in Hcf.
  assert (Hnth0 : nth_error (heap sa) r0 = Some f0).
  { rewrite Hh, Hr0.
    replace (List.length (heap st)) with (List.length (heap st) + 0)%nat by lia.
    now rewrite nth_error_app_r. }
  rewrite Hnth0, alloc_run in Hcf. cbn [heap] in Hcf.
  inversion Hcf. subst fr s1. clear Hcf.
  pose proof (value_in_place_run round self (List.length (heap sa)) intrest
                (set_heap (heap sa ++ [f0])
                   {| self_pension_age := self_pension_age sa;
                      self_intrest := self_intrest sa;
                      self_lookup := self_lookup sa;
                      self_cfs := Some r0;
                      self_factors := self_factors sa;
                      self_yield_curve := self_yield_curve sa;
                      heap := heap sa;
                      trace := trace sa |})) as Hrun.
  cbv zeta in Hrun. rewrite Hv in Hrun. cbn [heap set_heap fst snd] in Hrun.
  assert (Hnth1 : nth_error (heap sa ++ [f0]) (List.length (heap sa)) = Some f0).
  { replace (List.length (heap sa)) with (List.length (heap sa) + 0)%nat by lia.
    now rewrite nth_error_app_r. }
  rewrite Hnth1 in Hrun.
  destruct (tar_column round self f0 intrest) as [tar|e] eqn:Htar;
    [|discriminate Hrun].
  rewrite (valued_frame f0 tar eq_refl) in Hrun.
  destruct Hrun as (Hr & Hheap & Hfac & Hcfs' & Hi' & Hp' & _).
  inversion Hr. subst r. clear Hr.
  unfold tar_column in Htar.
  destruct (mapM (row_pv round self f0 intrest) (frows f0) fresh)
    as [[tar'|e'] sx] eqn:Hmap; cbn [fst] in Htar; [|discriminate Htar].
  inversion Htar. subst tar'. clear Htar.
  apply mapM_Forall2 in Hmap; [|intros row; apply tame_row_pv].
  destruct (tar_of_records f0 intrest keys eq_refl cs tar Hlen Hmap)
    as (xs & -> & Hxs).
  assert (Hlenx : List.length xs = List.length keys).
  { rewrite <- (Forall2_length Hxs). exact Hlen. }
  exists cs, xs, s2. split; [exact Hcs|]. split; [exact Hxs|]. split.
  { rewrite Hh, length_app. cbn [List.length]. lia. }
  split.
  { rewrite Hheap.
    replace (List.length (heap sa)) with (List.length (heap sa) + 0)%nat by lia.
    rewrite list_set_app_r. cbn [list_set]. rewrite Hh, <- app_assoc.
    cbn [app]. do 3 f_equal. unfold factor_matrix. f_equal.
    unfold f0, cashflow_table. cbn [frows].
    rewrite valued_keyed_rows by assumption. reflexivity. }
  split; [rewrite Hcfs'; cbn [self_cfs]; now rewrite Hr0|].
  split; [exact Hfac|].
  split; [rewrite Hi'; exact Hi | rewrite Hp'; exact Hp].
Qed.

(** X18.  A call of [calculate_factors] that returns on a cache miss has
    made two new DataFrames and touched no older one.  The first is the
    table of cash flows of the run, with its column [cf], and [self.cfs]
    refers to it.  The second is the factor matrix that is returned and
    that [self.factors] refers to: its index is (insurance_id, sex_insured,
    age_insured), its only column is [tar], and the row of a combination
    holds the present value, at the interest of the call, of the record of
    that combination in the first table.  The records are those of the run:
    what the calls of [cf] for the combinations return, made one after the
    other in the order of the rows, the first in the state of the call (the
    new table allocated), each later one in the state the call before it
    left. *)
Theorem calculate_factors_matrix (intrest : rate) (pension_age : Z)
    (st : state) (r : nat) (st' : state) :
  cache_hit intrest pension_age st = false ->
  calculate_factors MAXAGE LOWAGE UPAGE INSURANCE_IDS prae_to_continuous round
    self intrest pension_age st = (Ok r, st') ->
  let keys := tariff_keys INSURANCE_IDS LOWAGE UPAGE in
  exists cs xs s2,
    mapM (cf_of_key MAXAGE LOWAGE UPAGE prae_to_continuous round self
            pension_age intrest) keys (snd (alloc (keys_table keys) st))
      = (Ok cs, s2) /\
    Forall2 (fun c x => fst (pv round self c intrest fresh) = Ok x) cs xs /\
    heap st' = heap st ++ [cashflow_table keys cs; factor_matrix keys xs] /\
    self_cfs st' = Some (List.length (heap st)) /\
    r = S (List.length (heap st)) /\
    self_factors st' = Some r.
Proof.
  intros Hmiss H. cbv zeta.
  destruct (calculate_factors_miss_records _ _ _ _ _ Hmiss H)
    as (cs & xs & s2 & Hcs & Hxs & Hr & Hh & Hcfs & Hf & _ & _).
  exists cs, xs, s2. auto 10.
Qed.

(** A call of [calculate_factors] that is served from the cache and
    returns leaves a cached table that the next call cannot value. *)
Lemma calculate_factors_hit_then_fails (intrest : rate) (pension_age : Z)
    (st : state) (r : nat) (st' : state) :
  cache_hit intrest pension_age st = true ->
  calculate_factors MAXAGE LOWAGE UPAGE INSURANCE_IDS prae_to_continuous round
    self intrest pension_age st = (Ok r, st') ->
  self_cfs st = Some r /\
  exists k,
    fst (calculate_factors MAXAGE LOWAGE UPAGE INSURANCE_IDS prae_to_continuous
           round self intrest pension_age st') = Raise (KeyError (KStr k)).
Proof.
  intros Hhit H.
  rewrite (calculate_factors_hit MAXAGE LOWAGE UPAGE INSURANCE_IDS
             prae_to_continuous round self _ _ _ Hhit) in H.
  destruct (self_cfs st) as [ref|] eqn:Hcfs; [|discriminate H].
  pose proof (value_in_place_run round self ref intrest st) as Hrun.
  cbv zeta in Hrun. rewrite H in Hrun. cbn [fst snd] in Hrun.
  destruct (nth_error (heap st) ref) as [f0|] eqn:Hf0; [|discriminate Hrun].
  destruct (tar_column round self f0 intrest) as [tar|e]; [|discriminate Hrun].
  destruct (valued f0 tar) as [f|e] eqn:Hval; [|discriminate Hrun].
  destruct Hrun as (Hr & Hh & Hfa & Hc & Hi & Hp & _).
  inversion Hr. subst r. split; [reflexivity|].
  destruct (valued_columns _ _ _ Hval) as [Hcf Hid].
  assert (Hnth : nth_error (heap st') ref = Some f).
  { rewrite Hh. apply nth_error_list_set_eq. eapply nth_error_lt; eassumption. }
  assert (Hhit' : cache_hit intrest pension_age st' = true).
  { unfold cache_hit in *. now rewrite Hi, Hp. }
  rewrite (calculate_factors_hit MAXAGE LOWAGE UPAGE INSURANCE_IDS
             prae_to_continuous round self _ _ _ Hhit'), Hc, Hcfs.
  pose proof (value_in_place_run round self ref intrest st') as Hrun2.
  cbv zeta in Hrun2. rewrite Hnth in Hrun2.
  pose proof (unvaluable round self f intrest Hcf Hid) as Hu.
  destruct (tar_column round self f intrest) as [tar'|e].
  - rewrite Hu in Hrun2. eexists. exact Hrun2.
  - subst e. eexists. exact Hrun2.
Qed.

(** C8.  Two successive calls of [calculate_factors] with the same interest
    and pension age, the first of which returns.  When the first call was
    not itself served from the cache, the second call returns too, without
    invoking a cash-flow generator: its result is another object (the
    cached [self.cfs] itself) that equals the result of the first call,
    which it leaves untouched, and both are the factor matrix of the run of
    the first call: per combination the present value of the record that
    [cf] returned for it.  When the first call was itself served from the
    cache, as after [calculate_cashflows] with the same arguments, it has
    valued the cached table in place and the second call raises a
    [KeyError] instead of returning an equal matrix. *)
Theorem calculate_factors_twice (intrest : rate) (pension_age : Z)
    (st : state) (r1 : nat) (st1 : state) :
  calculate_factors MAXAGE LOWAGE UPAGE INSURANCE_IDS prae_to_continuous round
    self intrest pension_age st = (Ok r1, st1) ->
  let keys := tariff_keys INSURANCE_IDS LOWAGE UPAGE in
  let second := calculate_factors MAXAGE LOWAGE UPAGE INSURANCE_IDS
                  prae_to_continuous round self intrest pension_age st1 in
  (cache_hit intrest pension_age st = false ->
     exists cs xs s2 r2,
       mapM (cf_of_key MAXAGE LOWAGE UPAGE prae_to_continuous round self
               pension_age intrest) keys (snd (alloc (keys_table keys) st))
         = (Ok cs, s2) /\
       Forall2 (fun c x => fst (pv round self c intrest fresh) = Ok x) cs xs /\
       nth_error (heap st1) r1 = Some (factor_matrix keys xs) /\
       fst second = Ok r2 /\
       r2 <> r1 /\
       self_cfs st1 = Some r2 /\
       nth_error (heap (snd second)) r2 = Some (factor_matrix keys xs) /\
       nth_error (heap (snd second)) r1 = Some (factor_matrix keys xs) /\
       cf_calls (snd second) = cf_calls st1) /\
  (cache_hit intrest pension_age st = true ->
     self_cfs st = Some r1 /\
     exists k, fst second = Raise (KeyError (KStr k))).
Proof.
  intros H. cbv zeta. split.
  - intros Hmiss.
    destruct (calculate_factors_miss_records _ _ _ _ _ Hmiss H)
      as (cs & xs & s2 & Hcs & Hxs & Hr & Hh & _).
    pose proof (calculate_factors_miss_then_hit MAXAGE LOWAGE UPAGE
                  INSURANCE_IDS prae_to_continuous round self intrest
                  pension_age st Hmiss) as Htwice.
    cbv zeta in Htwice. rewrite H in Htwice. cbn [fst snd is_Ok] in Htwice.
    destruct (Htwice eq_refl)
      as (ref1 & ref2 & f & Hr1 & Hr2 & Hne & Hcfs & Hf1 & Hf2 & Hf3 & Hcalls).
    inversion Hr1. subst ref1. clear Hr1.
    assert (Hfm : nth_error (heap st1) r1
                  = Some (factor_matrix (tariff_keys INSURANCE_IDS LOWAGE UPAGE)
                            xs)).
    { rewrite Hh, Hr.
      replace (S (List.length (heap st))) with (List.length (heap st) + 1)%nat
        by lia.
      now rewrite nth_error_app_r. }
    assert (f = factor_matrix (tariff_keys INSURANCE_IDS LOWAGE UPAGE) xs)
      by congruence.
    subst f.
    exists cs, xs, s2, ref2. auto 12.
  - intros Hhit. exact (calculate_factors_hit_then_fails _ _ _ _ _ Hhit H).
Qed.

End Table.

Lemma create_lookup_table_rows_witness :
  exists l st',
    Tariff.lookup Tariff.r3 fresh = (Ok l, st') /\
    map (fun r => (lr_gender r, lr_age r)) l
      = lookup_keys Tariff.lowage Tariff.upage /\
    (forall r, In r l ->
       fst (ay_avg Tariff.prae Tariff.round_id Tariff.table (lr_age r)
              (lr_gender r) Tariff.r3 "partner" fresh) = Ok (lr_ay_avg r) /\
       hx_avg_at Tariff.table (lr_gender r) (lr_age r) = Ok (lr_hx_avg r) /\
       partner_alpha1 Tariff.table (lr_gender r) = Ok (lr_alpha1 r) /\
       partner_factor Tariff.table (lr_gender r) = Ok (lr_factor r) /\
       lr_cf r = nmul (nmul (lr_ay_avg r) (lr_hx_avg r)) (lr_factor r)) /\
    self_lookup st' = self_lookup fresh /\
    self_intrest st' = self_intrest fresh.
Proof.
  do 2 eexists. split.
  - vm_compute. reflexivity.
  - eapply (create_lookup_table_rows Tariff.lowage Tariff.upage Tariff.prae
              Tariff.round_id Tariff.table Tariff.r3 fresh).
    vm_compute. reflexivity.
Defined.

Lemma calculate_cashflows_table_witness :
  exists df st',
    Tariff.cashflows 3 Tariff.r3 fresh = (Ok df, st') /\
    let keys := tariff_keys Tariff.ids Tariff.lowage Tariff.upage in
    exists cs s2,
      mapM (cf_of_key Tariff.maxage Tariff.lowage Tariff.upage Tariff.prae
              Tariff.round_id Tariff.table 3 Tariff.r3) keys
           (snd (alloc (keys_table keys) fresh)) = (Ok cs, s2) /\
      List.length cs
        = (List.length Tariff.ids *
           (2 * Z.to_nat (Tariff.upage - Tariff.lowage)))%nat /\
      heap st' = heap fresh ++ [cashflow_table keys cs] /\
      nth_error (heap st') df = Some (cashflow_table keys cs) /\
      self_intrest st' = Some Tariff.r3 /\
      self_pension_age st' = Some 3 /\
      self_cfs st' = Some df /\
      self_factors st' = self_factors fresh /\
      self_lookup st' = self_lookup s2 /\
      trace st' = trace s2.
Proof.
  do 2 eexists. split.
  - vm_compute. reflexivity.
  - eapply (calculate_cashflows_table Tariff.maxage Tariff.lowage Tariff.upage
              Tariff.ids Tariff.prae Tariff.round_id Tariff.table 3 Tariff.r3
              fresh).
    vm_compute. reflexivity.
Defined.

Lemma calculate_factors_matrix_witness :
  exists r st',
    Tariff.factors Tariff.r3 3 fresh = (Ok r, st') /\
    let keys := tariff_keys Tariff.ids Tariff.lowage Tariff.upage in
    exists cs xs s2,
      mapM (cf_of_key Tariff.maxage Tariff.lowage Tariff.upage Tariff.prae
              Tariff.round_id Tariff.table 3 Tariff.r3) keys
           (snd (alloc (keys_table keys) fresh)) = (Ok cs, s2) /\
      Forall2 (fun c x =>
                 fst (pv Tariff.round_id Tariff.table c Tariff.r3 fresh) = Ok x)
              cs xs /\
      heap st' = heap fresh ++ [cashflow_table keys cs; factor_matrix keys xs] /\
      self_cfs st' = Some (List.length (heap fresh)) /\
      r = S (List.length (heap fresh)) /\
      self_factors st' = Some r.
Proof.
  do 2 eexists. split.
  - vm_compute. reflexivity.
  - eapply (calculate_factors_matrix Tariff.maxage Tariff.lowage Tariff.upage
              Tariff.ids Tariff.prae Tariff.round_id Tariff.table Tariff.r3 3
              fresh).
    + reflexivity.
    + vm_compute. reflexivity.
Defined.

Lemma calculate_factors_twice_witness :
  exists r1 st1,
    Tariff.factors Tariff.r3 3 Tariff.after_cashflows = (Ok r1, st1) /\
    let keys := tariff_keys Tariff.ids Tariff.lowage Tariff.upage in
    let second := Tariff.factors Tariff.r3 3 st1 in
    (cache_hit Tariff.r3 3 Tariff.after_cashflows = false ->
       exists cs xs s2 r2,
         mapM (cf_of_key Tariff.maxage Tariff.lowage Tariff.upage Tariff.prae
                 Tariff.round_id Tariff.table 3 Tariff.r3) keys
              (snd (alloc (keys_table keys) Tariff.after_cashflows))
           = (Ok cs, s2) /\
         Forall2 (fun c x =>
                    fst (pv Tariff.round_id Tariff.table c Tariff.r3 fresh)
                      = Ok x) cs xs /\
         nth_error (heap st1) r1 = Some (factor_matrix keys xs) /\
         fst second = Ok r2 /\
         r2 <> r1 /\
         self_cfs st1 = Some r2 /\
         nth_error (heap (snd second)) r2 = Some (factor_matrix keys xs) /\
         nth_error (heap (snd second)) r1 = Some (factor_matrix keys xs) /\
         cf_calls (snd second) = cf_calls st1) /\
    (cache_hit Tariff.r3 3 Tariff.after_cashflows = true ->
       self_cfs Tariff.after_cashflows = Some r1 /\
       exists k, fst second = Raise (KeyError (KStr k))).
Proof.
  do 2 eexists. split.
  - vm_compute. reflexivity.
  - eapply (calculate_factors_twice Tariff.maxage Tariff.lowage Tariff.upage
              Tariff.ids Tariff.prae Tariff.round_id Tariff.table Tariff.r3 3
              Tariff.after_cashflows).
    vm_compute. reflexivity.
Defined.

(** On the small tariff, after [calculate_cashflows] at 3 per cent and
    pension age 3: the first [calculate_factors] with that key is served
    from the cache and returns the cached table itself, the second raises. *)
Example calculate_factors_twice_after_cashflows :
  cache_hit Tariff.r3 3 Tariff.after_cashflows = true /\
  exists st1,
    Tariff.factors Tariff.r3 3 Tariff.after_cashflows = (Ok 0%nat, st1) /\
    fst (Tariff.factors Tariff.r3 3 st1) = Raise (KeyError (KStr "cf")).
Proof.
  split; [vm_compute; reflexivity|].
  eexists. split; vm_compute; reflexivity.
Qed.

(** ** The undefined-partner product and the two caches *)

Section Caches.

Variable MAXAGE : Z.
Variable LOWAGE : Z.
Variable UPAGE : Z.
Variable INSURANCE_IDS : list string.
Variable prae_to_continuous : series -> series.
Variable round : num -> Z -> num.
Variable self : LifeTable.

Lemma cached_lookup_keyed (intrest : rate) (st : state) (l : lookup_table)
    (st' : state) :
  lookup_keyed LOWAGE UPAGE st ->
  cached_lookup LOWAGE UPAGE prae_to_continuous round self intrest st
    = (Ok l, st') ->
  self_lookup st' = Some l /\
  map (fun r => (lr_gender r, lr_age r)) l = lookup_keys LOWAGE UPAGE.
Proof.
  intros Hkeyed H.
  destruct (rate_eq_attr intrest (self_intrest st)) eqn:Hhit.
  - rewrite cached_lookup_hit in H by exact Hhit.
    destruct (self_lookup st) as [l0|] eqn:El; inversion H. subst.
    split; [exact El | exact (Hkeyed _ El)].
  - rewrite cached_lookup_miss in H by exact Hhit. cbv zeta in H.
    destruct (create_lookup_table LOWAGE UPAGE prae_to_continuous round self
                intrest st) as [[l0|e] s1] eqn:Hc; cbn [fst snd] in H;
      inversion H. subst.
    split; [reflexivity|].
    exact (proj1 (create_lookup_table_content _ _ _ _ _ _ _ _ _ Hc)).
Qed.

(** X19.  The undefined-partner product is confined to the lookup ages:
    with a lookup cache that is empty or holds a table made by
    [create_lookup_table], a call of [cf_undefined_partner] returns only
    for an insured age from [LOWAGE] up to but not including [UPAGE]; for
    any other age it raises.  After a call that returns the cache again
    holds such a table. *)
Theorem cf_undefined_partner_lookup_ages (age : Z) (sex : string)
    (pension_age : Z) (kw : kwargs) (st : state) (c : cashflow) (st' : state) :
  lookup_keyed LOWAGE UPAGE st ->
  cf_undefined_partner MAXAGE LOWAGE UPAGE prae_to_continuous round self
    age sex pension_age kw st = (Ok c, st') ->
  LOWAGE <= age < UPAGE /\ lookup_keyed LOWAGE UPAGE st'.
Proof.
  intros Hkeyed H. unfold cf_undefined_partner in H.
  apply bind_Ok_inv in H. destruct H as (u & s1 & H1 & H).
  assert (s1 = st).
  { destruct (sex_in_MF sex); [|discriminate H1].
    apply ret_Ok_inv in H1. tauto. }
  subst s1.
  apply bind_Ok_inv in H. destruct H as (r & s2 & H2 & H).
  destruct (intrest_or_default_run kw st) as (s2' & E2 & Q2).
  rewrite E2 in H2. inversion H2. subst r s2'. clear H2.
  apply bind_Ok_inv in H. destruct H as (hxv & s3 & H3 & H).
  destruct (tame_hx_at_pensionage self sex pension_age kw s2) as [_ Q3].
  rewrite H3 in Q3. cbn [snd] in Q3.
  apply bind_Ok_inv in H. destruct H as (adj & s4 & H4 & H).
  apply lift_Ok_inv in H4. destruct H4 as [_ ->].
  apply bind_Ok_inv in H. destruct H as (l & s5 & H5 & H).
  assert (Hkeyed3 : lookup_keyed LOWAGE UPAGE s3).
  { intros l0 Hl0. apply Hkeyed.
    rewrite <- (q_lookup _ _ Q2), <- (q_lookup _ _ Q3). exact Hl0. }
  destruct (cached_lookup_keyed _ _ _ _ Hkeyed3 H5) as [Hl Hkeys].
  apply lift_Ok_inv in H. destruct H as [H ->].
  split.
  - unfold undefined_partner_payments in H. rbind_inv H.
    unfold lookup_alpha1 in E1.
    destruct (find _ l) as [row|] eqn:Hfind; [|discriminate E1].
    apply find_some in Hfind. destruct Hfind as [Hin Hrow].
    apply andb_true_iff in Hrow. destruct Hrow as [Hg Ha].
    apply String.eqb_eq in Hg. apply Z.eqb_eq in Ha.
    assert (Hkey : In (sex, age) (lookup_keys LOWAGE UPAGE)).
    { rewrite <- Hkeys, <- Hg, <- Ha.
      apply (in_map (fun r => (lr_gender r, lr_age r))). exact Hin. }
    apply In_lookup_keys in Hkey. tauto.
  - intros l0 Hl0. rewrite Hl in Hl0. inversion Hl0. subst. exact Hkeys.
Qed.

(** X20.  The two caches share the key [self.intrest].  A direct call of
    [cf_undefined_partner] that returns leaves [self.cfs], [self.pension_age]
    and every DataFrame as they are, but makes its own interest the key: the
    next [calculate_factors] with that interest and the cached pension age
    is a cache hit, and works on the table of cash flows that was cached
    before the call, at whatever interest that table was computed. *)
Theorem direct_call_rekeys_factor_cache (age : Z) (sex : string)
    (pension_age : Z) (kw : kwargs) (st : state) (c : cashflow) (st' : state)
    (p : Z) :
  cf_undefined_partner MAXAGE LOWAGE UPAGE prae_to_continuous round self
    age sex pension_age kw st = (Ok c, st') ->
  self_pension_age st = Some p ->
  self_cfs st' = self_cfs st /\ heap st' = heap st /\
  cache_hit (used_intrest kw) p st' = true /\
  calculate_factors MAXAGE LOWAGE UPAGE INSURANCE_IDS prae_to_continuous round
    self (used_intrest kw) p st' =
    match self_cfs st with
    | Some df => value_in_place round self df (used_intrest kw) st'
    | None => (Raise (AttributeError msg_no_cashflows), st')
    end.
Proof.
  intros H Hp.
  pose proof (cf_undefined_partner_cache MAXAGE LOWAGE UPAGE prae_to_continuous
                round self age sex pension_age kw st) as Hc.
  cbv zeta in Hc. rewrite H in Hc. cbn [fst snd is_Ok] in Hc.
  destruct (Hc eq_refl) as (Hpa & Hcfs & _ & Hh & _ & Hkey).
  assert (Hhit : cache_hit (used_intrest kw) p st' = true).
  { unfold cache_hit. rewrite Hpa, Hp. cbn [Z_eq_attr].
    rewrite Z.eqb_refl, andb_true_r.
    destruct (rate_eq_attr (used_intrest kw) (self_intrest st)) eqn:E.
    - destruct Hkey as (_ & _ & ->). exact E.
    - destruct Hkey as (_ & -> & _). apply rate_eqb_refl. }
  split; [exact Hcfs|]. split; [exact Hh|]. split; [exact Hhit|].
  rewrite (calculate_factors_hit MAXAGE LOWAGE UPAGE INSURANCE_IDS
             prae_to_continuous round self _ _ _ Hhit), Hcfs.
  reflexivity.
Qed.

End Caches.

Section RiskPremiums.

Variable MAXAGE : Z.
Variable prae_to_continuous : series -> series.
Variable self other : LifeTable.

(** X21.  The one-year risk premiums read the partner adjustments and no
    others: two tariffs with the same life and hazard tables, the same age
    gap and the same partner adjustments give the same NPTL-B and NPTL-O
    cash flows, whatever their adjustments for 'risk' (or anything else)
    are. *)
Theorem risk_premiums_use_partner_adjustments (age : Z) (sex : string)
    (pension_age : Z) (kw : kwargs) :
  lx other = lx self -> hx other = hx self -> delta other = delta self ->
  (forall s, adjust_get other s "partner" = adjust_get self s "partner") ->
  cf_defined_one_year_risk MAXAGE prae_to_continuous other age sex
    pension_age kw
    = cf_defined_one_year_risk MAXAGE prae_to_continuous self age sex
        pension_age kw /\
  cf_undefined_one_year_risk MAXAGE prae_to_continuous other age sex
    pension_age kw
    = cf_undefined_one_year_risk MAXAGE prae_to_continuous self age sex
        pension_age kw.
Proof.
  intros Hlx Hhx Hdelta Hadj.
  assert (Hdef : cf_defined_one_year_risk MAXAGE prae_to_continuous other age
                   sex pension_age kw
                 = cf_defined_one_year_risk MAXAGE prae_to_continuous self age
                     sex pension_age kw).
  { unfold cf_defined_one_year_risk, cf_ay_avg, qx, npx.
    cbn [kw_insurance_type]. rewrite !Hadj, Hlx, Hdelta. reflexivity. }
  split; [exact Hdef|].
  unfold cf_undefined_one_year_risk, hx_avg_at. rewrite Hdef, Hhx. reflexivity.
Qed.

End RiskPremiums.

Lemma cf_undefined_partner_lookup_ages_witness :
  exists c st',
    Tariff.undefined_partner 1 "M" 3 (intrest_kwargs Tariff.r3) fresh
      = (Ok c, st') /\
    Tariff.lowage <= 1 < Tariff.upage /\
    lookup_keyed Tariff.lowage Tariff.upage st'.
Proof.
  do 2 eexists. split.
  - vm_compute. reflexivity.
  - eapply (cf_undefined_partner_lookup_ages Tariff.maxage Tariff.lowage
              Tariff.upage Tariff.prae Tariff.round_id Tariff.table 1 "M" 3
              (intrest_kwargs Tariff.r3) fresh).
    + intros l Hl. discriminate Hl.
    + vm_compute. reflexivity.
Defined.

Lemma direct_call_rekeys_factor_cache_witness :
  exists c st',
    Tariff.undefined_partner 1 "M" 3 (intrest_kwargs Tariff.r4)
      Tariff.after_cashflows = (Ok c, st') /\
    self_cfs st' = self_cfs Tariff.after_cashflows /\
    heap st' = heap Tariff.after_cashflows /\
    cache_hit (used_intrest (intrest_kwargs Tariff.r4)) 3 st' = true /\
    Tariff.factors (used_intrest (intrest_kwargs Tariff.r4)) 3 st' =
      match self_cfs Tariff.after_cashflows with
      | Some df =>
          value_in_place Tariff.round_id Tariff.table df
            (used_intrest (intrest_kwargs Tariff.r4)) st'
      | None => (Raise (AttributeError msg_no_cashflows), st')
      end.
Proof.
  do 2 eexists. split.
  - vm_compute. reflexivity.
  - eapply (direct_call_rekeys_factor_cache Tariff.maxage Tariff.lowage
              Tariff.upage Tariff.ids Tariff.prae Tariff.round_id Tariff.table
              1 "M" 3 (intrest_kwargs Tariff.r4) Tariff.after_cashflows).
    + vm_compute. reflexivity.
    + vm_compute. reflexivity.
Defined.

Lemma risk_premiums_use_partner_adjustments_witness :
  cf_defined_one_year_risk Tariff.maxage Tariff.prae Tariff.table_with_risk
    1 "M" 3 no_kwargs
    = cf_defined_one_year_risk Tariff.maxage Tariff.prae Tariff.table
        1 "M" 3 no_kwargs /\
  cf_undefined_one_year_risk Tariff.maxage Tariff.prae Tariff.table_with_risk
    1 "M" 3 no_kwargs
    = cf_undefined_one_year_risk Tariff.maxage Tariff.prae Tariff.table
        1 "M" 3 no_kwargs.
Proof.
  apply (risk_premiums_use_partner_adjustments Tariff.maxage Tariff.prae
           Tariff.table Tariff.table_with_risk 1 "M" 3 no_kwargs).
  - reflexivity.
  - reflexivity.
  - reflexivity.
  - intros s. unfold adjust_get, Tariff.table_with_risk, Tariff.table.
    cbn [adjust dict_get].
    destruct (String.eqb "M" s); [reflexivity|].
    destruct (String.eqb "F" s); reflexivity.
Defined.
